(** * ChaseTag (MyoChallenge 2023 locomotion track): opponent, terrain, episode logic

    A shallow embedding of [myosuite/envs/myo/myochallenge/chasetag_v0.py].

    Numbers are the reals of the Standard Library: NumPy floats are read as
    the real numbers they approximate (no rounding error, no NaN).  The only
    place where a non-finite float matters, the min-max normalisation of the
    terrain patches, is modelled with a partial division.

    Python objects that are mutated in place (the opponent, the simulation
    handle it shares with the environment, the random generator) live in one
    record that is threaded through a small state-and-exception monad. *)

From Stdlib Require Import Reals Lra Lia List String ZArith Bool.
Import ListNotations.
Open Scope string_scope.
Open Scope R_scope.

(** ** Python exceptions and the state/exception monad *)

Inductive exn : Type :=
| AttributeError (attr : string)
| UnboundLocalError (var : string)
| NotImplementedError (msg : string)
| AssertionError
| IndexError
| ValueError.

(** [OutOfFuel] is the outcome of a [while] loop that is still running when the
    fuel given to it is spent. *)
Inductive outcome (A : Type) : Type :=
| Return (a : A)
| Raise (e : exn)
| OutOfFuel.
Arguments Return {A} a.
Arguments Raise {A} e.
Arguments OutOfFuel {A}.

Definition M (S A : Type) : Type := S -> outcome A * S.

Definition ret {S A} (a : A) : M S A := fun s => (Return a, s).

Definition bind {S A B} (m : M S A) (k : A -> M S B) : M S B :=
  fun s =>
    match m s with
    | (Return a, s') => k a s'
    | (Raise e, s') => (Raise e, s')
    | (OutOfFuel, s') => (OutOfFuel, s')
    end.

Definition raise {S A} (e : exn) : M S A := fun s => (Raise e, s).
Definition gets {S A} (f : S -> A) : M S A := fun s => (Return (f s), s).
Definition modify {S} (f : S -> S) : M S unit := fun s => (Return tt, f s).

Declare Scope monad_scope.
Delimit Scope monad_scope with monad.
Notation "x <- m ;; k" := (bind m (fun x => k))
  (at level 61, m at next level, right associativity) : monad_scope.
Notation "' p <- m ;; k" := (bind m (fun x => match x with p => k end))
  (at level 61, p pattern, m at next level, right associativity) : monad_scope.
Notation "m ;; k" := (bind m (fun _ => k))
  (at level 61, right associativity) : monad_scope.
Open Scope monad_scope.

(** Reading an attribute that may not have been assigned yet. *)
Definition getattr {S A} (f : S -> option A) (name : string) : M S A :=
  fun s => match f s with
           | Some a => (Return a, s)
           | None => (Raise (AttributeError name), s)
           end.

(** Indexing a Python list. *)
Definition getitem {S} (l : list R) (i : nat) : M S R :=
  match nth_error l i with
  | Some v => ret v
  | None => raise IndexError
  end.

(** ** NumPy helpers *)

(** [np.clip(x, lo, hi)] is [minimum(maximum(x, lo), hi)]. *)
Definition np_clip (lo hi x : R) : R := Rmin (Rmax x lo) hi.

(** [np.linalg.norm] of a planar vector. *)
Definition norm2 (dx dy : R) : R := sqrt (dx * dx + dy * dy).

(** The random generator of NumPy ([Generator] or [RandomState]; the module
    level functions [np.random.*] use a process-wide instance of the same
    interface).  Every draw returns the variate and the advanced generator. *)
Class NumpyRandom (G : Type) : Type := {
  (** [rng.uniform(low, high)] *)
  rng_uniform : R -> R -> G -> R * G;
  (** [rng.uniform(low, high, size=n)], flattened *)
  rng_uniform_size : R -> R -> nat -> G -> list R * G;
  (** [rng.normal(loc, scale, size=n)] *)
  rng_normal_size : R -> R -> nat -> G -> list R * G;
  (** [rng.choice(a)] for a sequence [a] of length [n]: the chosen index *)
  rng_choice : nat -> G -> nat * G;
}.

(** What NumPy documents about these draws. *)
Class NumpyRandomSpec (G : Type) `{NumpyRandom G} : Prop := {
  rng_uniform_range : forall lo hi g,
    lo < hi -> lo <= fst (rng_uniform lo hi g) < hi;
  rng_uniform_size_length : forall lo hi n g,
    List.length (fst (rng_uniform_size lo hi n g)) = n;
  rng_uniform_size_range : forall lo hi n g,
    lo < hi -> Forall (fun x => lo <= x < hi) (fst (rng_uniform_size lo hi n g));
  rng_choice_range : forall n g, (0 < n)%nat -> (fst (rng_choice n g) < n)%nat;
}.

(** ** The simulation handle

    Only the entries of [sim.data] that this file reads or writes. *)
Record Sim : Type := {
  mocap_pos : R * R * R;            (* sim.data.mocap_pos[0, :] *)
  mocap_quat : R * R * R * R;       (* sim.data.mocap_quat[0, :] *)
  root_xpos : R * R * R;            (* sim.data.body('root').xpos *)
  pelvis_xpos : R * R * R;          (* sim.data.body('pelvis').xpos *)
  time : R;                         (* sim.data.time *)
}.

Definition Pose : Type := (R * R * R)%type.

Definition dt : R := 0.01.

(** [myosuite.utils.quat_math] is another module of the package; the two
    conversions the opponent uses are taken as an interface. *)
Class QuatMath : Type := {
  quat2euler : R * R * R * R -> R * R * R;
  euler2quat : R * R * R -> R * R * R * R;
}.

(** [pink.ColoredNoiseProcess]: the constructor draws its buffer from the
    generator it is given and keeps a reference to it; [sample] returns the
    next column and refills the buffer from that same generator when it has
    run out. *)
Class ColoredNoise (G NP : Type) : Type := {
  pink_new : G -> NP * G;
  pink_sample : NP -> G -> list R * (NP * G);
}.

(** ** ChallengeOpponent *)

Record ChallengeOpponent {G NP : Type} : Type := {
  sim : Sim;
  rng : option G;
  noise_process : option NP;
  opponent_policy : option string;
  opponent_vel : list R;
  opponent_probabilities : list R;
  min_spawn_distance : R;
}.
Arguments ChallengeOpponent : clear implicits.

Section Opponent.

Context {G NP : Type} `{NumpyRandom G} `{QuatMath} `{ColoredNoise G NP}.

Local Abbreviation ChallengeOpponent := (ChallengeOpponent G NP).

Definition set_sim (v : Sim) (o : ChallengeOpponent) : ChallengeOpponent :=
  {| sim := v; rng := rng o; noise_process := noise_process o;
     opponent_policy := opponent_policy o; opponent_vel := opponent_vel o;
     opponent_probabilities := opponent_probabilities o;
     min_spawn_distance := min_spawn_distance o |}.

Definition set_rng (v : option G) (o : ChallengeOpponent) : ChallengeOpponent :=
  {| sim := sim o; rng := v; noise_process := noise_process o;
     opponent_policy := opponent_policy o; opponent_vel := opponent_vel o;
     opponent_probabilities := opponent_probabilities o;
     min_spawn_distance := min_spawn_distance o |}.

Definition set_noise_process (v : option NP) (o : ChallengeOpponent)
  : ChallengeOpponent :=
  {| sim := sim o; rng := rng o; noise_process := v;
     opponent_policy := opponent_policy o; opponent_vel := opponent_vel o;
     opponent_probabilities := opponent_probabilities o;
     min_spawn_distance := min_spawn_distance o |}.

Definition set_opponent_policy (v : option string) (o : ChallengeOpponent)
  : ChallengeOpponent :=
  {| sim := sim o; rng := rng o; noise_process := noise_process o;
     opponent_policy := v; opponent_vel := opponent_vel o;
     opponent_probabilities := opponent_probabilities o;
     min_spawn_distance := min_spawn_distance o |}.

Definition set_opponent_vel (v : list R) (o : ChallengeOpponent) : ChallengeOpponent :=
  {| sim := sim o; rng := rng o; noise_process := noise_process o;
     opponent_policy := opponent_policy o; opponent_vel := v;
     opponent_probabilities := opponent_probabilities o;
     min_spawn_distance := min_spawn_distance o |}.

(** One draw [self.rng.uniform(lo, hi)] from the opponent's generator. *)
Definition uniform (lo hi : R) : M ChallengeOpponent R :=
  g <- getattr rng "rng" ;;
  let (u, g') := rng_uniform lo hi g in
  modify (set_rng (Some g')) ;;
  ret u.

Definition reset_noise_process : M ChallengeOpponent unit :=
  g <- getattr rng "rng" ;;
  let (np, g') := pink_new g in
  modify (set_rng (Some g')) ;;
  modify (set_noise_process (Some np)).

Definition get_opponent_pose : M ChallengeOpponent Pose :=
  s <- gets sim ;;
  let '(x, y, _) := mocap_pos s in
  let '(_, _, angle) := quat2euler (mocap_quat s) in
  ret (x, y, angle).

Definition write_pose (pose : Pose) (s : Sim) : Sim :=
  let '(x, y, angle) := pose in
  let '(_, _, z) := mocap_pos s in
  {| mocap_pos := (x, y, z);
     mocap_quat := euler2quat (0, 0, angle);
     root_xpos := root_xpos s;
     pelvis_xpos := pelvis_xpos s;
     time := time s |}.

Definition set_opponent_pose (pose : Pose) : M ChallengeOpponent unit :=
  modify (fun o => set_sim (write_pose pose (sim o)) o).

(** [self.opponent_vel = vel] binds the attribute to the very array that
    [vel[0] = np.abs(vel[0])] then updates in place; [np.clip] returns a
    fresh array, so the attribute keeps the unclipped command. *)
Definition move_opponent (vel : list R) : M ChallengeOpponent unit :=
  modify (set_opponent_vel vel) ;;
  match vel with
  | [v0; v1] =>
      modify (set_opponent_vel [Rabs v0; v1]) ;;
      let c0 := np_clip (-1) 1 (Rabs v0) in
      let c1 := np_clip (-1) 1 v1 in
      ' (x, y, angle) <- get_opponent_pose ;;
      let x_vel := c0 * cos (angle + 0.5 * PI) in
      let y_vel := c0 * sin (angle + 0.5 * PI) in
      let x' := x - dt * x_vel in
      let y' := y - dt * y_vel in
      let angle' := angle + dt * c1 in
      set_opponent_pose (np_clip (-5.5) 5.5 x', np_clip (-5.5) 5.5 y', angle')
  | _ => raise AssertionError
  end.

Definition random_movement : M ChallengeOpponent (list R) :=
  np <- getattr noise_process "noise_process" ;;
  g <- getattr rng "rng" ;;
  let '(v, (np', g')) := pink_sample np g in
  modify (set_rng (Some g')) ;;
  modify (set_noise_process (Some np')) ;;
  ret v.

Definition sample_opponent_policy : M ChallengeOpponent unit :=
  rand_num <- uniform 0 1 ;;
  probs <- gets opponent_probabilities ;;
  p0 <- getitem probs 0 ;;
  if Rlt_dec rand_num p0 then
    modify (set_opponent_policy (Some "static_stationary"))
  else
    p1 <- getitem probs 1 ;;
    if Rlt_dec rand_num (p0 + p1) then
      modify (set_opponent_policy (Some "stationary"))
    else
      p2 <- getitem probs 2 ;;
      if Rlt_dec rand_num (p0 + p1 + p2) then
        modify (set_opponent_policy (Some "random"))
      else ret tt.

Definition update_opponent_state : M ChallengeOpponent unit :=
  policy <- getattr opponent_policy "opponent_policy" ;;
  opponent_vel <-
    (if (policy =? "stationary")%string || (policy =? "static_stationary")%string then
       ret [0; 0]
     else if (policy =? "random")%string then
       random_movement
     else
       raise (NotImplementedError policy)) ;;
  move_opponent opponent_vel.

(** The [while dist < self.min_spawn_distance] loop of [reset_opponent];
    [pose] is [None] as long as the local variable is unassigned. *)
Fixpoint spawn_loop (fuel : nat) (dist : R) (pose : option Pose)
  : M ChallengeOpponent (option Pose) :=
  msd <- gets min_spawn_distance ;;
  if Rlt_dec dist msd then
    match fuel with
    | O => fun s => (OutOfFuel, s)
    | S fuel' =>
        x <- uniform (-5) 5 ;;
        y <- uniform (-5) 5 ;;
        angle <- uniform (- 2 * PI) (2 * PI) ;;
        ' (rx, ry, _) <- gets (fun o => root_xpos (sim o)) ;;
        spawn_loop fuel' (norm2 (x - rx) (y - ry)) (Some (x, y, angle))
    end
  else ret pose.

(** Reading the local variable [pose]. *)
Definition read_local (pose : option Pose) : M ChallengeOpponent Pose :=
  match pose with
  | Some p => ret p
  | None => raise (UnboundLocalError "pose")
  end.

Definition reset_opponent (fuel : nat) (rng_arg : option G) : M ChallengeOpponent unit :=
  match rng_arg with
  | Some g => modify (set_rng (Some g)) ;; reset_noise_process
  | None => ret tt
  end ;;
  modify (set_opponent_vel [0; 0]) ;;
  sample_opponent_policy ;;
  pose <- spawn_loop fuel 0 None ;;
  policy <- getattr opponent_policy "opponent_policy" ;;
  pose <- (if (policy =? "static_stationary")%string then
             read_local pose ;; ret (0, -5, 0)
           else read_local pose) ;;
  set_opponent_pose pose ;;
  modify (set_opponent_vel [0; 0]).

(** [ChallengeOpponent.__init__]. *)
Definition ChallengeOpponent_init (fuel : nat) (s : Sim) (rng_arg : option G)
    (probabilities : list R) (msd : R) : outcome unit * ChallengeOpponent :=
  reset_opponent fuel rng_arg
    {| sim := s; rng := None; noise_process := None; opponent_policy := None;
       opponent_vel := []; opponent_probabilities := probabilities;
       min_spawn_distance := msd |}.

End Opponent.

(** ** HeightField: the procedural terrain patches *)

(** [np.min] and [np.max] of a flattened array; they raise on an empty one. *)
Definition np_min {S} (l : list R) : M S R :=
  match l with
  | [] => raise ValueError
  | x :: t => ret (fold_left Rmin t x)
  end.

Definition np_max {S} (l : list R) : M S R :=
  match l with
  | [] => raise ValueError
  | x :: t => ret (fold_left Rmax t x)
  end.

(** An entry of a float array that went through a division: [None] stands for
    the non-finite result ([nan] or [inf]) of dividing by zero, which NumPy
    stores without raising. *)
Definition np_divide (a b : R) : option R :=
  if Req_dec_T b 0 then None else Some (a / b).

(** [(data - lo) / (hi - lo)], elementwise. *)
Definition min_max_normalize (lo hi : R) (data : list R) : list (option R) :=
  map (fun v => np_divide (v - lo) (hi - lo)) data.

(** [np.linspace(start, stop, num)] *)
Definition linspace (start stop : R) (num : nat) : list R :=
  let div := (num - 1)%nat in
  let delta := stop - start in
  map (fun i => if (0 <? div)%nat then INR i * (delta / INR div) + start
                else INR i * delta + start)
      (seq 0 num).

(** [a.reshape(rows, cols)] of a flat array, row-major. *)
Definition reshape {A} (rows cols : nat) (a : list A) : list (list A) :=
  map (fun i => firstn cols (skipn (i * cols) a)) (seq 0 rows).

(** [np.flip(m, [0, 1])] *)
Definition flip01 {A} (m : list (list A)) : list (list A) := rev (map (@rev A) m).

(** [np.flip(m, 1)] *)
Definition flip1 {A} (m : list (list A)) : list (list A) := map (@rev A) m.

Fixpoint zip_cons {A} (row : list A) (cols : list (list A)) : list (list A) :=
  match row, cols with
  | x :: row', c :: cols' => (x :: c) :: zip_cons row' cols'
  | _, _ => []
  end.

(** [np.transpose] of an array with [ncols] columns. *)
Fixpoint transpose {A} (ncols : nat) (m : list (list A)) : list (list A) :=
  match m with
  | [] => repeat [] ncols
  | row :: rest => zip_cons row (transpose ncols rest)
  end.

(** [np.rot90(m)] is [transpose(flip(m, 1))]. *)
Definition rot90 {A} (ncols : nat) (m : list (list A)) : list (list A) :=
  transpose ncols (flip1 m).

Record HeightField {G : Type} : Type := {
  hf_rng : G;              (* self.rng *)
  patch_size : nat;        (* self.patch_size *)
}.
Arguments HeightField : clear implicits.

Section Terrain.

Context {G : Type} `{NumpyRandom G}.

Definition hf_draw {A} (f : G -> A * G) : M (HeightField G) A :=
  fun s => let (a, g') := f (hf_rng s) in
           (Return a, {| hf_rng := g'; patch_size := patch_size s |}).

Definition _compute_rough_terrain : M (HeightField G) (list (list (option R))) :=
  ps <- gets patch_size ;;
  rough <- hf_draw (rng_uniform_size (-0.5) 0.5 (ps * ps)) ;;
  lo <- np_min rough ;;
  hi <- np_max rough ;;
  lo' <- np_min rough ;;
  let normalized_data := map (fun v => np_divide (v - lo) (hi - lo')) rough in
  let scalar := 0.08 in
  let offset := 0.02 in
  ret (reshape ps ps (map (option_map (fun v => v * scalar - offset)) normalized_data)).

Definition _compute_hilly_terrain : M (HeightField G) (list (list (option R))) :=
  ps <- gets patch_size ;;
  let frequency := 10 in
  scalar <- hf_draw (rng_uniform 0.03 0.23) ;;
  let data := map (fun x => sin (x + PI / 2) - 1)
                  (linspace 0 (frequency * PI) (ps * ps)) in
  lo <- np_min data ;;
  hi <- np_max data ;;
  lo' <- np_min data ;;
  let normalized_data := map (fun v => np_divide (v - lo) (hi - lo')) data in
  let normalized_data :=
    flip01 (reshape ps ps (map (option_map (fun v => v * scalar)) normalized_data)) in
  u <- hf_draw (rng_uniform 0 1) ;;
  if Rlt_dec u 0.5 then ret (rot90 ps normalized_data)
  else ret normalized_data.

Definition _compute_patch_data (terrain_type : string)
  : M (HeightField G) (list (list (option R))) :=
  if (terrain_type =? "flat")%string then
    ps <- gets patch_size ;; ret (repeat (repeat (Some 0) ps) ps)
  else if (terrain_type =? "rough")%string then _compute_rough_terrain
  else if (terrain_type =? "hilly")%string then _compute_hilly_terrain
  else raise (NotImplementedError "").

End Terrain.

(** An elevation lies in [[lo, hi]]; a non-finite entry lies in no interval. *)
Definition elevation_in (lo hi : R) (v : option R) : Prop :=
  match v with
  | Some x => lo <= x <= hi
  | None => False
  end.

Definition patch_in (lo hi : R) (patch : list (list (option R))) : Prop :=
  Forall (Forall (elevation_in lo hi)) patch.

(** The ripple samples of a hilly patch of side [ps], before normalisation. *)
Definition ripple (ps : nat) : list R :=
  map (fun x => sin (x + PI / 2) - 1) (linspace 0 (10 * PI) (ps * ps)).

(** A patch is square of side [n]. *)
Definition square {A} (n : nat) (patch : list (list A)) : Prop :=
  List.length patch = n /\ Forall (fun row => List.length row = n) patch.

(** ** ChaseTagEnvV0: task sampling, reset state, termination and score *)

Definition maxTime : R := 20.

(** Round half to even, [np.rint]. *)
Definition np_rint (x : R) : Z :=
  let f := Zfloor x in
  let r := x - IZR f in
  if Rlt_dec r (1 / 2) then f
  else if Rlt_dec (1 / 2) r then (f + 1)%Z
  else if Z.even f then f else (f + 1)%Z.

(** [np.round(x, 2)] *)
Definition np_round2 (x : R) : R := IZR (np_rint (x * 100)) / 100.

(** The entries of [self.obs_dict] that the reward and the termination read. *)
Record ObsDict : Type := {
  obs_time : R;                    (* obs_dict['time'] *)
  obs_opponent_pose : Pose;        (* obs_dict['opponent_pose'] *)
  obs_model_root_pos : R * R;      (* obs_dict['model_root_pos'] *)
}.

(** The environment.  [opponent] carries [self.sim], which the opponent
    shares; [np_random] is the generator of the environment and [np_global]
    the process-wide state behind the module-level [np.random.*] functions. *)
Record ChaseTagEnvV0 {G NP : Type} : Type := {
  opponent : ChallengeOpponent G NP;
  np_random : G;
  np_global : G;
  obs_dict : ObsDict;
  startFlag : bool;
  win_distance : R;
  reset_type : string;
  task_choice : string;
  current_task : option string;
  key_qpos : list (list R);        (* self.sim.model.key_qpos *)
  key_qvel : list (list R);        (* self.sim.model.key_qvel *)
}.
Arguments ChaseTagEnvV0 : clear implicits.

(** The entries of the reward dictionary that do not depend on the reward
    weights or on the muscle activations. *)
Record RewardDict : Type := {
  rwd_lose : Z;
  rwd_distance : R;
  rwd_sparse : R;
  rwd_solved : Z;
  rwd_done : Z;
}.

Section Env.

Context {G NP : Type} `{NumpyRandom G}.

Local Abbreviation Env := (ChaseTagEnvV0 G NP).

Definition set_np_random (g : G) (e : Env) : Env :=
  {| opponent := opponent e; np_random := g; np_global := np_global e;
     obs_dict := obs_dict e; startFlag := startFlag e;
     win_distance := win_distance e; reset_type := reset_type e;
     task_choice := task_choice e; current_task := current_task e;
     key_qpos := key_qpos e; key_qvel := key_qvel e |}.

Definition set_np_global (g : G) (e : Env) : Env :=
  {| opponent := opponent e; np_random := np_random e; np_global := g;
     obs_dict := obs_dict e; startFlag := startFlag e;
     win_distance := win_distance e; reset_type := reset_type e;
     task_choice := task_choice e; current_task := current_task e;
     key_qpos := key_qpos e; key_qvel := key_qvel e |}.

Definition set_current_task (t : option string) (e : Env) : Env :=
  {| opponent := opponent e; np_random := np_random e; np_global := np_global e;
     obs_dict := obs_dict e; startFlag := startFlag e;
     win_distance := win_distance e; reset_type := reset_type e;
     task_choice := task_choice e; current_task := t;
     key_qpos := key_qpos e; key_qvel := key_qvel e |}.

(** A draw from [self.np_random]. *)
Definition draw_np_random {A} (f : G -> A * G) : M Env A :=
  fun e => let (a, g') := f (np_random e) in (Return a, set_np_random g' e).

(** A draw from the module-level [np.random]. *)
Definition draw_np_global {A} (f : G -> A * G) : M Env A :=
  fun e => let (a, g') := f (np_global e) in (Return a, set_np_global g' e).

Definition getrow {S} (rows : list (list R)) (i : nat) : M S (list R) :=
  match nth_error rows i with
  | Some v => ret v
  | None => raise IndexError
  end.

Definition _sample_task : M Env unit :=
  choice <- gets task_choice ;;
  if (choice =? "random")%string then
    i <- draw_np_global (rng_choice 2) ;;
    modify (set_current_task (nth_error ["chase"; "flee"] i))
  else
    modify (set_current_task (Some choice)).

(** [qpos[:2] = v] for a scalar [v]. *)
Definition assign_first_two (v : R) (qpos : list R) : list R :=
  match qpos with
  | _ :: _ :: t => v :: v :: t
  | [_] => [v]
  | [] => []
  end.

Definition _randomize_position_orientation (qpos qvel : list R)
  : M Env (list R * list R) :=
  v <- draw_np_global (rng_uniform (-6) 6) ;;
  ret (assign_first_two v qpos, qvel).

(** [qpos[2] = height] *)
Definition assign_third (height : R) (qpos : list R) : list R :=
  match qpos with
  | a :: b :: _ :: t => a :: b :: height :: t
  | _ => qpos
  end.

Fixpoint add_arrays (a b : list R) : list R :=
  match a, b with
  | x :: a', y :: b' => (x + y) :: add_arrays a' b'
  | _, _ => []
  end.

(** [rot_state = qpos[3:7]] is a view of [qpos], so it already holds the
    perturbed entries when it is written back and [qpos[3:7] = rot_state]
    changes nothing; [height = qpos[2]] is a scalar copy. *)
Definition _get_randomized_initial_state : M Env (list R * list R) :=
  u <- draw_np_random (rng_uniform 0 1) ;;
  kq <- gets key_qpos ;;
  kv <- gets key_qvel ;;
  ' (qpos, qvel) <-
    (if Rlt_dec u 0.5 then
       q <- getrow kq 2 ;; v <- getrow kv 2 ;; ret (q, v)
     else
       q <- getrow kq 3 ;; v <- getrow kv 3 ;; ret (q, v)) ;;
  height <- getitem qpos 2 ;;
  noise <- draw_np_random (rng_normal_size 0 0.02 (List.length qpos)) ;;
  let qpos := add_arrays qpos noise in
  let qpos := assign_third height qpos in
  ret (qpos, qvel).

Definition _get_reset_state : M Env (list R * list R) :=
  rt <- gets reset_type ;;
  kq <- gets key_qpos ;;
  kv <- gets key_qvel ;;
  if (rt =? "random")%string then
    ' (qpos, qvel) <- _get_randomized_initial_state ;;
    _randomize_position_orientation qpos qvel
  else if (rt =? "init")%string then
    q <- getrow kq 2 ;; v <- getrow kv 2 ;; ret (q, v)
  else
    q <- getrow kq 0 ;; v <- getrow kv 0 ;; ret (q, v).

Definition _lose_condition (e : Env) : Z :=
  let '(px, py, pz) := pelvis_xpos (sim (opponent e)) in
  if Rlt_dec pz 0.5 then 1%Z
  else if Rle_dec maxTime (obs_time (obs_dict e)) then 1%Z
  else if Rlt_dec 6.5 (Rabs px) then 1%Z
  else if Rlt_dec 6.5 (Rabs py) then 1%Z
  else 0%Z.

Definition _win_condition (e : Env) : Z :=
  let '(px, py, _) := pelvis_xpos (sim (opponent e)) in
  let '(ox, oy, _) := obs_opponent_pose (obs_dict e) in
  if Rle_dec (norm2 (px - ox) (py - oy)) (win_distance e) then
    if startFlag e then 1%Z else 0%Z
  else 0%Z.

Definition _get_done (e : Env) : Z :=
  if (_lose_condition e =? 0)%Z then
    if (_win_condition e =? 0)%Z then 0%Z else 1%Z
  else 1%Z.

Definition _get_score (time : R) : R :=
  let time := np_round2 time in
  1 - time / maxTime.

Definition get_reward_dict (e : Env) (obs : ObsDict) : RewardDict :=
  let win_cdt := _win_condition e in
  let lose_cdt := _lose_condition e in
  let score := if (win_cdt =? 0)%Z then 0 else _get_score (obs_time (obs_dict e)) in
  let '(mx, my) := obs_model_root_pos obs in
  let '(ox, oy, _) := obs_opponent_pose obs in
  let distance := norm2 (mx - ox) (my - oy) in
  {| rwd_lose := lose_cdt;
     rwd_distance := distance;
     rwd_sparse := score;
     rwd_solved := win_cdt;
     rwd_done := _get_done e |}.

End Env.

(** ** A replayable generator

    A generator that replays a given stream of variates of the unit interval;
    it is the instance at which the statements below are exercised. *)

Definition Tape : Type := nat -> nat * nat.

(** The variate [p / (p + q + 1)] encoded by a pair; it lies in [[0, 1)]. *)
Definition variate (pq : nat * nat) : R :=
  INR (fst pq) / INR (fst pq + snd pq + 1).

Definition tape_drop (k : nat) (t : Tape) : Tape := fun n => t (k + n)%nat.

Definition tape_const (pq : nat * nat) : Tape := fun _ => pq.

Definition tape_cons (pq : nat * nat) (t : Tape) : Tape :=
  fun n => match n with O => pq | S k => t k end.

Definition scale_unit (lo hi u : R) : R := lo + (hi - lo) * u.

#[export] Instance Tape_random : NumpyRandom Tape := {
  rng_uniform lo hi t := (scale_unit lo hi (variate (t 0%nat)), tape_drop 1 t);
  rng_uniform_size lo hi n t :=
    (map (fun i => scale_unit lo hi (variate (t i))) (seq 0 n), tape_drop n t);
  rng_normal_size loc scale n t :=
    (map (fun i => loc + scale * (variate (t i) - 1 / 2)) (seq 0 n), tape_drop n t);
  rng_choice n t := (Z.to_nat (Zfloor (INR n * variate (t 0%nat))), tape_drop 1 t);
}.

(** A noise process that turns two variates into one command of scale 10. *)
#[export] Instance Tape_noise : ColoredNoise Tape unit := {
  pink_new t := (tt, t);
  pink_sample _ t :=
    ([10 * (variate (t 0%nat) - 1 / 2); 10 * (variate (t 1%nat) - 1 / 2)],
     (tt, tape_drop 2 t));
}.

(** A stand-in for the quaternion conversions that keeps the three Euler
    angles in the first three components. *)
Definition Euler_store : QuatMath := {|
  quat2euler := fun '(a, b, c, _) => (a, b, c);
  euler2quat := fun '(a, b, c) => (a, b, c, 0);
|}.

(** A simulation with the opponent at the origin and the agent at [(3, 0)]. *)
Definition sim0 : Sim := {|
  mocap_pos := (0, 0, 0);
  mocap_quat := (0, 0, 0, 0);
  root_xpos := (3, 0, 1);
  pelvis_xpos := (3, 0, 1);
  time := 0;
|}.

(** An opponent with the default configuration of the environment. *)
Definition opp0 (policy : option string) (t : Tape) : ChallengeOpponent Tape unit := {|
  sim := sim0;
  rng := Some t;
  noise_process := Some tt;
  opponent_policy := policy;
  opponent_vel := [0; 0];
  opponent_probabilities := [0.1; 0.45; 0.45];
  min_spawn_distance := 2;
|}.

(** The draws used below: 1/2 throughout, and 9/10 followed by 1/2. *)
Definition tape_half : Tape := tape_const (1, 0)%nat.
Definition tape_high : Tape := tape_cons (9, 0)%nat tape_half.

(** A draw of 1/2 followed by draws of 9/10: the noise command [(0, 4)]. *)
Definition tape_turn : Tape := tape_cons (1, 0)%nat (tape_const (9, 0)%nat).

(** A height field of the given patch side on a tape. *)
Definition hf0 (ps : nat) (t : Tape) : HeightField Tape :=
  {| hf_rng := t; patch_size := ps |}.

(** An opponent whose three probabilities sum to 0.6. *)
Definition opp_dead_zone (policy : option string) (t : Tape)
  : ChallengeOpponent Tape unit := {|
  sim := sim0;
  rng := Some t;
  noise_process := Some tt;
  opponent_policy := policy;
  opponent_vel := [0; 0];
  opponent_probabilities := [0.1; 0.2; 0.3];
  min_spawn_distance := 2;
|}.

(** An opponent that is always static, with a given [min_spawn_distance]. *)
Definition opp_static (msd : R) (t : Tape) : ChallengeOpponent Tape unit := {|
  sim := sim0;
  rng := Some t;
  noise_process := Some tt;
  opponent_policy := None;
  opponent_vel := [0; 0];
  opponent_probabilities := [1; 0; 0];
  min_spawn_distance := msd;
|}.

(** A draw of 0 throughout. *)
Definition tape_low : Tape := tape_const (0, 0)%nat.

(** An environment that randomises task and reset state; [np_global] is the
    only field that depends on the argument. *)
Definition env0 (global : Tape) : ChaseTagEnvV0 Tape unit := {|
  opponent := opp0 None tape_half;
  np_random := tape_half;
  np_global := global;
  obs_dict := {| obs_time := 0; obs_opponent_pose := (0, 0, 0);
                 obs_model_root_pos := (3, 0) |};
  startFlag := true;
  win_distance := 0.5;
  reset_type := "random";
  task_choice := "random";
  current_task := None;
  key_qpos := repeat [0; 0; 1; 1; 0; 0; 0] 4;
  key_qvel := repeat [0; 0; 0; 0; 0; 0] 4;
|}.

(** The win scenario of the specification: the opponent 0.2 away from the
    pelvis of [sim0], observed at the given time. *)
Definition env_win (t : R) (flag : bool) : ChaseTagEnvV0 Tape unit := {|
  opponent := opp0 None tape_half;
  np_random := tape_half;
  np_global := tape_half;
  obs_dict := {| obs_time := t; obs_opponent_pose := (3.2, 0, 0);
                 obs_model_root_pos := (3, 0) |};
  startFlag := flag;
  win_distance := 0.5;
  reset_type := "none";
  task_choice := "chase";
  current_task := Some "chase";
  key_qpos := repeat [0; 0; 1; 1; 0; 0; 0] 4;
  key_qvel := repeat [0; 0; 0; 0; 0; 0] 4;
|}.

(** ** Specification predicates *)

Section Predicates.

Context {G NP : Type}.

(** The opponent's planar position lies in the square [[-5.5, 5.5]^2]. *)
Definition in_arena (o : ChallengeOpponent G NP) : Prop :=
  let '(x, y, _) := mocap_pos (sim o) in
  -5.5 <= x <= 5.5 /\ -5.5 <= y <= 5.5.

Context `{NumpyRandom G} `{QuatMath} `{ColoredNoise G NP}.

(** What the integrator does to the state on a two-component command. *)
Definition moved (v0 v1 : R) (o : ChallengeOpponent G NP) : ChallengeOpponent G NP :=
  let '(x, y, _) := mocap_pos (sim o) in
  let '(_, _, angle) := quat2euler (mocap_quat (sim o)) in
  let c0 := np_clip (-1) 1 (Rabs v0) in
  let c1 := np_clip (-1) 1 v1 in
  set_sim
    (write_pose (np_clip (-5.5) 5.5 (x - dt * (c0 * cos (angle + 0.5 * PI))),
                 np_clip (-5.5) 5.5 (y - dt * (c0 * sin (angle + 0.5 * PI))),
                 angle + dt * c1) (sim o))
    (set_opponent_vel [Rabs v0; v1] o).

(** The forward vector of a heading. *)
Definition forward (angle : R) : R * R :=
  (cos (angle + 0.5 * PI), sin (angle + 0.5 * PI)).

(** The integration step in the words of the specification: the heading
    grows by [0.01 * angular] and the position, before the clamp, moves by
    [- 0.01 * linear] times the forward vector of the current heading. *)
Definition integrates_command (linear angular : R)
    (o o' : ChallengeOpponent G NP) : Prop :=
  let '(x, y, z) := mocap_pos (sim o) in
  let '(_, _, angle) := quat2euler (mocap_quat (sim o)) in
  let '(fx, fy) := forward angle in
  mocap_quat (sim o') = euler2quat (0, 0, angle + 0.01 * angular) /\
  mocap_pos (sim o') =
    (np_clip (-5.5) 5.5 (x - 0.01 * linear * fx),
     np_clip (-5.5) 5.5 (y - 0.01 * linear * fy), z).

(** The statements of [reset_opponent] that precede the sampling loop. *)
Definition reset_prologue (rng_arg : option G) : M (ChallengeOpponent G NP) unit :=
  match rng_arg with
  | Some g => modify (set_rng (Some g)) ;; reset_noise_process
  | None => ret tt
  end ;;
  modify (set_opponent_vel [0; 0]) ;;
  sample_opponent_policy.

(** The statements of [reset_opponent] that follow the sampling loop. *)
Definition reset_epilogue (pose : option Pose) : M (ChallengeOpponent G NP) unit :=
  policy <- getattr opponent_policy "opponent_policy" ;;
  pose <- (if (policy =? "static_stationary")%string then
             read_local pose ;; ret (0, -5, 0)
           else read_local pose) ;;
  set_opponent_pose pose ;;
  modify (set_opponent_vel [0; 0]).

(** One candidate pose of the sampling loop, and the candidate drawn after
    [k] earlier ones. *)
Definition draw_pose : M (ChallengeOpponent G NP) Pose :=
  x <- uniform (-5) 5 ;;
  y <- uniform (-5) 5 ;;
  angle <- uniform (- 2 * PI) (2 * PI) ;;
  ret (x, y, angle).

Fixpoint nth_candidate (k : nat) : M (ChallengeOpponent G NP) Pose :=
  match k with
  | O => draw_pose
  | S k' => draw_pose ;; nth_candidate k'
  end.

(** Planar distance between a pose and the root body of the agent. *)
Definition spawn_distance (pose : Pose) (o : ChallengeOpponent G NP) : R :=
  let '(x, y, _) := pose in
  let '(rx, ry, _) := root_xpos (sim o) in
  norm2 (x - rx) (y - ry).

(** The pose the simulation holds for the opponent equals [pose]. *)
Definition placed_at (pose : Pose) (o : ChallengeOpponent G NP) : Prop :=
  let '(x, y, angle) := pose in
  let '(mx, my, _) := mocap_pos (sim o) in
  mx = x /\ my = y /\ mocap_quat (sim o) = euler2quat (0, 0, angle).

(** The fields a reset leaves alone before it places the opponent. *)
Definition same_world (o o' : ChallengeOpponent G NP) : Prop :=
  sim o' = sim o /\
  opponent_probabilities o' = opponent_probabilities o /\
  min_spawn_distance o' = min_spawn_distance o.

(** The policy attribute holds one of the three policy names. *)
Definition valid_policy (policy : option string) : Prop :=
  policy = Some "static_stationary" \/ policy = Some "stationary" \/
  policy = Some "random".

(** The box [[-5, 5) x [-5, 5) x [-2 pi, 2 pi)] the candidates are drawn from. *)
Definition in_spawn_box (pose : Pose) : Prop :=
  let '(x, y, angle) := pose in
  (-5 <= x < 5) /\ (-5 <= y < 5) /\ (- 2 * PI <= angle < 2 * PI).

(** What the loop knows about its two variables. *)
Definition loop_inv (o : ChallengeOpponent G NP) (dist : R) (pose : option Pose) : Prop :=
  match pose with
  | None => dist = 0
  | Some p => dist = spawn_distance p o
  end.

(** The fields of the opponent that a draw from the generator leaves alone. *)
Definition same_config (o o' : ChallengeOpponent G NP) : Prop :=
  sim o' = sim o /\
  opponent_policy o' = opponent_policy o /\
  opponent_vel o' = opponent_vel o /\
  opponent_probabilities o' = opponent_probabilities o /\
  min_spawn_distance o' = min_spawn_distance o.

(** [n] consecutive calls of the per-tick update. *)
Fixpoint run_ticks (n : nat) : M (ChallengeOpponent G NP) unit :=
  match n with
  | O => ret tt
  | S k => update_opponent_state ;; run_ticks k
  end.

(** Consecutive calls of the integrator, one per velocity command. *)
Fixpoint run_moves (vels : list (list R)) : M (ChallengeOpponent G NP) unit :=
  match vels with
  | [] => ret tt
  | vel :: rest => move_opponent vel ;; run_moves rest
  end.

End Predicates.

(** Decides the comparisons of concrete draws with concrete thresholds. *)
Ltac decide_Rlt :=
  repeat match goal with
         | |- context [Rlt_dec ?a ?b] =>
             let L := fresh "L" in
             destruct (Rlt_dec a b) as [L | L];
             [ try (exfalso; unfold scale_unit in L; lra)
             | try (exfalso; unfold scale_unit in L; lra) ]
         end.


(** ** Further specification predicates *)

Section MorePredicates.

Context {G NP : Type}.

(** Everything of the scene that belongs to the agent or to the
    configuration rather than to the opponent's planar pose. *)
Definition same_scene (o o' : ChallengeOpponent G NP) : Prop :=
  root_xpos (sim o') = root_xpos (sim o) /\
  pelvis_xpos (sim o') = pelvis_xpos (sim o) /\
  time (sim o') = time (sim o) /\
  snd (mocap_pos (sim o')) = snd (mocap_pos (sim o)) /\
  opponent_probabilities o' = opponent_probabilities o /\
  min_spawn_distance o' = min_spawn_distance o.

(** Planar distance between the opponent's positions in two states. *)
Definition step_length (o o' : ChallengeOpponent G NP) : R :=
  let '(x, y, _) := mocap_pos (sim o) in
  let '(x', y', _) := mocap_pos (sim o') in
  norm2 (x' - x) (y' - y).

Context `{NumpyRandom G} `{QuatMath} `{ColoredNoise G NP}.

(** One episode of the opponent: a reset followed by [n] ticks. *)
Definition episode (fuel : nat) (rng_arg : option G) (n : nat)
  : M (ChallengeOpponent G NP) unit :=
  reset_opponent fuel rng_arg ;; run_ticks n.

End MorePredicates.

(** ** HeightField: the height map and the window around the agent *)

(** A [float64] that may be non-finite.  The quotients of [cart2map] divide
    by [nrow], [ncol] and [real_length], any of which may be zero; NumPy
    then stores an infinity or a [nan] (the sign of an infinity is of no
    consequence below, so it is not kept). *)
Inductive float64 : Type :=
| Finite (x : R)
| Infinite
| NotANumber.

(** [a / b] for a finite [a]. *)
Definition np_true_divide (a : R) (b : float64) : float64 :=
  match b with
  | Finite y =>
      if Req_dec_T y 0 then (if Req_dec_T a 0 then NotANumber else Infinite)
      else Finite (a / y)
  | Infinite => Finite 0
  | NotANumber => NotANumber
  end.

(** [a + b] for a finite [b]. *)
Definition float_add (a : float64) (b : R) : float64 :=
  match a with
  | Finite x => Finite (x + b)
  | Infinite => Infinite
  | NotANumber => NotANumber
  end.

(** The exceptions of the height map: those of [exn] and [OverflowError]. *)
Inductive py_exn : Type :=
| Builtin (e : exn)
| OverflowError.

(** [int(x)] truncates toward zero; it raises on a non-finite float. *)
Definition py_trunc (x : R) : Z :=
  if Rlt_dec x 0 then (- Zfloor (- x))%Z else Zfloor x.

Definition py_int (a : float64) : py_exn + Z :=
  match a with
  | Finite x => inr (py_trunc x)
  | Infinite => inl OverflowError
  | NotANumber => inl (Builtin ValueError)
  end.

(** A two-dimensional array: its shape and its entries, row by row.  An
    entry is [None] when it is not a finite number. *)
Record ndarray : Type := {
  shape0 : nat;
  shape1 : nat;
  entries : list (list (option R));
}.

(** [np.zeros((n, m))] *)
Definition np_zeros (n m : nat) : ndarray :=
  {| shape0 := n; shape1 := m; entries := repeat (repeat (Some 0) m) n |}.

(** [a.flatten()] *)
Definition flatten (a : ndarray) : list (option R) := List.concat (entries a).

(** [a[i, j]], for indices inside the array. *)
Definition cell (a : ndarray) (i j : nat) : option R :=
  nth j (nth i (entries a) []) None.

(** A bound [i] of a slice of an axis of length [n]: a negative bound counts
    from the end, and every bound is clipped to the axis. *)
Definition slice_index (n : nat) (i : Z) : nat :=
  Z.to_nat (if (i <? 0)%Z then Z.max (i + Z.of_nat n) 0 else Z.min i (Z.of_nat n)).

(** The number of entries of the slice [a:b]. *)
Definition slice_length (n : nat) (a b : Z) : nat :=
  (slice_index n b - slice_index n a)%nat.

(** [l[a:b]] for an axis of length [n]. *)
Definition py_slice {A} (n : nat) (a b : Z) (l : list A) : list A :=
  firstn (slice_length n a b) (skipn (slice_index n a) l).

(** [m[r0:r1, c0:c1]] *)
Definition getslice2 (m : ndarray) (r0 r1 c0 c1 : Z) : ndarray :=
  {| shape0 := slice_length (shape0 m) r0 r1;
     shape1 := slice_length (shape1 m) c0 c1;
     entries := map (py_slice (shape1 m) c0 c1) (py_slice (shape0 m) r0 r1 (entries m)) |}.

(** An axis of length [src] can be broadcast to the length [dst]. *)
Definition broadcastable (src dst : nat) : bool :=
  ((src =? dst) || (src =? 1))%nat.

(** An axis of length 1 is repeated, any other axis is taken as it is. *)
Definition stretch {A} (src dst : nat) (d : A) (l : list A) : list A :=
  if (src =? dst)%nat then l else repeat (hd d l) dst.

(** [np.broadcast_to(src, (n, m))]; [None] when the shapes do not fit. *)
Definition broadcast_to (n m : nat) (src : ndarray) : option ndarray :=
  if broadcastable (shape0 src) n && broadcastable (shape1 src) m then
    Some {| shape0 := n; shape1 := m;
            entries := map (stretch (shape1 src) m None)
                      (stretch (shape0 src) n [] (entries src)) |}
  else None.

(** [l[start : start + len(vals)] = vals] *)
Definition splice {A} (start : nat) (vals l : list A) : list A :=
  (firstn start l ++ vals ++ skipn (start + List.length vals) l)%list.

(** [dst[r0:r1, c0:c1] = src]; [None] when [src] cannot be broadcast to the
    shape of the slice (NumPy raises [ValueError]). *)
Definition setslice2 (dst : ndarray) (r0 r1 c0 c1 : Z) (src : ndarray)
  : option ndarray :=
  let rs := slice_index (shape0 dst) r0 in
  let cs := slice_index (shape1 dst) c0 in
  match broadcast_to (slice_length (shape0 dst) r0 r1)
                     (slice_length (shape1 dst) c0 c1) src with
  | None => None
  | Some b =>
      Some {| shape0 := shape0 dst; shape1 := shape1 dst;
              entries := splice rs
                        (map (fun rv => splice cs (snd rv) (fst rv))
                           (combine (py_slice (shape0 dst) r0 r1 (entries dst)) (entries b)))
                        (entries dst) |}
  end.

(** The height field object.  [patch_gen] holds [self.rng] and
    [self.patch_size]; [patches_per_side] is taken non-negative;
    [nrow] and [ncol] are the single entries of [self.hfield.nrow] and
    [self.hfield.ncol]; of the simulation only what the class reads or
    writes is kept: the position of the agent, three attributes of the
    terrain geom, and the number of height field uploads to the window of
    the renderer ([None] when there is no such window). *)
Record HeightMap {G : Type} : Type := {
  patch_gen : HeightField G;
  patches_per_side : nat;
  real_length : R;
  view_distance : Z;
  nrow : nat;
  ncol : nat;
  hfield_data : ndarray;               (* self.hfield.data *)
  padded_map : ndarray;
  heightmap_window : option ndarray;
  length_ : option nat;                (* self.length, absent at first *)
  qpos : list R;                       (* sim.data.qpos *)
  terrain_alpha : R;                   (* sim.model.geom_rgba[terrain][-1] *)
  terrain_pos : R * R * R;             (* sim.model.geom_pos[terrain] *)
  terrain_contype : Z;                 (* sim.model.geom_contype[terrain] *)
  hfield_uploads : option nat;         (* sim.renderer._window.update_hfield *)
}.
Arguments HeightMap : clear implicits.

Definition available_terrain_types : list string := ["flat"; "rough"; "hilly"].

(** [for i in l: body(i)] *)
Fixpoint for_each {S} (l : list nat) (body : nat -> M S unit) : M S unit :=
  match l with
  | [] => ret tt
  | i :: t => body i ;; for_each t body
  end.

Section Map.

Context {G : Type} `{NumpyRandom G}.

Local Abbreviation HMap := (HeightMap G).

Definition set_field (f : HeightField G) (s : HMap) : HMap :=
  {| patch_gen := f; patches_per_side := patches_per_side s;
     real_length := real_length s; view_distance := view_distance s;
     nrow := nrow s; ncol := ncol s; hfield_data := hfield_data s;
     padded_map := padded_map s; heightmap_window := heightmap_window s;
     length_ := length_ s; qpos := qpos s; terrain_alpha := terrain_alpha s;
     terrain_pos := terrain_pos s; terrain_contype := terrain_contype s;
     hfield_uploads := hfield_uploads s |}.

Definition set_hfield_data (d : ndarray) (s : HMap) : HMap :=
  {| patch_gen := patch_gen s; patches_per_side := patches_per_side s;
     real_length := real_length s; view_distance := view_distance s;
     nrow := nrow s; ncol := ncol s; hfield_data := d;
     padded_map := padded_map s; heightmap_window := heightmap_window s;
     length_ := length_ s; qpos := qpos s; terrain_alpha := terrain_alpha s;
     terrain_pos := terrain_pos s; terrain_contype := terrain_contype s;
     hfield_uploads := hfield_uploads s |}.

Definition set_padded_map (p : ndarray) (s : HMap) : HMap :=
  {| patch_gen := patch_gen s; patches_per_side := patches_per_side s;
     real_length := real_length s; view_distance := view_distance s;
     nrow := nrow s; ncol := ncol s; hfield_data := hfield_data s;
     padded_map := p; heightmap_window := heightmap_window s;
     length_ := length_ s; qpos := qpos s; terrain_alpha := terrain_alpha s;
     terrain_pos := terrain_pos s; terrain_contype := terrain_contype s;
     hfield_uploads := hfield_uploads s |}.

Definition set_heightmap_window (w : ndarray) (s : HMap) : HMap :=
  {| patch_gen := patch_gen s; patches_per_side := patches_per_side s;
     real_length := real_length s; view_distance := view_distance s;
     nrow := nrow s; ncol := ncol s; hfield_data := hfield_data s;
     padded_map := padded_map s; heightmap_window := Some w;
     length_ := length_ s; qpos := qpos s; terrain_alpha := terrain_alpha s;
     terrain_pos := terrain_pos s; terrain_contype := terrain_contype s;
     hfield_uploads := hfield_uploads s |}.

Definition set_length (n : nat) (s : HMap) : HMap :=
  {| patch_gen := patch_gen s; patches_per_side := patches_per_side s;
     real_length := real_length s; view_distance := view_distance s;
     nrow := nrow s; ncol := ncol s; hfield_data := hfield_data s;
     padded_map := padded_map s; heightmap_window := heightmap_window s;
     length_ := Some n; qpos := qpos s; terrain_alpha := terrain_alpha s;
     terrain_pos := terrain_pos s; terrain_contype := terrain_contype s;
     hfield_uploads := hfield_uploads s |}.

(** The three writes of [sample] to the terrain geom. *)
Definition show_terrain (s : HMap) : HMap :=
  {| patch_gen := patch_gen s; patches_per_side := patches_per_side s;
     real_length := real_length s; view_distance := view_distance s;
     nrow := nrow s; ncol := ncol s; hfield_data := hfield_data s;
     padded_map := padded_map s; heightmap_window := heightmap_window s;
     length_ := length_ s; qpos := qpos s; terrain_alpha := 1;
     terrain_pos := (0, 0, 0); terrain_contype := 1%Z;
     hfield_uploads := hfield_uploads s |}.

(** [self.sim.renderer._window.update_hfield(0)], when there is a window. *)
Definition update_hfield (s : HMap) : HMap :=
  {| patch_gen := patch_gen s; patches_per_side := patches_per_side s;
     real_length := real_length s; view_distance := view_distance s;
     nrow := nrow s; ncol := ncol s; hfield_data := hfield_data s;
     padded_map := padded_map s; heightmap_window := heightmap_window s;
     length_ := length_ s; qpos := qpos s; terrain_alpha := terrain_alpha s;
     terrain_pos := terrain_pos s; terrain_contype := terrain_contype s;
     hfield_uploads := option_map S (hfield_uploads s) |}.

(** A method of the patch generator run on the height field object. *)
Definition on_field {A} (m : M (HeightField G) A) : M HMap A :=
  fun s => let (o, f') := m (patch_gen s) in (o, set_field f' s).

Definition _fill_patch (i j : nat) (terrain_type : string) : M HMap unit :=
  patch <- on_field (_compute_patch_data terrain_type) ;;
  ps <- gets (fun s => patch_size (patch_gen s)) ;;
  data <- gets hfield_data ;;
  match setslice2 data (Z.of_nat (i * ps)) (Z.of_nat (i * ps + ps))
          (Z.of_nat (j * ps)) (Z.of_nat (j * ps + ps))
          {| shape0 := ps; shape1 := ps; entries := patch |} with
  | Some data' => modify (set_hfield_data data')
  | None => raise ValueError
  end.

Definition _populate_patches : M HMap unit :=
  pps <- gets patches_per_side ;;
  for_each (seq 0 pps) (fun i =>
    pps <- gets patches_per_side ;;
    for_each (seq 0 pps) (fun j =>
      k <- on_field (hf_draw (rng_choice (List.length available_terrain_types))) ;;
      match nth_error available_terrain_types k with
      | Some terrain_type => _fill_patch i j terrain_type
      | None => raise IndexError
      end)).

(** The object after [if not rng is None: self.rng = rng]. *)
Definition with_rng (rng : option G) (s : HMap) : HMap :=
  match rng with
  | Some g => set_field {| hf_rng := g; patch_size := patch_size (patch_gen s) |} s
  | None => s
  end.

(** The body of the inner loop of [_populate_patches], for the statements
    about its turns. *)
Definition populate_turn (i j : nat) : M HMap unit :=
  k <- on_field (hf_draw (rng_choice (List.length available_terrain_types))) ;;
  match nth_error available_terrain_types k with
  | Some terrain_type => _fill_patch i j terrain_type
  | None => raise IndexError
  end.

Definition sample (rng : option G) : M HMap unit :=
  match rng with
  | Some g =>
      modify (fun s => set_field {| hf_rng := g; patch_size := patch_size (patch_gen s) |} s)
  | None => ret tt
  end ;;
  _populate_patches ;;
  modify show_terrain ;;
  s <- gets (fun s => s) ;;
  match setslice2 (padded_map s)
          (Z.of_nat (nrow s / 2))
          (Z.of_nat ((nrow s + shape0 (padded_map s)) / 2))
          (Z.of_nat (nrow s / 2))
          (Z.of_nat ((ncol s + shape1 (padded_map s)) / 2))
          (hfield_data s) with
  | Some p => modify (set_padded_map p)
  | None => raise ValueError
  end ;;
  modify update_hfield.

(** [cart2map]: the cell of the padded map under a cartesian position. *)
Definition cart2map (s : HMap) (pos : list R) : py_exn + Z * Z :=
  let delta_map_x := np_true_divide (real_length s) (Finite (INR (nrow s))) in
  let delta_map_y := np_true_divide (real_length s) (Finite (INR (ncol s))) in
  let offset_x := INR (shape0 (padded_map s)) / 2 in
  let offset_y := INR (shape1 (padded_map s)) / 2 in
  match nth_error pos 0 with
  | None => inl (Builtin IndexError)
  | Some x =>
      match py_int (float_add (np_true_divide x delta_map_x) offset_x) with
      | inl e => inl e
      | inr mx =>
          match nth_error pos 1 with
          | None => inl (Builtin IndexError)
          | Some y =>
              match py_int (float_add (np_true_divide y delta_map_y) offset_y) with
              | inl e => inl e
              | inr my => inr (mx, my)
              end
          end
      end
  end.

(** [get_heightmap_obs]: the window of the padded map around the agent,
    flattened.  The result is an observation or an exception, together with
    the object as the call leaves it. *)
Definition get_heightmap_obs (s : HMap) : (py_exn + list (option R)) * HMap :=
  let alloc :=
    match heightmap_window s with
    | Some w => inr (w, s)
    | None =>
        if (view_distance s <? 0)%Z then inl (Builtin ValueError)
        else
          let w := np_zeros (Z.to_nat (view_distance s)) (Z.to_nat (view_distance s)) in
          inr (w, set_heightmap_window w s)
    end in
  match alloc with
  | inl e => (inl e, s)
  | inr (w, s1) =>
      match cart2map s1 (firstn 2 (qpos s1)) with
      | inl e => (inl e, s1)
      | inr (mx, my) =>
          let spacing := Z.quot (view_distance s1) 2 in
          match broadcast_to (shape0 w) (shape1 w)
                  (getslice2 (padded_map s1) (mx - spacing) (mx + spacing)
                     (my - spacing) (my + spacing)) with
          | None => (inl (Builtin ValueError), s1)
          | Some w' =>
              let s2 := set_heightmap_window w' s1 in
              let n := match length_ s2 with Some n => n | None => 0%nat end in
              (inr (flatten w'), set_length (S n) s2)
          end
      end
  end.

End Map.

(** The rows of an array are as many and as long as its shape says. *)
Definition well_shaped (a : ndarray) : Prop :=
  List.length (entries a) = shape0 a /\
  Forall (fun row => List.length row = shape1 a) (entries a).

(** A height field of [n] by [n] cells with zero elevation, [pps] patches per
    side, the default side length of 12 m and the agent at [(x, y)]; nothing
    has been observed yet and there is no renderer window. *)
Definition hmap0 (n pps : nat) (vd : Z) (x y : R) (t : Tape) : HeightMap Tape := {|
  patch_gen := hf0 (n / pps) t;
  patches_per_side := pps;
  real_length := 12;
  view_distance := vd;
  nrow := n;
  ncol := n;
  hfield_data := np_zeros n n;
  padded_map := np_zeros (2 * n) (2 * n);
  heightmap_window := None;
  length_ := None;
  qpos := [x; y; 1];
  terrain_alpha := 0;
  terrain_pos := (0, 0, -1);
  terrain_contype := 0%Z;
  hfield_uploads := None;
|}.

(** An entry that a terrain patch may hold: an elevation in [[-0.02, 0.23)]
    or the non-finite result of a degenerate normalisation. *)
Definition terrain_elevation (v : option R) : Prop :=
  match v with
  | Some x => -0.02 <= x < 0.23
  | None => True
  end.

(** Everything of the height field object apart from the state of its
    generator and the height field data. *)
Definition terrain_frame {G} (s s' : HeightMap G) : Prop :=
  patch_size (patch_gen s') = patch_size (patch_gen s) /\
  patches_per_side s' = patches_per_side s /\
  real_length s' = real_length s /\
  view_distance s' = view_distance s /\
  nrow s' = nrow s /\ ncol s' = ncol s /\
  padded_map s' = padded_map s /\
  heightmap_window s' = heightmap_window s /\
  length_ s' = length_ s /\
  qpos s' = qpos s /\
  terrain_alpha s' = terrain_alpha s /\
  terrain_pos s' = terrain_pos s /\
  terrain_contype s' = terrain_contype s /\
  hfield_uploads s' = hfield_uploads s.

(** A height field of [n] rows and [m] columns, otherwise as [hmap0] with
    patches of side 2. *)
Definition hmap_rect (n m pps : nat) (t : Tape) : HeightMap Tape := {|
  patch_gen := hf0 2 t;
  patches_per_side := pps;
  real_length := 12;
  view_distance := 2;
  nrow := n;
  ncol := m;
  hfield_data := np_zeros n m;
  padded_map := np_zeros (2 * n) (2 * m);
  heightmap_window := None;
  length_ := None;
  qpos := [0; 0; 1];
  terrain_alpha := 0;
  terrain_pos := (0, 0, -1);
  terrain_contype := 0%Z;
  hfield_uploads := None;
|}.

Section Constructor.

Context {G : Type} `{NumpyRandom G}.

(** [HeightField.__init__(sim, rng, patches_per_side, real_length,
    view_distance)], run on the object [s] of which it reads the fields of
    the simulation only.  The two assertions on the types of its arguments
    hold by typing.  The result is the exception of the conversion
    [int(self.nrow / patches_per_side)], or else the outcome of the last
    statement, [self._populate_patches()], with the object as that leaves
    it; the object has no attribute [length] yet. *)
Definition HeightField_init (rng : G) (pps : nat) (length : R) (distance : Z)
    (s : HeightMap G) : py_exn + outcome unit * HeightMap G :=
  match py_int (np_true_divide (INR (nrow s)) (Finite (INR pps))) with
  | inl e => inl e
  | inr ps =>
      inr (_populate_patches
             {| patch_gen := {| hf_rng := rng; patch_size := Z.to_nat ps |};
                patches_per_side := pps;
                real_length := length;
                view_distance := distance;
                nrow := nrow s;
                ncol := ncol s;
                hfield_data := hfield_data s;
                padded_map := np_zeros (nrow s * 2) (ncol s * 2);
                heightmap_window := None;
                length_ := None;
                qpos := qpos s;
                terrain_alpha := terrain_alpha s;
                terrain_pos := terrain_pos s;
                terrain_contype := terrain_contype s;
                hfield_uploads := hfield_uploads s |})
  end.

End Constructor.
(** * Properties *)

Lemma np_clip_range (lo hi x : R) : lo <= hi -> lo <= np_clip lo hi x <= hi.
Proof.
  intros Hle. unfold np_clip, Rmin, Rmax.
  destruct (Rle_dec x lo); destruct (Rle_dec _ hi); lra.
Qed.

Lemma np_clip_id (lo hi x : R) : lo <= x <= hi -> np_clip lo hi x = x.
Proof.
  intros Hx. unfold np_clip, Rmin, Rmax.
  destruct (Rle_dec x lo); destruct (Rle_dec _ hi); lra.
Qed.

Lemma bind_Return {S A B} (m : M S A) (k : A -> M S B) s a s' :
  m s = (Return a, s') -> bind m k s = k a s'.
Proof. intros E. unfold bind. now rewrite E. Qed.

Lemma bind_inv {S A B} (m : M S A) (k : A -> M S B) s b s2 :
  bind m k s = (Return b, s2) ->
  exists a s1, m s = (Return a, s1) /\ k a s1 = (Return b, s2).
Proof.
  unfold bind. destruct (m s) as [[a | e | ] s1]; intros E; try discriminate.
  now exists a, s1.
Qed.

Lemma bind_assoc {S A B C} (m : M S A) (f : A -> M S B) (g : B -> M S C) s :
  bind (bind m f) g s = bind m (fun a => bind (f a) g) s.
Proof. unfold bind. destruct (m s) as [[a | e | ] s1]; reflexivity. Qed.

Lemma bind_ext {S A B} (m : M S A) (f f' : A -> M S B) s :
  (forall a s', f a s' = f' a s') -> bind m f s = bind m f' s.
Proof. intros E. unfold bind. destruct (m s) as [[a | e | ] s1]; auto. Qed.

Section OpponentProperties.

Context {G NP : Type} `{NumpyRandom G} `{QuatMath} `{ColoredNoise G NP}.

Local Abbreviation Opp := (ChallengeOpponent G NP).

Lemma move_opponent_two (v0 v1 : R) (o : Opp) :
  move_opponent [v0; v1] o = (Return tt, moved v0 v1 o).
Proof.
  unfold move_opponent, moved, bind, modify, get_opponent_pose, gets,
    set_opponent_pose, write_pose, ret; cbn.
  destruct (mocap_pos (sim o)) as [[x y] z] eqn:Hpos.
  destruct (quat2euler (mocap_quat (sim o))) as [[a b] angle]; cbn.
  unfold modify; cbn. rewrite Hpos. reflexivity.
Qed.

Lemma move_opponent_arity (vel : list R) (o : Opp) :
  List.length vel <> 2%nat ->
  move_opponent vel o = (Raise AssertionError, set_opponent_vel vel o).
Proof.
  intros Hlen. destruct vel as [ | a [ | b [ | c t]]]; cbn in Hlen; try lia;
    reflexivity.
Qed.

Lemma moved_in_arena (v0 v1 : R) (o : Opp) : in_arena (moved v0 v1 o).
Proof.
  unfold in_arena, moved, write_pose.
  destruct (mocap_pos (sim o)) as [[x y] z].
  destruct (quat2euler (mocap_quat (sim o))) as [[a b] angle]; cbn.
  split; apply np_clip_range; lra.
Qed.

Lemma move_opponent_in_arena (vel : list R) (o o' : Opp) :
  move_opponent vel o = (Return tt, o') -> in_arena o'.
Proof.
  destruct (Nat.eq_dec (List.length vel) 2) as [Hlen | Hlen].
  - destruct vel as [ | v0 [ | v1 [ | c t]]]; try discriminate Hlen.
    rewrite move_opponent_two. intros E; inversion E. apply moved_in_arena.
  - rewrite (move_opponent_arity _ _ Hlen). discriminate.
Qed.

(** A call of the integrator that raises leaves the position as it was. *)
Lemma move_opponent_keeps_arena (vel : list R) (o o' : Opp) r :
  in_arena o -> move_opponent vel o = (r, o') -> in_arena o'.
Proof.
  intros Ho.
  destruct (Nat.eq_dec (List.length vel) 2) as [Hlen | Hlen].
  - destruct vel as [ | v0 [ | v1 [ | c t]]]; try discriminate Hlen.
    rewrite move_opponent_two. intros E; inversion E. apply moved_in_arena.
  - rewrite (move_opponent_arity _ _ Hlen). intros E; inversion E. exact Ho.
Qed.

Lemma random_movement_sim (o o' : Opp) r :
  random_movement o = (r, o') -> sim o' = sim o.
Proof.
  unfold random_movement, bind, getattr, modify, ret.
  destruct (noise_process o) as [np | ]; [ | intros E; now inversion E].
  destruct (rng o) as [g | ]; [ | intros E; now inversion E].
  destruct (pink_sample np g) as [v [np' g']]; cbn.
  intros E; now inversion E.
Qed.

Lemma update_opponent_state_keeps_arena (o o' : Opp) r :
  in_arena o -> update_opponent_state o = (r, o') -> in_arena o'.
Proof.
  intros Ho. unfold update_opponent_state, bind, getattr.
  destruct (opponent_policy o) as [p | ]; [ | intros E; inversion E; subst; exact Ho].
  destruct ((p =? "stationary")%string || (p =? "static_stationary")%string).
  - unfold ret; cbv beta iota. apply move_opponent_keeps_arena; exact Ho.
  - destruct (p =? "random")%string.
    + destruct (random_movement o) as [[v | e | ] o1] eqn:Hrm;
        pose proof (random_movement_sim _ _ _ Hrm) as Hs.
      * apply move_opponent_keeps_arena. unfold in_arena in *. now rewrite Hs.
      * intros E; inversion E; subst. unfold in_arena in *. now rewrite Hs.
      * intros E; inversion E; subst. unfold in_arena in *. now rewrite Hs.
    + unfold raise; cbv beta iota. intros E; inversion E; subst; exact Ho.
Qed.

Lemma update_opponent_state_in_arena (o o' : Opp) :
  update_opponent_state o = (Return tt, o') -> in_arena o'.
Proof.
  unfold update_opponent_state. intros E.
  apply bind_inv in E as (p & o1 & _ & E).
  apply bind_inv in E as (v & o2 & _ & E).
  now apply move_opponent_in_arena in E.
Qed.

Lemma run_ticks_keeps_arena (n : nat) : forall (o o' : Opp) r,
  in_arena o -> run_ticks n o = (r, o') -> in_arena o'.
Proof.
  induction n as [ | n IH]; intros o o' r Ho; cbn.
  - intros E; inversion E; subst; exact Ho.
  - unfold bind.
    destruct (update_opponent_state o) as [[[] | e | ] o1] eqn:Hu;
      pose proof (update_opponent_state_keeps_arena _ _ _ Ho Hu) as Ho1.
    + apply IH; exact Ho1.
    + intros E; inversion E; subst; exact Ho1.
    + intros E; inversion E; subst; exact Ho1.
Qed.

Lemma run_moves_keeps_arena (vels : list (list R)) : forall (o o' : Opp) r,
  in_arena o -> run_moves vels o = (r, o') -> in_arena o'.
Proof.
  induction vels as [ | vel vels IH]; intros o o' r Ho; cbn.
  - intros E; inversion E; subst; exact Ho.
  - unfold bind.
    destruct (move_opponent vel o) as [[[] | e | ] o1] eqn:Hu;
      pose proof (move_opponent_keeps_arena _ _ _ _ Ho Hu) as Ho1.
    + apply IH; exact Ho1.
    + intros E; inversion E; subst; exact Ho1.
    + intros E; inversion E; subst; exact Ho1.
Qed.

(** C1.  Every call of the integrator [move_opponent] that returns leaves
    the opponent's planar position in [[-5.5, 5.5]^2], and a call with a
    two-component command does return; hence the position is in the square
    after every non-empty sequence of velocity commands and after every
    non-empty sequence of ticks, and a tick that raises does not move the
    opponent out of it. *)
Theorem move_opponent_clamp_invariant :
  (forall (vel : list R) (o o' : Opp),
      move_opponent vel o = (Return tt, o') -> in_arena o') /\
  (forall (v0 v1 : R) (o : Opp),
      exists o', move_opponent [v0; v1] o = (Return tt, o') /\ in_arena o') /\
  (forall (vels : list (list R)) (o o' : Opp),
      vels <> [] -> run_moves vels o = (Return tt, o') -> in_arena o') /\
  (forall (n : nat) (o o' : Opp),
      run_ticks (S n) o = (Return tt, o') -> in_arena o') /\
  (forall (n : nat) (o o' : Opp) (r : outcome unit),
      in_arena o -> run_ticks n o = (r, o') -> in_arena o').
Proof.
  split; [ | split; [ | split; [ | split]]].
  - exact move_opponent_in_arena.
  - intros v0 v1 o. exists (moved v0 v1 o). split.
    + apply move_opponent_two.
    + apply moved_in_arena.
  - intros [ | vel vels] o o' Hne E; [congruence | ]. cbn in E.
    apply bind_inv in E as ([] & o1 & Hm & E).
    apply move_opponent_in_arena in Hm.
    exact (run_moves_keeps_arena _ _ _ _ Hm E).
  - intros n o o' E. cbn in E.
    apply bind_inv in E as ([] & o1 & Hu & E).
    apply update_opponent_state_in_arena in Hu.
    exact (run_ticks_keeps_arena _ _ _ _ Hu E).
  - intros n o o' r. apply run_ticks_keeps_arena.
Qed.

Lemma forward_unit (angle : R) :
  let '(fx, fy) := forward angle in fx * fx + fy * fy = 1.
Proof.
  unfold forward. pose proof (sin2_cos2 (angle + 0.5 * PI)) as E.
  unfold Rsqr in E. lra.
Qed.

Lemma moved_integrates (v0 v1 : R) (o : Opp) :
  integrates_command (np_clip (-1) 1 (Rabs v0)) (np_clip (-1) 1 v1) o (moved v0 v1 o).
Proof.
  unfold integrates_command, moved, write_pose, forward, dt.
  destruct (mocap_pos (sim o)) as [[x y] z].
  destruct (quat2euler (mocap_quat (sim o))) as [[a b] angle]; cbn.
  split; [reflexivity | ].
  apply f_equal2; [ | reflexivity].
  apply f_equal2; apply f_equal; lra.
Qed.

Lemma integrates_command_sim (l a : R) (o1 o2 o' : Opp) :
  sim o1 = sim o2 -> integrates_command l a o1 o' -> integrates_command l a o2 o'.
Proof. unfold integrates_command. now intros ->. Qed.

Lemma update_opponent_state_stationary (p : string) (o : Opp) :
  opponent_policy o = Some p ->
  p = "stationary" \/ p = "static_stationary" ->
  update_opponent_state o = (Return tt, moved 0 0 o).
Proof.
  intros Hp Hs. unfold update_opponent_state, bind, getattr. rewrite Hp.
  assert (((p =? "stationary")%string || (p =? "static_stationary")%string) = true)
    as -> by (destruct Hs; subst; reflexivity).
  unfold ret; cbv beta iota. apply move_opponent_two.
Qed.

Lemma update_opponent_state_random (o : Opp) (np np' : NP) (g g' : G) (vel : list R) :
  opponent_policy o = Some "random" ->
  noise_process o = Some np -> rng o = Some g ->
  pink_sample np g = (vel, (np', g')) ->
  update_opponent_state o =
    move_opponent vel (set_noise_process (Some np') (set_rng (Some g') o)).
Proof.
  intros Hp Hn Hg Hs. unfold update_opponent_state, bind, getattr. rewrite Hp.
  cbn [String.eqb Ascii.eqb Bool.eqb orb].
  unfold random_movement, bind, getattr. rewrite Hn, Hg, Hs.
  reflexivity.
Qed.

(** C3, as the code has it.  The integrator first takes the absolute value
    of the linear command and clips both components to [[-1, 1]]; with the
    command so normalised the heading grows by [0.01 * angular] and the
    position, before the clamp, moves by [- 0.01 * linear] times the unit
    forward vector of the current heading.  For a command that is already
    in [[0, 1] x [-1, 1]], as the two stationary policies produce it, this
    is the update of the command itself. *)
Theorem move_opponent_integrates_normalised_command :
  (forall (linear angular : R) (o o' : Opp),
      move_opponent [linear; angular] o = (Return tt, o') ->
      integrates_command (np_clip (-1) 1 (Rabs linear)) (np_clip (-1) 1 angular) o o') /\
  (forall (linear angular : R) (o o' : Opp),
      0 <= linear <= 1 -> -1 <= angular <= 1 ->
      move_opponent [linear; angular] o = (Return tt, o') ->
      integrates_command linear angular o o') /\
  (forall (p : string) (o o' : Opp),
      opponent_policy o = Some p ->
      p = "stationary" \/ p = "static_stationary" ->
      update_opponent_state o = (Return tt, o') ->
      integrates_command 0 0 o o') /\
  (forall (o o' : Opp) (np np' : NP) (g g' : G) (linear angular : R),
      opponent_policy o = Some "random" ->
      noise_process o = Some np -> rng o = Some g ->
      pink_sample np g = ([linear; angular], (np', g')) ->
      update_opponent_state o = (Return tt, o') ->
      integrates_command (np_clip (-1) 1 (Rabs linear)) (np_clip (-1) 1 angular) o o') /\
  (forall angle : R, let '(fx, fy) := forward angle in fx * fx + fy * fy = 1).
Proof.
  assert (Hmove : forall (linear angular : R) (o o' : Opp),
      move_opponent [linear; angular] o = (Return tt, o') ->
      integrates_command (np_clip (-1) 1 (Rabs linear)) (np_clip (-1) 1 angular) o o').
  { intros l a o o'. rewrite move_opponent_two. intros E; inversion E.
    apply moved_integrates. }
  split; [exact Hmove | split; [ | split; [ | split]]].
  - intros l a o o' Hl Ha E. apply Hmove in E.
    rewrite (Rabs_pos_eq l) in E by lra.
    rewrite !np_clip_id in E by lra. exact E.
  - intros p o o' Hp Hs. rewrite (update_opponent_state_stationary p o Hp Hs).
    intros E; inversion E.
    pose proof (moved_integrates 0 0 o) as Hi.
    rewrite Rabs_R0 in Hi. rewrite !np_clip_id in Hi by lra. exact Hi.
  - intros o o' np np' g g' l a Hp Hn Hg Hs.
    rewrite (update_opponent_state_random o np np' g g' _ Hp Hn Hg Hs).
    intros E. apply Hmove in E.
    revert E. apply integrates_command_sim. reflexivity.
  - exact forward_unit.
Qed.

(** C7.  The per-tick update raises, without touching the state, when the
    policy attribute is unset ([AttributeError]) or holds anything but one
    of the three policy names ([NotImplementedError]); the integrator
    raises [AssertionError] on a command that does not have exactly two
    components, before the pose is read or written; a tick under one of
    the two stationary policies, and a tick under the random policy whose
    noise sample has two components, returns normally. *)
Theorem tick_raises_on_misconfiguration_only :
  (forall o : Opp,
      opponent_policy o = None ->
      update_opponent_state o = (Raise (AttributeError "opponent_policy"), o)) /\
  (forall (o : Opp) (p : string),
      opponent_policy o = Some p ->
      p <> "static_stationary" -> p <> "stationary" -> p <> "random" ->
      update_opponent_state o = (Raise (NotImplementedError p), o)) /\
  (forall (vel : list R) (o : Opp),
      List.length vel <> 2%nat ->
      exists o', move_opponent vel o = (Raise AssertionError, o') /\ sim o' = sim o) /\
  (forall (v0 v1 : R) (o : Opp),
      exists o', move_opponent [v0; v1] o = (Return tt, o')) /\
  (forall (o : Opp) (p : string),
      opponent_policy o = Some p ->
      p = "stationary" \/ p = "static_stationary" ->
      exists o', update_opponent_state o = (Return tt, o')) /\
  (forall (o : Opp) (np np' : NP) (g g' : G) (vel : list R),
      opponent_policy o = Some "random" ->
      noise_process o = Some np -> rng o = Some g ->
      pink_sample np g = (vel, (np', g')) ->
      List.length vel = 2%nat ->
      exists o', update_opponent_state o = (Return tt, o')).
Proof.
  split; [ | split; [ | split; [ | split; [ | split]]]].
  - intros o Hp. unfold update_opponent_state, bind, getattr. now rewrite Hp.
  - intros o p Hp N1 N2 N3. unfold update_opponent_state, bind, getattr. rewrite Hp.
    apply String.eqb_neq in N1, N2, N3. rewrite N1, N2, N3. reflexivity.
  - intros vel o Hlen. exists (set_opponent_vel vel o). split.
    + now apply move_opponent_arity.
    + reflexivity.
  - intros v0 v1 o. exists (moved v0 v1 o). apply move_opponent_two.
  - intros o p Hp Hs. exists (moved 0 0 o).
    now apply update_opponent_state_stationary with (p := p).
  - intros o np np' g g' vel Hp Hn Hg Hs Hlen.
    rewrite (update_opponent_state_random o np np' g g' _ Hp Hn Hg Hs).
    destruct vel as [ | v0 [ | v1 [ | c t]]]; try discriminate Hlen.
    eexists. apply move_opponent_two.
Qed.

(** *** Resetting the opponent *)

Lemma reset_opponent_split (fuel : nat) (rng_arg : option G) (o : Opp) :
  reset_opponent fuel rng_arg o =
  (reset_prologue rng_arg ;; pose <- spawn_loop fuel 0 None ;; reset_epilogue pose) o.
Proof.
  unfold reset_opponent, reset_prologue.
  rewrite bind_assoc. apply bind_ext; intros _ o1.
  rewrite bind_assoc. apply bind_ext; intros _ o2.
  reflexivity.
Qed.

Lemma same_config_refl (o : Opp) : same_config o o.
Proof. unfold same_config; tauto. Qed.

Lemma same_config_trans (o1 o2 o3 : Opp) :
  same_config o1 o2 -> same_config o2 o3 -> same_config o1 o3.
Proof.
  unfold same_config. intros (A1 & A2 & A3 & A4 & A5) (B1 & B2 & B3 & B4 & B5).
  repeat split; congruence.
Qed.

Lemma uniform_cases (lo hi : R) (o : Opp) :
  (rng o = None /\ uniform lo hi o = (Raise (AttributeError "rng"), o)) \/
  (exists g, rng o = Some g /\
             uniform lo hi o = (Return (fst (rng_uniform lo hi g)),
                                set_rng (Some (snd (rng_uniform lo hi g))) o)).
Proof.
  unfold uniform, bind, getattr.
  destruct (rng o) as [g | ]; [right | left; split; reflexivity].
  exists g. split; [reflexivity | ].
  destruct (rng_uniform lo hi g) as [u g']. reflexivity.
Qed.

Lemma uniform_inv (lo hi : R) (o o' : Opp) r :
  uniform lo hi o = (r, o') ->
  same_config o o' /\ r <> OutOfFuel /\
  (forall e, r = Raise e -> e = AttributeError "rng") /\
  (forall u, r = Return u ->
     exists g, rng o = Some g /\ u = fst (rng_uniform lo hi g) /\
               rng o' = Some (snd (rng_uniform lo hi g))).
Proof.
  destruct (uniform_cases lo hi o) as [[Hg ->] | (g & Hg & ->)];
    intros E; inversion E; subst; clear E.
  - repeat split; try apply same_config_refl; try discriminate.
    intros e He; now inversion He.
  - repeat split; try discriminate.
    intros u Hu; inversion Hu; subst. exists g. now repeat split.
Qed.

Lemma draw_pose_inv (o o' : Opp) r :
  draw_pose o = (r, o') ->
  same_config o o' /\ r <> OutOfFuel /\
  (forall e, r = Raise e -> e = AttributeError "rng") /\
  (forall p, r = Return p -> rng o <> None /\ rng o' <> None).
Proof.
  unfold draw_pose. unfold bind at 1.
  destruct (uniform (-5) 5 o) as [[x | e | ] o1] eqn:E1;
    apply uniform_inv in E1 as (C1 & T1 & R1 & U1);
    [ | intros E; inversion E; subst; repeat split; try apply C1; try discriminate;
        intros e' He'; inversion He'; subst; now apply R1
      | congruence ].
  unfold bind at 1.
  destruct (uniform (-5) 5 o1) as [[y | e | ] o2] eqn:E2;
    apply uniform_inv in E2 as (C2 & T2 & R2 & U2);
    pose proof (same_config_trans _ _ _ C1 C2) as C12;
    [ | intros E; inversion E; subst; repeat split; try apply C12; try discriminate;
        intros e' He'; inversion He'; subst; now apply R2
      | congruence ].
  unfold bind at 1.
  destruct (uniform (- 2 * PI) (2 * PI) o2) as [[a | e | ] o3] eqn:E3;
    apply uniform_inv in E3 as (C3 & T3 & R3 & U3);
    pose proof (same_config_trans _ _ _ C12 C3) as C123;
    [ | intros E; inversion E; subst; repeat split; try apply C123; try discriminate;
        intros e' He'; inversion He'; subst; now apply R3
      | congruence ].
  unfold ret. intros E; inversion E; subst.
  repeat split; try apply C123; try discriminate.
  - destruct (U1 x eq_refl) as (g & Hg & _). congruence.
  - destruct (U3 a eq_refl) as (g & _ & _ & Hg). congruence.
Qed.

Lemma draw_pose_box `{!NumpyRandomSpec G} (o o' : Opp) (p : Pose) :
  draw_pose o = (Return p, o') -> in_spawn_box p.
Proof.
  unfold draw_pose. intros E.
  apply bind_inv in E as (x & o1 & E1 & E).
  apply bind_inv in E as (y & o2 & E2 & E).
  apply bind_inv in E as (a & o3 & E3 & E).
  unfold ret in E; inversion E; subst.
  apply uniform_inv in E1 as (_ & _ & _ & U1).
  apply uniform_inv in E2 as (_ & _ & _ & U2).
  apply uniform_inv in E3 as (_ & _ & _ & U3).
  destruct (U1 x eq_refl) as (g1 & _ & -> & _).
  destruct (U2 y eq_refl) as (g2 & _ & -> & _).
  destruct (U3 a eq_refl) as (g3 & _ & -> & _).
  unfold in_spawn_box. repeat split; try (apply rng_uniform_range; lra);
    apply rng_uniform_range; pose proof PI_RGT_0; lra.
Qed.

(** One turn of the loop. *)
Lemma spawn_loop_done (fuel : nat) (d : R) (p : option Pose) (o : Opp) :
  ~ d < min_spawn_distance o -> spawn_loop fuel d p o = (Return p, o).
Proof.
  intros Hd. destruct fuel; cbn; unfold bind, gets;
    destruct (Rlt_dec d (min_spawn_distance o)); try contradiction; reflexivity.
Qed.

Lemma spawn_loop_timeout (d : R) (p : option Pose) (o : Opp) :
  d < min_spawn_distance o -> spawn_loop 0 d p o = (OutOfFuel, o).
Proof.
  intros Hd. cbn; unfold bind, gets.
  destruct (Rlt_dec d (min_spawn_distance o)); try contradiction; reflexivity.
Qed.

Lemma spawn_loop_step (fuel : nat) (d : R) (p : option Pose) (o : Opp) :
  d < min_spawn_distance o ->
  spawn_loop (S fuel) d p o =
  (pose <- draw_pose ;;
   fun s => spawn_loop fuel (spawn_distance pose s) (Some pose) s) o.
Proof.
  intros Hd. cbn [spawn_loop]. unfold bind at 1. unfold gets at 1.
  destruct (Rlt_dec d (min_spawn_distance o)); try contradiction.
  unfold draw_pose.
  rewrite bind_assoc. apply bind_ext; intros x o1.
  rewrite bind_assoc. apply bind_ext; intros y o2.
  rewrite bind_assoc. apply bind_ext; intros a o3.
  unfold bind, gets, ret, spawn_distance.
  destruct (root_xpos (sim o3)) as [[rx ry] rz]. reflexivity.
Qed.

Lemma loop_inv_same_config (o o' : Opp) (d : R) (p : option Pose) :
  same_config o o' -> loop_inv o d p -> loop_inv o' d p.
Proof.
  intros (Hs & _). unfold loop_inv, spawn_distance. now rewrite Hs.
Qed.

Lemma spawn_loop_inv (fuel : nat) : forall (d : R) (p : option Pose) (o o' : Opp) r,
  loop_inv o d p ->
  spawn_loop fuel d p o = (r, o') ->
  same_config o o' /\
  (forall e, r = Raise e -> e = AttributeError "rng") /\
  (forall p', r = Return p' ->
     exists d', loop_inv o' d' p' /\ ~ d' < min_spawn_distance o').
Proof.
  induction fuel as [ | fuel IH]; intros d p o o' r Hinv;
    destruct (Rlt_dec d (min_spawn_distance o)) as [Hd | Hd].
  - rewrite (spawn_loop_timeout _ _ _ Hd). intros E; inversion E; subst.
    repeat split; try apply same_config_refl; discriminate.
  - rewrite (spawn_loop_done _ _ _ _ Hd). intros E; inversion E; subst.
    repeat split; try apply same_config_refl; try discriminate.
    intros p' Hp'; inversion Hp'; subst. now exists d.
  - rewrite (spawn_loop_step _ _ _ _ Hd). unfold bind.
    destruct (draw_pose o) as [[q | e | ] o1] eqn:Hq;
      apply draw_pose_inv in Hq as (C1 & T1 & R1 & _).
    + intros E. apply IH in E as (C2 & R2 & P2); [ | reflexivity].
      split; [exact (same_config_trans _ _ _ C1 C2) | split; assumption].
    + intros E; inversion E; subst. repeat split; try apply C1; try discriminate.
      intros e' He'; inversion He'; subst; now apply R1.
    + congruence.
  - rewrite (spawn_loop_done _ _ _ _ Hd). intros E; inversion E; subst.
    repeat split; try apply same_config_refl; try discriminate.
    intros p' Hp'; inversion Hp'; subst. now exists d.
Qed.

Lemma spawn_loop_box `{!NumpyRandomSpec G} (fuel : nat) :
  forall (d : R) (p p' : option Pose) (o o' : Opp),
  (forall q, p = Some q -> in_spawn_box q) ->
  spawn_loop fuel d p o = (Return p', o') ->
  forall q, p' = Some q -> in_spawn_box q.
Proof.
  induction fuel as [ | fuel IH]; intros d p p' o o' Hbox;
    destruct (Rlt_dec d (min_spawn_distance o)) as [Hd | Hd].
  - rewrite (spawn_loop_timeout _ _ _ Hd). discriminate.
  - rewrite (spawn_loop_done _ _ _ _ Hd). intros E; inversion E; subst. exact Hbox.
  - rewrite (spawn_loop_step _ _ _ _ Hd). intros E.
    apply bind_inv in E as (c & o1 & Hc & E).
    apply draw_pose_box in Hc.
    revert E. apply IH. intros q Hq; inversion Hq; subst; exact Hc.
  - rewrite (spawn_loop_done _ _ _ _ Hd). intros E; inversion E; subst. exact Hbox.
Qed.

Lemma spawn_loop_terminates (k : nat) :
  forall (d : R) (p : option Pose) (o o2 : Opp) (pose : Pose),
  nth_candidate k o = (Return pose, o2) ->
  ~ spawn_distance pose o2 < min_spawn_distance o2 ->
  exists fuel p' o', spawn_loop fuel d p o = (Return p', o').
Proof.
  induction k as [ | k IH]; intros d p o o2 pose Hc Hfar;
    destruct (Rlt_dec d (min_spawn_distance o)) as [Hd | Hd];
    try (exists 0%nat, p, o; now apply spawn_loop_done).
  - cbn in Hc. exists 1%nat, (Some pose), o2.
    rewrite (spawn_loop_step _ _ _ _ Hd).
    rewrite (bind_Return _ _ _ _ _ Hc). now apply spawn_loop_done.
  - cbn in Hc. apply bind_inv in Hc as (q & o1 & Hq & Hc).
    destruct (IH (spawn_distance q o1) (Some q) _ _ _ Hc Hfar) as (fuel & p' & o' & E).
    exists (S fuel), p', o'.
    rewrite (spawn_loop_step _ _ _ _ Hd).
    now rewrite (bind_Return _ _ _ _ _ Hq).
Qed.

Lemma reset_epilogue_unbound (o : Opp) (p : string) :
  opponent_policy o = Some p ->
  reset_epilogue None o = (Raise (UnboundLocalError "pose"), o).
Proof.
  intros Hp. unfold reset_epilogue, bind, getattr. rewrite Hp.
  destruct (p =? "static_stationary")%string; reflexivity.
Qed.

Lemma reset_epilogue_no_policy (pose : option Pose) (o : Opp) :
  opponent_policy o = None ->
  reset_epilogue pose o = (Raise (AttributeError "opponent_policy"), o).
Proof.
  intros Hp. unfold reset_epilogue, bind, getattr. now rewrite Hp.
Qed.

Lemma reset_epilogue_places (q : Pose) (o : Opp) (p : string) :
  opponent_policy o = Some p ->
  reset_epilogue (Some q) o =
    (Return tt,
     set_opponent_vel [0; 0]
       (set_sim (write_pose (if (p =? "static_stationary")%string
                             then (0, -5, 0) else q) (sim o)) o)).
Proof.
  intros Hp. unfold reset_epilogue, bind, getattr. rewrite Hp.
  destruct (p =? "static_stationary")%string; reflexivity.
Qed.

Lemma write_pose_placed (q : Pose) (o : Opp) :
  placed_at q (set_opponent_vel [0; 0] (set_sim (write_pose q (sim o)) o)).
Proof.
  unfold placed_at, write_pose. destruct q as [[x y] a].
  destruct (mocap_pos (sim o)) as [[mx my] mz]. cbn. auto.
Qed.

Lemma sample_opponent_policy_cases (o : Opp) (g : G) (p0 p1 p2 : R) (rest : list R) :
  rng o = Some g ->
  opponent_probabilities o = p0 :: p1 :: p2 :: rest ->
  let u := fst (rng_uniform 0 1 g) in
  let o1 := set_rng (Some (snd (rng_uniform 0 1 g))) o in
  sample_opponent_policy o =
    (Return tt,
     if Rlt_dec u p0 then set_opponent_policy (Some "static_stationary") o1
     else if Rlt_dec u (p0 + p1) then set_opponent_policy (Some "stationary") o1
     else if Rlt_dec u (p0 + p1 + p2) then set_opponent_policy (Some "random") o1
     else o1).
Proof.
  intros Hg Hp. cbv zeta. unfold sample_opponent_policy.
  destruct (uniform_cases 0 1 o) as [[Hn _] | (g' & Hg' & E)]; [congruence | ].
  assert (g' = g) by congruence; subst g'.
  rewrite (bind_Return _ _ _ _ _ E).
  unfold bind at 1, gets at 1. cbn [opponent_probabilities set_rng].
  rewrite Hp. unfold getitem; cbn [nth_error]. unfold bind at 1, ret at 1.
  destruct (Rlt_dec _ p0); [reflexivity | ].
  unfold bind at 1, ret at 1.
  destruct (Rlt_dec _ (p0 + p1)); [reflexivity | ].
  unfold bind at 1, ret at 1.
  destruct (Rlt_dec _ (p0 + p1 + p2)); reflexivity.
Qed.

Lemma sample_opponent_policy_inv (o o' : Opp) r :
  sample_opponent_policy o = (r, o') ->
  same_world o o' /\ r <> OutOfFuel /\
  (forall v, r <> Raise (UnboundLocalError v)) /\
  (r = Return tt ->
   opponent_policy o' = opponent_policy o \/ valid_policy (opponent_policy o')).
Proof.
  unfold sample_opponent_policy, valid_policy.
  destruct (uniform_cases 0 1 o) as [[Hn E] | (g & Hg & E)].
  - unfold bind. rewrite E. intros E'; inversion E'; subst.
    repeat split; try discriminate.
  - rewrite (bind_Return _ _ _ _ _ E).
    unfold bind, gets, getitem, modify, ret, raise, same_world.
    cbn [opponent_probabilities set_rng].
    destruct (opponent_probabilities o) as [ | p0 [ | p1 [ | p2 rest]]] eqn:Hp;
      cbn [nth_error];
      repeat match goal with
             | |- context [Rlt_dec ?a ?b] => destruct (Rlt_dec a b)
             end;
      intros E'; inversion E'; subst; cbn;
      repeat split; try discriminate; auto.
Qed.

Lemma reset_noise_process_inv (o o' : Opp) r :
  reset_noise_process o = (r, o') ->
  same_config o o' /\ r <> OutOfFuel /\ (forall v, r <> Raise (UnboundLocalError v)).
Proof.
  unfold reset_noise_process, bind, getattr, modify, same_config.
  destruct (rng o) as [g | ].
  - destruct (pink_new g) as [np g']. intros E; inversion E; subst; cbn.
    repeat split; discriminate.
  - intros E; inversion E; subst. repeat split; discriminate.
Qed.

Lemma reset_prologue_inv (rng_arg : option G) (o o1 : Opp) r :
  reset_prologue rng_arg o = (r, o1) ->
  same_world o o1 /\ r <> OutOfFuel /\ (forall v, r <> Raise (UnboundLocalError v)).
Proof.
  unfold reset_prologue. unfold bind at 1.
  destruct (match rng_arg with
            | Some g => _
            | None => ret tt
            end o) as [[[] | e | ] oa] eqn:Ea.
  - assert (Hw : same_world o oa).
    { destruct rng_arg as [g | ].
      - unfold bind at 1, modify at 1 in Ea.
        apply reset_noise_process_inv in Ea as ((A & _ & _ & B & C) & _).
        unfold same_world. cbn in A, B, C. auto.
      - inversion Ea; subst. unfold same_world; auto. }
    unfold bind at 1, modify at 1. intros E.
    apply sample_opponent_policy_inv in E as ((A & B & C) & T & U & _).
    destruct Hw as (A' & B' & C'). cbn in A, B, C.
    unfold same_world. repeat split; try congruence; auto.
  - destruct rng_arg as [g | ]; [ | discriminate Ea].
    unfold bind at 1, modify at 1 in Ea.
    apply reset_noise_process_inv in Ea as ((A & _ & _ & B & C) & T & U).
    intros E; inversion E; subst. cbn in A, B, C.
    unfold same_world. repeat split; auto.
  - destruct rng_arg as [g | ]; [ | discriminate Ea].
    unfold bind at 1, modify at 1 in Ea.
    apply reset_noise_process_inv in Ea as (_ & T & _). congruence.
Qed.

(** A reset that returns went through the loop and placed a pose. *)
Lemma reset_opponent_returns (fuel : nat) (rng_arg : option G) (o o' : Opp) :
  reset_opponent fuel rng_arg o = (Return tt, o') ->
  exists (o1 o2 : Opp) (pose : option Pose),
    reset_prologue rng_arg o = (Return tt, o1) /\
    spawn_loop fuel 0 None o1 = (Return pose, o2) /\
    reset_epilogue pose o2 = (Return tt, o').
Proof.
  rewrite reset_opponent_split. intros E.
  apply bind_inv in E as ([] & o1 & E1 & E).
  apply bind_inv in E as (pose & o2 & E2 & E).
  now exists o1, o2, pose.
Qed.

Lemma reset_epilogue_returns (pose : option Pose) (o o' : Opp) :
  reset_epilogue pose o = (Return tt, o') ->
  exists (q : Pose) (p : string),
    pose = Some q /\ opponent_policy o = Some p /\ opponent_policy o' = Some p /\
    sim o' = write_pose (if (p =? "static_stationary")%string
                         then (0, -5, 0) else q) (sim o) /\
    placed_at (if (p =? "static_stationary")%string then (0, -5, 0) else q) o'.
Proof.
  destruct (opponent_policy o) as [p | ] eqn:Hp.
  - destruct pose as [q | ].
    + rewrite (reset_epilogue_places q o p Hp). intros E; inversion E; subst.
      exists q, p. repeat split; auto. apply write_pose_placed.
    + rewrite (reset_epilogue_unbound o p Hp). discriminate.
  - rewrite (reset_epilogue_no_policy pose o Hp). discriminate.
Qed.

Lemma write_pose_root (q : Pose) (s : Sim) : root_xpos (write_pose q s) = root_xpos s.
Proof.
  unfold write_pose. destruct q as [[x y] a]. now destruct (mocap_pos s) as [[mx my] mz].
Qed.

(** The pose a returning reset places under the static policy. *)
Lemma reset_opponent_static_pose (fuel : nat) (rng_arg : option G) (o o' : Opp) :
  reset_opponent fuel rng_arg o = (Return tt, o') ->
  opponent_policy o' = Some "static_stationary" ->
  placed_at (0, -5, 0) o'.
Proof.
  intros E Hp.
  apply reset_opponent_returns in E as (o1 & o2 & pose & _ & _ & E).
  apply reset_epilogue_returns in E as (q & p & _ & _ & Hp' & _ & Hpl).
  rewrite Hp in Hp'. inversion Hp'; subst p. exact Hpl.
Qed.

(** C4.  A reset with a positive [min_spawn_distance] that returns with a
    policy other than [static_stationary] has placed the opponent at a pose
    of the box [[-5, 5) x [-5, 5) x [-2 pi, 2 pi)] whose planar distance to
    the root of the agent is at least [min_spawn_distance]; and it does
    return, given enough turns of the loop, as soon as one of the candidate
    poses drawn after the policy is that far away. *)
Theorem reset_opponent_spawn_distance `{!NumpyRandomSpec G} :
  (forall (fuel : nat) (rng_arg : option G) (o o' : Opp),
      0 < min_spawn_distance o ->
      reset_opponent fuel rng_arg o = (Return tt, o') ->
      opponent_policy o' <> Some "static_stationary" ->
      exists pose : Pose,
        placed_at pose o' /\ in_spawn_box pose /\
        min_spawn_distance o <= spawn_distance pose o') /\
  (forall (rng_arg : option G) (o o1 o2 : Opp) (k : nat) (pose : Pose) (p : string),
      0 < min_spawn_distance o ->
      reset_prologue rng_arg o = (Return tt, o1) ->
      opponent_policy o1 = Some p ->
      nth_candidate k o1 = (Return pose, o2) ->
      min_spawn_distance o <= spawn_distance pose o2 ->
      exists (fuel : nat) (o' : Opp),
        reset_opponent fuel rng_arg o = (Return tt, o')).
Proof.
  split.
  - intros fuel rng_arg o o' Hmsd E Hpol.
    apply reset_opponent_returns in E as (o1 & o2 & pose & E1 & E2 & E3).
    apply reset_prologue_inv in E1 as ((S1 & _ & M1) & _).
    assert (Hnone : forall q, @None Pose = Some q -> in_spawn_box q)
      by (intros q Hq; discriminate Hq).
    pose proof (spawn_loop_box fuel _ _ _ _ _ Hnone E2) as Hbox.
    apply spawn_loop_inv in E2 as ((S2 & _ & _ & _ & M2) & _ & P2); [ | reflexivity].
    apply reset_epilogue_returns in E3 as (q & p & -> & _ & Hp' & Hs & Hpl).
    destruct (P2 _ eq_refl) as (d' & Hinv & Hfar). cbn in Hinv; subst d'.
    assert ((p =? "static_stationary")%string = false) as Hne.
    { apply String.eqb_neq. congruence. }
    rewrite Hne in Hs, Hpl.
    exists q. split; [exact Hpl | split; [now apply Hbox | ]].
    unfold spawn_distance in *. rewrite Hs, write_pose_root.
    rewrite M2, M1 in Hfar. destruct q as [[x y] a].
    destruct (root_xpos (sim o2)) as [[rx ry] rz]. lra.
  - intros rng_arg o o1 o2 k pose p Hmsd E1 Hp Hc Hfar.
    pose proof (reset_prologue_inv _ _ _ _ E1) as ((_ & _ & M1) & _).
    assert (Hfar' : ~ spawn_distance pose o2 < min_spawn_distance o2).
    { assert (same_config o1 o2) as (_ & _ & _ & _ & M2).
      { clear - Hc. revert o1 Hc. induction k as [ | k IH]; intros o1 Hc; cbn in Hc.
        - now apply draw_pose_inv in Hc.
        - apply bind_inv in Hc as (q & oa & Hq & Hc).
          apply draw_pose_inv in Hq as (C & _).
          exact (same_config_trans _ _ _ C (IH _ Hc)). }
      rewrite M2, M1. lra. }
    destruct (spawn_loop_terminates k 0 None _ _ _ Hc Hfar') as (fuel & p' & o3 & E2).
    pose proof (spawn_loop_inv _ _ _ _ _ _ (eq_refl : loop_inv o1 0 None) E2)
      as ((_ & Hp3 & _) & _ & P3).
    destruct (P3 _ eq_refl) as (d' & Hinv & Hd').
    destruct p' as [q | ].
    + exists fuel. eexists.
      rewrite reset_opponent_split.
      rewrite (bind_Return _ _ _ _ _ E1), (bind_Return _ _ _ _ _ E2).
      apply reset_epilogue_places with (p := p). congruence.
    + exfalso. cbn in Hinv; subst d'.
      apply spawn_loop_inv in E2 as ((_ & _ & _ & _ & M3) & _); [ | reflexivity].
      rewrite M3, M1 in Hd'. contradiction.
Qed.

Lemma reset_prologue_None (o : Opp) :
  reset_prologue None o = sample_opponent_policy (set_opponent_vel [0; 0] o).
Proof. reflexivity. Qed.

Lemma reset_prologue_Some (g g' : G) (np : NP) (o : Opp) :
  pink_new g = (np, g') ->
  reset_prologue (Some g) o =
  sample_opponent_policy
    (set_opponent_vel [0; 0]
       (set_noise_process (Some np) (set_rng (Some g') (set_rng (Some g) o)))).
Proof.
  intros E. unfold reset_prologue, reset_noise_process, bind, modify, getattr.
  cbn [rng set_rng]. rewrite E. reflexivity.
Qed.

(** A reset whose loop is skipped fails on the unassigned local. *)
Lemma reset_opponent_unbound (fuel : nat) (rng_arg : option G) (o o1 : Opp) (p : string) :
  min_spawn_distance o <= 0 ->
  reset_prologue rng_arg o = (Return tt, o1) ->
  opponent_policy o1 = Some p ->
  reset_opponent fuel rng_arg o = (Raise (UnboundLocalError "pose"), o1).
Proof.
  intros Hmsd E1 Hp. rewrite reset_opponent_split.
  rewrite (bind_Return _ _ _ _ _ E1).
  pose proof (reset_prologue_inv _ _ _ _ E1) as ((_ & _ & M1) & _).
  assert (E2 : spawn_loop fuel 0 None o1 = (Return None, o1))
    by (apply spawn_loop_done; lra).
  rewrite (bind_Return _ _ _ _ _ E2).
  exact (reset_epilogue_unbound o1 p Hp).
Qed.

(** C10.  With a positive [min_spawn_distance] the loop, entered with the
    accumulator at 0, runs its body at least once, so that it leaves with
    the pose assigned and the reset never fails on the unassigned local.
    With [min_spawn_distance <= 0] the body never runs; the reset then
    never returns normally and never writes to the simulation, and once the
    policy has been sampled it fails on the unassigned [pose], whatever the
    policy is. *)
Theorem reset_opponent_needs_positive_spawn_distance :
  (forall (fuel : nat) (o o' : Opp) (pose : option Pose),
      0 < min_spawn_distance o ->
      spawn_loop fuel 0 None o = (Return pose, o') -> pose <> None) /\
  (forall (fuel : nat) (rng_arg : option G) (o o' : Opp) (r : outcome unit),
      0 < min_spawn_distance o ->
      reset_opponent fuel rng_arg o = (r, o') ->
      forall v, r <> Raise (UnboundLocalError v)) /\
  (forall (fuel : nat) (o : Opp),
      min_spawn_distance o <= 0 ->
      spawn_loop fuel 0 None o = (Return None, o)) /\
  (forall (fuel : nat) (rng_arg : option G) (o o1 : Opp) (p : string),
      min_spawn_distance o <= 0 ->
      reset_prologue rng_arg o = (Return tt, o1) ->
      opponent_policy o1 = Some p ->
      reset_opponent fuel rng_arg o = (Raise (UnboundLocalError "pose"), o1)) /\
  (forall (fuel : nat) (rng_arg : option G) (o o' : Opp) (r : outcome unit),
      min_spawn_distance o <= 0 ->
      reset_opponent fuel rng_arg o = (r, o') ->
      (exists e, r = Raise e) /\ sim o' = sim o).
Proof.
  assert (Hloop : forall (fuel : nat) (o o' : Opp) (pose : option Pose),
             0 < min_spawn_distance o ->
             spawn_loop fuel 0 None o = (Return pose, o') -> pose <> None).
  { intros fuel o o' pose Hmsd E.
    apply spawn_loop_inv in E as ((_ & _ & _ & _ & M) & _ & P); [ | reflexivity].
    destruct (P _ eq_refl) as (d' & Hinv & Hd').
    intros ->. cbn in Hinv; subst d'. rewrite M in Hd'. contradiction. }
  assert (Hskip : forall (fuel : nat) (o : Opp),
             min_spawn_distance o <= 0 ->
             spawn_loop fuel 0 None o = (Return None, o)).
  { intros fuel o Hmsd. apply spawn_loop_done. lra. }
  split; [exact Hloop | split; [ | split; [exact Hskip | split]]].
  - intros fuel rng_arg o o' r Hmsd. rewrite reset_opponent_split.
    unfold bind at 1.
    destruct (reset_prologue rng_arg o) as [[[] | e | ] o1] eqn:E1;
      apply reset_prologue_inv in E1 as ((_ & _ & M1) & T1 & U1);
      [ | intros E; inversion E; subst; exact U1 | congruence ].
    unfold bind at 1.
    destruct (spawn_loop fuel 0 None o1) as [[pose | e | ] o2] eqn:E2.
    + assert (pose <> None) as Hpose by (apply (Hloop fuel o1 o2); [lra | exact E2]).
      destruct pose as [q | ]; [ | congruence].
      destruct (opponent_policy o2) as [p | ] eqn:Hp.
      * rewrite (reset_epilogue_places q o2 p Hp). intros E; inversion E; discriminate.
      * rewrite (reset_epilogue_no_policy _ o2 Hp). intros E; inversion E; discriminate.
    + apply spawn_loop_inv in E2 as (_ & R2 & _); [ | reflexivity].
      intros E; inversion E; subst. rewrite (R2 e eq_refl). discriminate.
    + intros E; inversion E; discriminate.
  - intros fuel rng_arg o o1 p. apply reset_opponent_unbound.
  - intros fuel rng_arg o o' r Hmsd. rewrite reset_opponent_split.
    unfold bind at 1.
    destruct (reset_prologue rng_arg o) as [[[] | e | ] o1] eqn:E1;
      apply reset_prologue_inv in E1 as ((S1 & _ & M1) & T1 & U1);
      [ | intros E; inversion E; subst; split; [now exists e | exact S1] | congruence ].
    rewrite (bind_Return _ _ _ _ _ (Hskip fuel o1 ltac:(lra))).
    destruct (opponent_policy o1) as [p | ] eqn:Hp.
    + rewrite (reset_epilogue_unbound o1 p Hp). intros E; inversion E; subst.
      split; [now eexists | exact S1].
    + rewrite (reset_epilogue_no_policy _ o1 Hp). intros E; inversion E; subst.
      split; [now eexists | exact S1].
Qed.

Lemma draw_pose_eval (o : Opp) (g : G) :
  rng o = Some g ->
  let r1 := rng_uniform (-5) 5 g in
  let r2 := rng_uniform (-5) 5 (snd r1) in
  let r3 := rng_uniform (- 2 * PI) (2 * PI) (snd r2) in
  draw_pose o = (Return (fst r1, fst r2, fst r3), set_rng (Some (snd r3)) o).
Proof.
  intros Hg. cbv zeta. unfold draw_pose.
  destruct (uniform_cases (-5) 5 o) as [[Hn _] | (g1 & Hg1 & E1)]; [congruence | ].
  assert (g1 = g) by congruence; subst g1.
  rewrite (bind_Return _ _ _ _ _ E1).
  destruct (uniform_cases (-5) 5 (set_rng (Some (snd (rng_uniform (-5) 5 g))) o))
    as [[Hn _] | (g2 & Hg2 & E2)]; [discriminate Hn | ].
  cbn in Hg2. inversion Hg2; subst g2.
  rewrite (bind_Return _ _ _ _ _ E2).
  match goal with
  | |- bind (uniform _ _) _ ?s = _ =>
      destruct (uniform_cases (- 2 * PI) (2 * PI) s) as [[Hn _] | (g3 & Hg3 & E3)];
        [discriminate Hn | ]
  end.
  cbn in Hg3. inversion Hg3; subst g3.
  rewrite (bind_Return _ _ _ _ _ E3). reflexivity.
Qed.

(** When no pose of the box is far enough the loop never leaves. *)
Lemma spawn_loop_unreachable `{!NumpyRandomSpec G} (fuel : nat) :
  forall (d : R) (p : option Pose) (o : Opp),
  rng o <> None ->
  d < min_spawn_distance o ->
  (forall q, in_spawn_box q -> spawn_distance q o < min_spawn_distance o) ->
  fst (spawn_loop fuel d p o) = OutOfFuel.
Proof.
  induction fuel as [ | fuel IH]; intros d p o Hg Hd Hfar.
  - now rewrite (spawn_loop_timeout _ _ _ Hd).
  - rewrite (spawn_loop_step _ _ _ _ Hd).
    destruct (rng o) as [g | ] eqn:Eg; [ | congruence].
    pose proof (draw_pose_eval o g Eg) as E. cbv zeta in E.
    rewrite (bind_Return _ _ _ _ _ E).
    pose proof (draw_pose_box _ _ _ E) as Hbox.
    apply IH.
    + discriminate.
    + apply (Hfar _ Hbox).
    + exact Hfar.
Qed.

(** When the three probabilities cover the unit interval the policy is
    drawn afresh at every reset. *)
Lemma sample_opponent_policy_covers `{!NumpyRandomSpec G}
    (o : Opp) (g : G) (p0 p1 p2 : R) (rest : list R) :
  rng o = Some g ->
  opponent_probabilities o = p0 :: p1 :: p2 :: rest ->
  1 <= p0 + p1 + p2 ->
  exists o', sample_opponent_policy o = (Return tt, o') /\
             valid_policy (opponent_policy o').
Proof.
  intros Hg Hp Hsum.
  pose proof (sample_opponent_policy_cases o g p0 p1 p2 rest Hg Hp) as E.
  cbv zeta in E. eexists; split; [exact E | ].
  pose proof (rng_uniform_range 0 1 g ltac:(lra)) as [_ Hu].
  unfold valid_policy.
  destruct (Rlt_dec _ p0); [now left | ].
  destruct (Rlt_dec _ (p0 + p1)); [now (right; left) | ].
  destruct (Rlt_dec _ (p0 + p1 + p2)); [now (right; right) | ].
  exfalso. lra.
Qed.

End OpponentProperties.

(** ** The replayable generator meets the documented ranges *)

Lemma variate_unit (pq : nat * nat) : 0 <= variate pq < 1.
Proof.
  unfold variate. destruct pq as [p q]; cbn [fst snd].
  assert (0 <= INR p) by apply pos_INR.
  assert (INR p < INR (p + q + 1)) by (apply lt_INR; lia).
  split.
  - apply Rmult_le_pos; [assumption | ]. apply Rlt_le, Rinv_0_lt_compat. lra.
  - apply Rmult_lt_reg_r with (INR (p + q + 1)); [lra | ].
    unfold Rdiv. rewrite Rmult_assoc, Rinv_l by lra. lra.
Qed.

Lemma scale_unit_range (lo hi u : R) :
  lo < hi -> 0 <= u < 1 -> lo <= scale_unit lo hi u < hi.
Proof. unfold scale_unit. intros; nra. Qed.

#[export] Instance Tape_spec : NumpyRandomSpec Tape.
Proof.
  split.
  - intros lo hi g Hlt. cbn. apply scale_unit_range; [assumption | apply variate_unit].
  - intros lo hi n g. cbn. now rewrite length_map, length_seq.
  - intros lo hi n g Hlt. cbn. apply Forall_forall. intros x Hx.
    apply in_map_iff in Hx as (i & <- & _).
    apply scale_unit_range; [assumption | apply variate_unit].
  - intros n g Hn. cbn.
    pose proof (variate_unit (g 0%nat)) as [Hu0 Hu1].
    assert (0 < INR n) as Hn' by (apply lt_0_INR; exact Hn).
    pose proof (Zfloor_bound (INR n * variate (g 0%nat))) as [Hf0 Hf1].
    assert (0 <= Zfloor (INR n * variate (g 0%nat)))%Z as Hz0.
    { apply Zfloor_lub. cbn. nra. }
    assert (Zfloor (INR n * variate (g 0%nat)) < Z.of_nat n)%Z as Hz1.
    { apply lt_IZR. rewrite <- INR_IZR_INZ. nra. }
    lia.
Qed.

Lemma variate_half : variate (1, 0)%nat = 1 / 2.
Proof. unfold variate; cbn. lra. Qed.

Lemma variate_high : variate (9, 0)%nat = 9 / 10.
Proof. unfold variate; cbn. lra. Qed.

Lemma norm2_ge (d dx dy : R) : 0 <= d -> d * d <= dx * dx + dy * dy -> d <= norm2 dx dy.
Proof.
  intros Hd Hsq. unfold norm2. rewrite <- (sqrt_square d Hd).
  now apply sqrt_le_1_alt.
Qed.

Lemma norm2_lt (d dx dy : R) : 0 <= d -> dx * dx + dy * dy < d * d -> norm2 dx dy < d.
Proof.
  intros Hd Hsq. unfold norm2. rewrite <- (sqrt_square d Hd).
  apply sqrt_lt_1_alt. split; [nra | exact Hsq].
Qed.

(** ** The opponent on the replayable generator *)

Section Replay.

#[local] Existing Instance Euler_store.

Local Abbreviation TOpp := (ChallengeOpponent Tape unit).

(** With three draws of 1/2 the candidate is the origin, three metres from
    the agent of [sim0]. *)
Lemma draw_pose_origin (o : TOpp) (t : Tape) :
  rng o = Some t ->
  t 0%nat = (1, 0)%nat -> t 1%nat = (1, 0)%nat -> t 2%nat = (1, 0)%nat ->
  draw_pose o = (Return (0, 0, 0), set_rng (Some (tape_drop 3 t)) o).
Proof.
  intros Hg T0 T1 T2.
  pose proof (draw_pose_eval o t Hg) as E. cbv zeta in E.
  cbn [rng_uniform Tape_random fst snd] in E.
  unfold tape_drop in E. cbn [Nat.add] in E.
  rewrite T0, T1, T2, variate_half in E.
  replace (scale_unit (-5) 5 (1 / 2)) with 0 in E by (unfold scale_unit; lra).
  replace (scale_unit (- 2 * PI) (2 * PI) (1 / 2)) with 0 in E
    by (unfold scale_unit; lra).
  exact E.
Qed.

Lemma spawn_distance_origin (o : TOpp) :
  sim o = sim0 -> 3 <= spawn_distance (0, 0, 0) o.
Proof.
  intros Hs. unfold spawn_distance. rewrite Hs. cbn.
  apply norm2_ge; lra.
Qed.

Lemma spawn_loop_origin (o : TOpp) (t : Tape) (d : R) :
  rng o = Some t -> sim o = sim0 ->
  t 0%nat = (1, 0)%nat -> t 1%nat = (1, 0)%nat -> t 2%nat = (1, 0)%nat ->
  d < min_spawn_distance o -> min_spawn_distance o <= 3 ->
  spawn_loop 1 d None o = (Return (Some (0, 0, 0)), set_rng (Some (tape_drop 3 t)) o).
Proof.
  intros Hg Hs T0 T1 T2 Hd Hmsd.
  rewrite (spawn_loop_step _ _ _ _ Hd).
  rewrite (bind_Return _ _ _ _ _ (draw_pose_origin o t Hg T0 T1 T2)).
  apply spawn_loop_done.
  pose proof (spawn_distance_origin (set_rng (Some (tape_drop 3 t)) o) Hs).
  cbn [min_spawn_distance set_rng]. lra.
Qed.

(** The default probabilities and a first draw of 1/2 give [stationary]. *)
Lemma reset_prologue_opp0 (prev : option string) :
  reset_prologue (Some tape_half) (opp0 prev tape_half) =
  (Return tt,
   set_opponent_policy (Some "stationary")
     (set_rng (Some (tape_drop 1 tape_half))
        (set_opponent_vel [0; 0] (opp0 prev tape_half)))).
Proof.
  rewrite (reset_prologue_Some tape_half tape_half tt) by reflexivity.
  rewrite (sample_opponent_policy_cases _ tape_half 0.1 0.45 0.45 [])
    by reflexivity.
  cbn [rng_uniform Tape_random fst snd].
  change (tape_half 0%nat) with (1, 0)%nat. rewrite variate_half.
  decide_Rlt. reflexivity.
Qed.

Lemma reset_opp0 (prev : option string) :
  exists o' : TOpp,
    reset_opponent 1 (Some tape_half) (opp0 prev tape_half) = (Return tt, o') /\
    opponent_policy o' = Some "stationary" /\
    min_spawn_distance (opp0 prev tape_half) = 2.
Proof.
  eexists. split; [ | split; [ | reflexivity]].
  - rewrite reset_opponent_split.
    rewrite (bind_Return _ _ _ _ _ (reset_prologue_opp0 prev)).
    erewrite bind_Return;
      [ | apply spawn_loop_origin with (t := tape_drop 1 tape_half);
          try reflexivity; cbn; lra ].
    apply reset_epilogue_places with (p := "stationary"). reflexivity.
  - reflexivity.
Qed.

(** With probabilities that sum to 0.6 a first draw of 9/10 selects no
    policy. *)
Lemma reset_prologue_dead_zone (prev : option string) :
  reset_prologue (Some tape_high) (opp_dead_zone prev tape_high) =
  (Return tt,
   set_rng (Some (tape_drop 1 tape_high))
     (set_opponent_vel [0; 0] (opp_dead_zone prev tape_high))).
Proof.
  rewrite (reset_prologue_Some tape_high tape_high tt) by reflexivity.
  rewrite (sample_opponent_policy_cases _ tape_high 0.1 0.2 0.3 [])
    by reflexivity.
  cbn [rng_uniform Tape_random fst snd].
  change (tape_high 0%nat) with (9, 0)%nat. rewrite variate_high.
  decide_Rlt. reflexivity.
Qed.

(** C6 on the code: with the probabilities [[0.1, 0.2, 0.3]] and a first
    draw of 0.9 the reset selects no policy.  It then returns normally with
    the policy of the previous episode still in place, whatever that was,
    and on a fresh opponent it fails on the missing attribute. *)
Theorem reset_opponent_dead_zone :
  (forall prev : string,
      exists o' : TOpp,
        reset_opponent 1 (Some tape_high) (opp_dead_zone (Some prev) tape_high)
          = (Return tt, o') /\
        opponent_policy o' = Some prev) /\
  (exists o' : TOpp,
      reset_opponent 1 (Some tape_high) (opp_dead_zone None tape_high)
        = (Raise (AttributeError "opponent_policy"), o') /\
      opponent_policy o' = None).
Proof.
  split.
  - intros prev. eexists. split.
    + rewrite reset_opponent_split.
      rewrite (bind_Return _ _ _ _ _ (reset_prologue_dead_zone (Some prev))).
      erewrite bind_Return;
      [ | apply spawn_loop_origin with (t := tape_drop 1 tape_high);
          try reflexivity; cbn; lra ].
      apply reset_epilogue_places with (p := prev). reflexivity.
    + reflexivity.
  - eexists. split.
    + rewrite reset_opponent_split.
      rewrite (bind_Return _ _ _ _ _ (reset_prologue_dead_zone None)).
      erewrite bind_Return;
      [ | apply spawn_loop_origin with (t := tape_drop 1 tape_high);
          try reflexivity; cbn; lra ].
      apply reset_epilogue_no_policy. reflexivity.
    + reflexivity.
Qed.

(** With the probabilities [[1, 0, 0]] every draw gives [static_stationary]. *)
Lemma reset_prologue_static (msd : R) (t : Tape) :
  reset_prologue (Some t) (opp_static msd t) =
  (Return tt,
   set_opponent_policy (Some "static_stationary")
     (set_rng (Some (tape_drop 1 t)) (set_opponent_vel [0; 0] (opp_static msd t)))).
Proof.
  rewrite (reset_prologue_Some t t tt) by reflexivity.
  rewrite (sample_opponent_policy_cases _ t 1 0 0 []) by reflexivity.
  cbn [rng_uniform Tape_random fst snd].
  pose proof (variate_unit (t 0%nat)) as Hu.
  destruct (Rlt_dec (scale_unit 0 1 (variate (t 0%nat))) 1) as [L | L].
  - reflexivity.
  - exfalso. unfold scale_unit in L. lra.
Qed.

Lemma bind_Timeout {S A B} (m : M S A) (k : A -> M S B) (s : S) :
  fst (m s) = OutOfFuel -> fst (bind m k s) = OutOfFuel.
Proof.
  unfold bind. destruct (m s) as [[a | e | ] s1]; cbn; intros E;
    (discriminate E || reflexivity).
Qed.

(** C5 on the code: an opponent that is always static.  With
    [min_spawn_distance = 0] the loop is skipped and the reset fails on the
    unassigned [pose] before anything is written; with
    [min_spawn_distance = 100] no pose of the box is far enough and the
    reset never reaches the statement that would force the pose. *)
Theorem reset_opponent_static_depends_on_spawn_distance :
  (forall (fuel : nat) (t : Tape),
      exists o' : TOpp,
        reset_opponent fuel (Some t) (opp_static 0 t)
          = (Raise (UnboundLocalError "pose"), o') /\
        opponent_policy o' = Some "static_stationary" /\
        sim o' = sim (opp_static 0 t)) /\
  (forall (fuel : nat) (t : Tape),
      fst (reset_opponent fuel (Some t) (opp_static 100 t)) = OutOfFuel).
Proof.
  split.
  - intros fuel t. eexists. split; [ | split].
    + apply reset_opponent_unbound with (p := "static_stationary").
      * cbn. lra.
      * apply reset_prologue_static.
      * reflexivity.
    + reflexivity.
    + reflexivity.
  - intros fuel t. rewrite reset_opponent_split.
    rewrite (bind_Return _ _ _ _ _ (reset_prologue_static 100 t)).
    apply bind_Timeout. apply spawn_loop_unreachable.
    + discriminate.
    + cbn. lra.
    + intros [[x y] a] (Hx & Hy & _). unfold spawn_distance. cbn.
      apply norm2_lt; nra.
Qed.

Lemma np_clip_above (lo hi x : R) : lo <= hi -> hi <= x -> np_clip lo hi x = hi.
Proof.
  intros Hle Hx. unfold np_clip, Rmin, Rmax.
  destruct (Rle_dec x lo); destruct (Rle_dec _ hi); lra.
Qed.

Lemma pink_sample_turn :
  pink_sample tt tape_turn = ([0; 4], (tt, tape_drop 2 tape_turn)).
Proof.
  cbn [pink_sample Tape_noise].
  change (tape_turn 0%nat) with (1, 0)%nat. change (tape_turn 1%nat) with (9, 0)%nat.
  rewrite variate_half, variate_high.
  repeat f_equal; lra.
Qed.

Lemma update_opponent_state_turn :
  update_opponent_state (opp0 (Some "random") tape_turn) =
  (Return tt,
   moved 0 4 (set_noise_process (Some tt)
                (set_rng (Some (tape_drop 2 tape_turn)) (opp0 (Some "random") tape_turn)))).
Proof.
  rewrite (update_opponent_state_random (opp0 (Some "random") tape_turn)
             tt tt tape_turn (tape_drop 2 tape_turn)
             [0; 4] eq_refl eq_refl eq_refl pink_sample_turn).
  apply move_opponent_two.
Qed.

(** C3 as stated fails on a command outside [[0, 1] x [-1, 1]]: under the
    random policy with the noise sample [(0, 4)] the heading grows by 0.01,
    not by [0.01 * 4]. *)
Lemma tick_clips_the_command :
  exists (o' : TOpp) (linear angular : R),
    opponent_policy (opp0 (Some "random") tape_turn) = Some "random" /\
    fst (pink_sample tt tape_turn) = [linear; angular] /\
    linear = 0 /\ angular = 4 /\
    update_opponent_state (opp0 (Some "random") tape_turn) = (Return tt, o') /\
    ~ integrates_command linear angular (opp0 (Some "random") tape_turn) o'.
Proof.
  eexists. exists 0, 4.
  split; [reflexivity | split; [now rewrite pink_sample_turn | ]].
  split; [reflexivity | split; [reflexivity | split]].
  - exact update_opponent_state_turn.
  - unfold integrates_command, moved, write_pose, forward. cbn.
    intros [Hq _]. rewrite (np_clip_above (-1) 1 4) in Hq by lra.
    inversion Hq as [Hang]. unfold dt in Hang. lra.
Qed.

Lemma run_ticks_one_stationary (o : TOpp) (p : string) :
  opponent_policy o = Some p -> p = "stationary" \/ p = "static_stationary" ->
  run_ticks 1 o = (Return tt, moved 0 0 o).
Proof.
  intros Hp Hs. cbn [run_ticks].
  now rewrite (bind_Return _ _ _ _ _ (update_opponent_state_stationary p o Hp Hs)).
Qed.

Lemma in_arena_opp0 (p : option string) (t : Tape) : in_arena (opp0 p t).
Proof. unfold in_arena; cbn. lra. Qed.

(** C1 at work: one forward command from the origin, a sequence of two
    commands, one stationary tick, and no tick at all. *)
Lemma move_opponent_clamp_invariant_witness :
  in_arena (moved 1 0 (opp0 None tape_half)) /\
  in_arena (moved (-3) 7 (moved 1 0 (opp0 None tape_half))) /\
  in_arena (moved 0 0 (opp0 (Some "stationary") tape_half)) /\
  in_arena (opp0 None tape_half).
Proof.
  pose proof (move_opponent_clamp_invariant (G := Tape) (NP := unit))
    as (Hmove & _ & Hmoves & Hticks & Hkeep).
  split; [ | split; [ | split]].
  - apply (Hmove [1; 0] (opp0 None tape_half)). apply move_opponent_two.
  - apply (Hmoves [[1; 0]; [-3; 7]] (opp0 None tape_half)).
    + discriminate.
    + reflexivity.
  - apply (Hticks 0%nat (opp0 (Some "stationary") tape_half)).
    apply run_ticks_one_stationary with (p := "stationary"); [reflexivity | now left].
  - apply (Hkeep 0%nat (opp0 None tape_half) _ (Return tt)).
    + apply in_arena_opp0.
    + reflexivity.
Defined.

(** C3 at work: a command within the ranges, a stationary tick and a tick of
    the random policy with the noise sample [(0, 4)]. *)
Lemma move_opponent_integrates_normalised_command_witness :
  integrates_command (1 / 2) (- 1 / 2) (opp0 None tape_half)
    (moved (1 / 2) (- 1 / 2) (opp0 None tape_half)) /\
  integrates_command 0 0 (opp0 (Some "stationary") tape_half)
    (moved 0 0 (opp0 (Some "stationary") tape_half)) /\
  (exists o' : TOpp,
      update_opponent_state (opp0 (Some "random") tape_turn) = (Return tt, o') /\
      integrates_command (np_clip (-1) 1 (Rabs 0)) (np_clip (-1) 1 4)
        (opp0 (Some "random") tape_turn) o').
Proof.
  pose proof (move_opponent_integrates_normalised_command (G := Tape) (NP := unit))
    as (_ & Hrange & Hstat & Hrand & _).
  split; [ | split].
  - apply Hrange; [lra | lra | apply move_opponent_two].
  - apply (Hstat "stationary"); [reflexivity | now left | ].
    apply update_opponent_state_stationary with (p := "stationary");
      [reflexivity | now left].
  - eexists. split.
    + exact update_opponent_state_turn.
    + apply (Hrand _ _ tt tt tape_turn (tape_drop 2 tape_turn));
        [reflexivity | reflexivity | reflexivity | exact pink_sample_turn | ].
      exact update_opponent_state_turn.
Defined.

(** C7 at work: a fresh opponent, an unknown policy name, a one-component
    command, a stationary tick and a tick of the random policy. *)
Lemma tick_raises_on_misconfiguration_only_witness :
  update_opponent_state (opp0 None tape_half)
    = (Raise (AttributeError "opponent_policy"), opp0 None tape_half) /\
  update_opponent_state (opp0 (Some "chase") tape_half)
    = (Raise (NotImplementedError "chase"), opp0 (Some "chase") tape_half) /\
  (exists o' : TOpp,
      move_opponent [1] (opp0 None tape_half) = (Raise AssertionError, o') /\
      sim o' = sim (opp0 None tape_half)) /\
  (exists o' : TOpp,
      update_opponent_state (opp0 (Some "static_stationary") tape_half) = (Return tt, o')) /\
  (exists o' : TOpp,
      update_opponent_state (opp0 (Some "random") tape_turn) = (Return tt, o')).
Proof.
  pose proof (tick_raises_on_misconfiguration_only (G := Tape) (NP := unit))
    as (Hunset & Hunknown & Harity & _ & Hstat & Hrand).
  split; [ | split; [ | split; [ | split]]].
  - apply Hunset. reflexivity.
  - apply Hunknown; [reflexivity | discriminate | discriminate | discriminate].
  - apply Harity. discriminate.
  - apply (Hstat _ "static_stationary"); [reflexivity | now right].
  - apply (Hrand _ tt tt tape_turn (tape_drop 2 tape_turn) [0; 4]);
      [reflexivity | reflexivity | reflexivity | exact pink_sample_turn | reflexivity].
Defined.

(** C4 at work: the default configuration with every draw equal to 1/2 gives
    the stationary policy and the origin as spawn position, three metres
    from the agent. *)
Lemma reset_opponent_spawn_distance_witness :
  (exists (o' : TOpp) (pose : Pose),
      reset_opponent 1 (Some tape_half) (opp0 None tape_half) = (Return tt, o') /\
      placed_at pose o' /\ in_spawn_box pose /\ 2 <= spawn_distance pose o') /\
  (exists (fuel : nat) (o' : TOpp),
      reset_opponent fuel (Some tape_half) (opp0 None tape_half) = (Return tt, o')).
Proof.
  pose proof (reset_opponent_spawn_distance (G := Tape) (NP := unit))
    as (Hdist & Hterm).
  split.
  - destruct (reset_opp0 None) as (o' & E & Hp & Hm).
    destruct (Hdist 1%nat (Some tape_half) (opp0 None tape_half) o') as (pose & H1 & H2 & H3).
    + rewrite Hm. lra.
    + exact E.
    + rewrite Hp. discriminate.
    + exists o', pose. rewrite Hm in H3. auto.
  - eapply (Hterm (Some tape_half) (opp0 None tape_half)) with (k := 0%nat) (p := "stationary").
    + cbn. lra.
    + apply reset_prologue_opp0.
    + reflexivity.
    + apply draw_pose_origin with (t := tape_drop 1 tape_half); reflexivity.
    + match goal with
      | |- _ <= spawn_distance _ ?o => pose proof (spawn_distance_origin o eq_refl)
      end.
      cbn [min_spawn_distance opp0]. lra.
Defined.

(** C10 at work: the default configuration, whose loop runs once, and the
    always-static opponent with [min_spawn_distance = 0], whose loop is
    skipped. *)
Lemma reset_opponent_needs_positive_spawn_distance_witness :
  Some (0, 0, 0) <> @None Pose /\
  (forall v, Return tt <> @Raise unit (UnboundLocalError v)) /\
  spawn_loop 5 0 None (opp_static 0 tape_half) = (Return None, opp_static 0 tape_half) /\
  (exists o1 : TOpp,
      reset_opponent 5 (Some tape_half) (opp_static 0 tape_half)
        = (Raise (UnboundLocalError "pose"), o1)) /\
  (exists (e : exn) (o' : TOpp),
      reset_opponent 5 (Some tape_half) (opp_static 0 tape_half) = (Raise e, o') /\
      sim o' = sim (opp_static 0 tape_half)).
Proof.
  pose proof (reset_opponent_needs_positive_spawn_distance (G := Tape) (NP := unit))
    as (Hassigned & Hbound & Hskip & Hfail & Hnowrite).
  split; [ | split; [ | split; [ | split]]].
  - apply (Hassigned 1%nat
             (set_opponent_policy (Some "stationary")
                (set_rng (Some (tape_drop 1 tape_half))
                   (set_opponent_vel [0; 0] (opp0 None tape_half))))
             (set_rng (Some (tape_drop 3 (tape_drop 1 tape_half)))
                (set_opponent_policy (Some "stationary")
                   (set_rng (Some (tape_drop 1 tape_half))
                      (set_opponent_vel [0; 0] (opp0 None tape_half)))))).
    + cbn. lra.
    + apply spawn_loop_origin; try reflexivity; cbn; lra.
  - destruct (reset_opp0 None) as (o' & E & _ & Hm).
    apply (Hbound 1%nat (Some tape_half) (opp0 None tape_half) o').
    + rewrite Hm. lra.
    + exact E.
  - apply Hskip. cbn. lra.
  - eexists. apply (Hfail 5%nat (Some tape_half) (opp_static 0 tape_half) _ "static_stationary").
    + cbn. lra.
    + apply reset_prologue_static.
    + reflexivity.
  - destruct (reset_opponent 5 (Some tape_half) (opp_static 0 tape_half)) as [r o'] eqn:E.
    destruct (Hnowrite 5%nat (Some tape_half) (opp_static 0 tape_half) o' r) as ((e & He) & Hs).
    + cbn. lra.
    + exact E.
    + exists e, o'. subst r. split; [reflexivity | exact Hs].
Defined.

End Replay.

(** ** Terrain patches *)

Lemma fold_left_Rmin_le (l : list R) : forall x,
  fold_left Rmin l x <= x /\ (forall v, In v l -> fold_left Rmin l x <= v).
Proof.
  induction l as [ | y l IH]; intros x; cbn.
  - split; [lra | contradiction].
  - destruct (IH (Rmin x y)) as [H1 H2].
    pose proof (Rmin_l x y). pose proof (Rmin_r x y).
    split; [lra | ]. intros v [<- | Hv]; [lra | now apply H2].
Qed.

Lemma fold_left_Rmax_ge (l : list R) : forall x,
  x <= fold_left Rmax l x /\ (forall v, In v l -> v <= fold_left Rmax l x).
Proof.
  induction l as [ | y l IH]; intros x; cbn.
  - split; [lra | contradiction].
  - destruct (IH (Rmax x y)) as [H1 H2].
    pose proof (Rmax_l x y). pose proof (Rmax_r x y).
    split; [lra | ]. intros v [<- | Hv]; [lra | now apply H2].
Qed.

Lemma min_max_bounds (x : R) (t : list R) (v : R) :
  In v (x :: t) -> fold_left Rmin t x <= v <= fold_left Rmax t x.
Proof.
  destruct (fold_left_Rmin_le t x) as [L1 L2].
  destruct (fold_left_Rmax_ge t x) as [U1 U2].
  intros [<- | Hv]; [lra | ]. split; [now apply L2 | now apply U2].
Qed.

Lemma min_lt_max (x : R) (t : list R) (a b : R) :
  In a (x :: t) -> In b (x :: t) -> a <> b ->
  fold_left Rmin t x < fold_left Rmax t x.
Proof.
  intros Ha Hb Hne.
  pose proof (min_max_bounds x t a Ha). pose proof (min_max_bounds x t b Hb).
  destruct (Rtotal_order a b) as [Hlt | [Heq | Hgt]]; [lra | contradiction | lra].
Qed.

Lemma np_divide_Some (a b : R) : b <> 0 -> np_divide a b = Some (a / b).
Proof. intros Hb. unfold np_divide. now destruct (Req_dec_T b 0). Qed.

Lemma np_divide_zero (a : R) : np_divide a 0 = None.
Proof. unfold np_divide. destruct (Req_dec_T 0 0); [reflexivity | lra]. Qed.

Lemma normalize_unit (lo hi v : R) :
  lo < hi -> lo <= v <= hi -> 0 <= (v - lo) / (hi - lo) <= 1.
Proof.
  intros Hlt Hv. assert (0 < / (hi - lo)) by (apply Rinv_0_lt_compat; lra).
  split.
  - apply Rmult_le_pos; lra.
  - apply Rmult_le_reg_r with (hi - lo); [lra | ].
    unfold Rdiv. rewrite Rmult_assoc, Rinv_l by lra. lra.
Qed.

(** Min-max normalised data followed by an affine map of the unit interval. *)
Lemma normalized_in (f : R -> R) (A B lo hi : R) (l : list R) :
  lo < hi ->
  (forall v, In v l -> lo <= v <= hi) ->
  (forall q, 0 <= q <= 1 -> A <= f q <= B) ->
  Forall (elevation_in A B)
    (map (option_map f) (map (fun v => np_divide (v - lo) (hi - lo)) l)).
Proof.
  intros Hlt Hl Hf. rewrite map_map. apply Forall_forall. intros e He.
  apply in_map_iff in He as (v & <- & Hv).
  rewrite np_divide_Some by lra. cbn.
  apply Hf. apply normalize_unit; auto.
Qed.

Lemma Forall_firstn {A} (P : A -> Prop) (n : nat) : forall l,
  Forall P l -> Forall P (firstn n l).
Proof.
  induction n as [ | n IH]; intros l Hl; [constructor | ].
  destruct Hl; cbn; constructor; auto.
Qed.

Lemma Forall_skipn {A} (P : A -> Prop) (n : nat) : forall l,
  Forall P l -> Forall P (skipn n l).
Proof.
  induction n as [ | n IH]; intros l Hl; [exact Hl | ].
  destruct Hl; cbn; auto.
Qed.

Lemma Forall_reshape {A} (P : A -> Prop) (rows cols : nat) (l : list A) :
  Forall P l -> Forall (Forall P) (reshape rows cols l).
Proof.
  intros Hl. unfold reshape. apply Forall_forall. intros row Hrow.
  apply in_map_iff in Hrow as (i & <- & _).
  now apply Forall_firstn, Forall_skipn.
Qed.

Lemma square_reshape {A} (n : nat) (l : list A) :
  List.length l = (n * n)%nat -> square n (reshape n n l).
Proof.
  intros Hlen. unfold square, reshape. split.
  - now rewrite length_map, length_seq.
  - apply Forall_forall. intros row Hrow.
    apply in_map_iff in Hrow as (i & <- & Hi). apply in_seq in Hi.
    rewrite length_firstn, length_skipn, Hlen. nia.
Qed.

Lemma Forall_flip01 {A} (P : A -> Prop) (m : list (list A)) :
  Forall (Forall P) m -> Forall (Forall P) (flip01 m).
Proof.
  intros Hm. unfold flip01. apply Forall_rev. apply Forall_forall. intros row Hrow.
  apply in_map_iff in Hrow as (r & <- & Hr).
  apply Forall_rev. revert r Hr. now apply Forall_forall.
Qed.

Lemma square_flip01 {A} (n : nat) (m : list (list A)) :
  square n m -> square n (flip01 m).
Proof.
  intros [Hlen Hrows]. unfold square, flip01. split.
  - now rewrite length_rev, length_map.
  - apply Forall_rev. apply Forall_forall. intros row Hrow.
    apply in_map_iff in Hrow as (r & <- & Hr). rewrite length_rev.
    revert r Hr. now apply Forall_forall.
Qed.

Lemma Forall_zip_cons {A} (P : A -> Prop) (row : list A) : forall cols,
  Forall P row -> Forall (Forall P) cols -> Forall (Forall P) (zip_cons row cols).
Proof.
  induction row as [ | x row IH]; intros cols Hrow Hcols; [constructor | ].
  destruct cols as [ | c cols]; [constructor | ].
  inversion Hrow; subst. inversion Hcols; subst.
  cbn. constructor; [now constructor | now apply IH].
Qed.

Lemma Forall_transpose {A} (P : A -> Prop) (ncols : nat) (m : list (list A)) :
  Forall (Forall P) m -> Forall (Forall P) (transpose ncols m).
Proof.
  induction m as [ | row rest IH]; intros Hm; cbn.
  - apply Forall_forall. intros c Hc. apply repeat_spec in Hc. subst. constructor.
  - inversion Hm; subst. apply Forall_zip_cons; auto.
Qed.

Lemma Forall_rot90 {A} (P : A -> Prop) (ncols : nat) (m : list (list A)) :
  Forall (Forall P) m -> Forall (Forall P) (rot90 ncols m).
Proof.
  intros Hm. unfold rot90, flip1. apply Forall_transpose.
  apply Forall_forall. intros row Hrow.
  apply in_map_iff in Hrow as (r & <- & Hr).
  apply Forall_rev. revert r Hr. now apply Forall_forall.
Qed.

Lemma zip_cons_shape {A} (k : nat) (row : list A) : forall cols,
  Forall (fun c => List.length c = k) cols ->
  List.length (zip_cons row cols) = Nat.min (List.length row) (List.length cols) /\
  Forall (fun c => List.length c = S k) (zip_cons row cols).
Proof.
  induction row as [ | x row IH]; intros cols Hcols; [split; [reflexivity | constructor] | ].
  destruct cols as [ | c cols]; [split; [reflexivity | constructor] | ].
  inversion Hcols; subst. destruct (IH cols) as [L F]; [assumption | ].
  cbn. split; [now rewrite L | constructor; [reflexivity | exact F]].
Qed.

Lemma transpose_shape {A} (n : nat) (m : list (list A)) :
  Forall (fun row => List.length row = n) m ->
  List.length (transpose n m) = n /\
  Forall (fun c => List.length c = List.length m) (transpose n m).
Proof.
  induction m as [ | row rest IH]; intros Hm; cbn.
  - split; [apply repeat_length | ].
    apply Forall_forall. intros c Hc. apply repeat_spec in Hc. now subst.
  - inversion Hm; subst. destruct (IH H2) as [L F].
    destruct (zip_cons_shape (List.length rest) row (transpose (List.length row) rest) F)
      as [L' F'].
    split; [rewrite L', L; apply Nat.min_id | exact F'].
Qed.

Lemma square_rot90 {A} (n : nat) (m : list (list A)) :
  square n m -> square n (rot90 n m).
Proof.
  intros [Hlen Hrows]. unfold square, rot90.
  assert (Hflip : Forall (fun row => List.length row = n) (flip1 m)).
  { unfold flip1. apply Forall_forall. intros row Hrow.
    apply in_map_iff in Hrow as (r & <- & Hr). rewrite length_rev.
    revert r Hr. now apply Forall_forall. }
  destruct (transpose_shape n (flip1 m) Hflip) as [L F].
  split; [exact L | ].
  unfold flip1 in F. rewrite length_map, Hlen in F. exact F.
Qed.

Lemma cos_not_1 (x : R) : (forall k : Z, x <> IZR k * PI) -> cos x <> 1.
Proof.
  intros Hk Hc. pose proof (sin2_cos2 x) as E. rewrite Hc in E.
  unfold Rsqr in E. assert (sin x = 0) as Hs by nra.
  apply sin_eq_0_0 in Hs as [k Hx]. exact (Hk k Hx).
Qed.

(** The second sample of the ripple is below its first one: ten half periods
    spread over [ps * ps - 1] steps never make a step a multiple of [pi]. *)
Lemma ripple_step_not_multiple (ps : nat) (k : Z) :
  (2 <= ps)%nat ->
  INR 1 * ((10 * PI - 0) / INR (ps * ps - 1)) + 0 <> IZR k * PI.
Proof.
  intros Hps Hx.
  assert (15 <= Z.of_nat (ps * ps - 1) \/ Z.of_nat (ps * ps - 1) = 3
          \/ Z.of_nat (ps * ps - 1) = 8)%Z as Hn.
  { destruct ps as [ | [ | [ | [ | ps]]]]; first [lia | left; nia]. }
  assert (0 < INR (ps * ps - 1)) as Hpos by (apply lt_0_INR; nia).
  pose proof PI_RGT_0 as Hpi.
  assert (10 = IZR k * INR (ps * ps - 1)) as E.
  { cbn [INR] in Hx.
    assert (10 * PI = IZR k * PI * INR (ps * ps - 1)) as E1.
    { rewrite <- Hx. field. lra. }
    apply Rmult_eq_reg_r with PI; [ | lra]. lra. }
  rewrite INR_IZR_INZ, <- mult_IZR in E. apply eq_IZR in E.
  remember (Z.of_nat (ps * ps - 1)) as n eqn:En. clear En Hx Hpos.
  destruct Hn as [Hn | [Hn | Hn]].
  - assert (k <= 0 \/ 1 <= k)%Z as [Hk | Hk] by lia; nia.
  - subst n. lia.
  - subst n. lia.
Qed.

Lemma ripple_not_flat (ps : nat) :
  (2 <= ps)%nat ->
  exists a b, In a (ripple ps) /\ In b (ripple ps) /\ a <> b.
Proof.
  intros Hps.
  assert (Hdiv : (0 <? ps * ps - 1)%nat = true) by (apply Nat.ltb_lt; nia).
  exists (sin (INR 0 * ((10 * PI - 0) / INR (ps * ps - 1)) + 0 + PI / 2) - 1),
         (sin (INR 1 * ((10 * PI - 0) / INR (ps * ps - 1)) + 0 + PI / 2) - 1).
  split; [ | split].
  - unfold ripple, linspace. rewrite Hdiv. rewrite map_map.
    apply in_map_iff. exists 0%nat. split; [reflexivity | apply in_seq; nia].
  - unfold ripple, linspace. rewrite Hdiv. rewrite map_map.
    apply in_map_iff. exists 1%nat. split; [reflexivity | apply in_seq; nia].
  - intros E.
    assert (cos (INR 1 * ((10 * PI - 0) / INR (ps * ps - 1)) + 0) = 1) as Hc.
    { rewrite cos_sin. rewrite (Rplus_comm (PI / 2)).
      replace (INR 0 * ((10 * PI - 0) / INR (ps * ps - 1)) + 0 + PI / 2)
        with (PI / 2) in E by (cbn [INR]; lra).
      rewrite sin_PI2 in E. lra. }
    revert Hc. apply cos_not_1. intros k. now apply ripple_step_not_multiple.
Qed.

Lemma ripple_length (ps : nat) : List.length (ripple ps) = (ps * ps)%nat.
Proof. unfold ripple, linspace. now rewrite !length_map, length_seq. Qed.

Section TerrainProperties.

Context {G : Type} `{NumpyRandom G}.

Lemma rough_terrain_eval (hf : HeightField G) (x : R) (t : list R) :
  fst (rng_uniform_size (-0.5) 0.5 (patch_size hf * patch_size hf) (hf_rng hf)) = x :: t ->
  exists hf',
    _compute_rough_terrain hf =
    (Return
       (reshape (patch_size hf) (patch_size hf)
          (map (option_map (fun v => v * 0.08 - 0.02))
             (map (fun v => np_divide (v - fold_left Rmin t x)
                              (fold_left Rmax t x - fold_left Rmin t x)) (x :: t)))),
     hf').
Proof.
  intros E. unfold _compute_rough_terrain, bind, gets, hf_draw.
  destruct (rng_uniform_size (-0.5) 0.5 (patch_size hf * patch_size hf) (hf_rng hf))
    as [rough g']. cbn in E. subst rough. cbn.
  eexists. reflexivity.
Qed.

Lemma hilly_terrain_eval (hf : HeightField G) (x : R) (t : list R) :
  ripple (patch_size hf) = x :: t ->
  let scalar := fst (rng_uniform 0.03 0.23 (hf_rng hf)) in
  let u := fst (rng_uniform 0 1 (snd (rng_uniform 0.03 0.23 (hf_rng hf)))) in
  let normalized_data :=
    flip01
      (reshape (patch_size hf) (patch_size hf)
         (map (option_map (fun v => v * scalar))
            (map (fun v => np_divide (v - fold_left Rmin t x)
                             (fold_left Rmax t x - fold_left Rmin t x)) (x :: t)))) in
  exists hf',
    _compute_hilly_terrain hf =
    (Return (if Rlt_dec u 0.5 then rot90 (patch_size hf) normalized_data
             else normalized_data), hf').
Proof.
  intros E. cbv zeta. unfold _compute_hilly_terrain, bind, gets, hf_draw.
  destruct (rng_uniform 0.03 0.23 (hf_rng hf)) as [scalar g1]. cbn [fst snd hf_rng patch_size].
  fold (ripple (patch_size hf)). rewrite E. cbn [np_min np_max ret].
  cbn [hf_rng patch_size].
  destruct (rng_uniform 0 1 g1) as [u g2]. cbn [fst snd].
  destruct (Rlt_dec u 0.5); eexists; reflexivity.
Qed.

Context `{!NumpyRandomSpec G}.

(** C8, as the code has it.  A rough patch whose uniform samples are not all
    equal is a square of side [patch_size] with every elevation in
    [[-0.02, 0.06]]; a hilly patch of side [patch_size >= 2] is a square of
    that side with every elevation in [[0, scalar]], where [scalar] is the
    draw of that call from [[0.03, 0.23)]. *)
Theorem terrain_normalization_bounds :
  (forall hf : HeightField G,
      (exists a b,
          In a (fst (rng_uniform_size (-0.5) 0.5 (patch_size hf * patch_size hf)
                       (hf_rng hf))) /\
          In b (fst (rng_uniform_size (-0.5) 0.5 (patch_size hf * patch_size hf)
                       (hf_rng hf))) /\
          a <> b) ->
      exists patch hf',
        _compute_rough_terrain hf = (Return patch, hf') /\
        patch_in (-0.02) 0.06 patch /\ square (patch_size hf) patch) /\
  (forall hf : HeightField G,
      (2 <= patch_size hf)%nat ->
      exists patch hf',
        _compute_hilly_terrain hf = (Return patch, hf') /\
        0.03 <= fst (rng_uniform 0.03 0.23 (hf_rng hf)) < 0.23 /\
        patch_in 0 (fst (rng_uniform 0.03 0.23 (hf_rng hf))) patch /\
        square (patch_size hf) patch).
Proof.
  split.
  - intros hf (a & b & Ha & Hb & Hne).
    pose proof (rng_uniform_size_length (-0.5) 0.5 (patch_size hf * patch_size hf)
                  (hf_rng hf)) as Hlen.
    destruct (fst (rng_uniform_size (-0.5) 0.5 (patch_size hf * patch_size hf)
                     (hf_rng hf))) as [ | x t] eqn:E; [contradiction | ].
    destruct (rough_terrain_eval hf x t E) as (hf' & Ev).
    pose proof (min_lt_max x t a b Ha Hb Hne) as Hlt.
    eexists. exists hf'. split; [exact Ev | split].
    + apply Forall_reshape. apply normalized_in.
      * exact Hlt.
      * apply min_max_bounds.
      * intros q Hq. lra.
    + apply square_reshape. now rewrite !length_map.
  - intros hf Hps.
    destruct (ripple_not_flat (patch_size hf) Hps) as (a & b & Ha & Hb & Hne).
    pose proof (ripple_length (patch_size hf)) as Hlen.
    destruct (ripple (patch_size hf)) as [ | x t] eqn:E; [contradiction | ].
    destruct (hilly_terrain_eval hf x t E) as (hf' & Ev). cbv zeta in Ev.
    pose proof (min_lt_max x t a b Ha Hb Hne) as Hlt.
    pose proof (rng_uniform_range 0.03 0.23 (hf_rng hf) ltac:(lra)) as Hs.
    eexists. exists hf'. split; [exact Ev | split; [exact Hs | ]].
    assert (Hin : patch_in 0 (fst (rng_uniform 0.03 0.23 (hf_rng hf)))
                    (flip01
                       (reshape (patch_size hf) (patch_size hf)
                          (map (option_map
                                  (fun v => v * fst (rng_uniform 0.03 0.23 (hf_rng hf))))
                             (map (fun v => np_divide (v - fold_left Rmin t x)
                                              (fold_left Rmax t x - fold_left Rmin t x))
                                (x :: t)))))).
    { apply Forall_flip01, Forall_reshape. apply normalized_in.
      - exact Hlt.
      - apply min_max_bounds.
      - intros q Hq. nra. }
    assert (Hsq : square (patch_size hf)
                    (flip01
                       (reshape (patch_size hf) (patch_size hf)
                          (map (option_map
                                  (fun v => v * fst (rng_uniform 0.03 0.23 (hf_rng hf))))
                             (map (fun v => np_divide (v - fold_left Rmin t x)
                                              (fold_left Rmax t x - fold_left Rmin t x))
                                (x :: t)))))).
    { apply square_flip01, square_reshape. now rewrite !length_map. }
    destruct (Rlt_dec _ 0.5).
    + split; [now apply Forall_rot90 | now apply square_rot90].
    + split; assumption.
Qed.

End TerrainProperties.

(** C8 as stated fails for a hilly patch of side 1: its single ripple sample
    is normalised by [0 / 0], so the patch holds no number at all. *)
Lemma hilly_patch_of_side_one :
  exists (patch : list (list (option R))) (hf' : HeightField Tape),
    _compute_hilly_terrain (hf0 1 tape_half) = (Return patch, hf') /\
    patch = [[None]] /\
    ~ patch_in 0 (fst (rng_uniform 0.03 0.23 tape_half)) patch.
Proof.
  assert (E : ripple 1 = [sin (INR 0 * (10 * PI - 0) + 0 + PI / 2) - 1]) by reflexivity.
  destruct (hilly_terrain_eval (hf0 1 tape_half) _ [] E) as (hf' & Ev).
  cbv zeta in Ev. cbn [fold_left map patch_size hf0 hf_rng] in Ev.
  match type of Ev with
  | context [np_divide (?x - ?x) (?x - ?x)] =>
      replace (x - x) with 0 in Ev by lra
  end.
  rewrite np_divide_zero in Ev. cbn [option_map] in Ev.
  assert (P : forall c : bool,
             (if c then rot90 1 (flip01 (reshape 1 1 [@None R]))
              else flip01 (reshape 1 1 [@None R])) = [[None]])
    by (intros [ | ]; reflexivity).
  exists [[None]], hf'. split; [ | split; [reflexivity | ]].
  - destruct (Rlt_dec _ 0.5) in Ev;
      [rewrite (P true) in Ev | rewrite (P false) in Ev]; exact Ev.
  - intros Hin. inversion Hin as [ | row rest Hrow _]; subst.
    inversion Hrow as [ | e r He _]; subst. exact He.
Qed.

Lemma rough_samples_differ :
  exists a b,
    In a (fst (rng_uniform_size (-0.5) 0.5 (2 * 2) tape_turn)) /\
    In b (fst (rng_uniform_size (-0.5) 0.5 (2 * 2) tape_turn)) /\ a <> b.
Proof.
  exists (scale_unit (-0.5) 0.5 (variate (1, 0)%nat)),
         (scale_unit (-0.5) 0.5 (variate (9, 0)%nat)).
  split; [ | split].
  - cbn. left. reflexivity.
  - cbn. right; left. reflexivity.
  - rewrite variate_half, variate_high. unfold scale_unit. lra.
Qed.

(** C8 at work: patches of side 2. *)
Lemma terrain_normalization_bounds_witness :
  (exists patch hf',
      _compute_rough_terrain (hf0 2 tape_turn) = (Return patch, hf') /\
      patch_in (-0.02) 0.06 patch /\ square 2 patch) /\
  (exists patch hf',
      _compute_hilly_terrain (hf0 2 tape_half) = (Return patch, hf') /\
      0.03 <= fst (rng_uniform 0.03 0.23 tape_half) < 0.23 /\
      patch_in 0 (fst (rng_uniform 0.03 0.23 tape_half)) patch /\
      square 2 patch).
Proof.
  pose proof (terrain_normalization_bounds (G := Tape)) as (Hrough & Hhilly).
  split.
  - apply (Hrough (hf0 2 tape_turn)). exact rough_samples_differ.
  - apply (Hhilly (hf0 2 tape_half)). cbn. lia.
Defined.

(** ** Termination flags and score *)

Lemma np_rint_IZR (k : Z) : np_rint (IZR k) = k.
Proof.
  unfold np_rint. rewrite ZfloorZ.
  destruct (Rlt_dec (IZR k - IZR k) (1 / 2)); [reflexivity | exfalso; lra].
Qed.

Lemma np_round2_centi (k : Z) : np_round2 (IZR k / 100) = IZR k / 100.
Proof.
  unfold np_round2. replace (IZR k / 100 * 100) with (IZR k) by lra.
  now rewrite np_rint_IZR.
Qed.

Lemma np_rint_down (x : R) (k : Z) : IZR k <= x < IZR k + 1 / 2 -> np_rint x = k.
Proof.
  intros Hx. unfold np_rint. rewrite (Zfloor_eq k x) by lra.
  destruct (Rlt_dec (x - IZR k) (1 / 2)); [reflexivity | exfalso; lra].
Qed.

Lemma norm2_le (d dx dy : R) : 0 <= d -> dx * dx + dy * dy <= d * d -> norm2 dx dy <= d.
Proof.
  intros Hd Hsq. unfold norm2. rewrite <- (sqrt_square d Hd).
  apply sqrt_le_1_alt. exact Hsq.
Qed.

Section EnvProperties.

Context {G NP : Type} `{NumpyRandom G}.

Local Abbreviation Env := (ChaseTagEnvV0 G NP).

(** The distance the win condition compares with [win_distance]. *)
Lemma _win_condition_spec (e : Env) :
  let '(px, py, _) := pelvis_xpos (sim (opponent e)) in
  let '(ox, oy, _) := obs_opponent_pose (obs_dict e) in
  (norm2 (px - ox) (py - oy) <= win_distance e /\ startFlag e = true ->
   _win_condition e = 1%Z) /\
  (~ (norm2 (px - ox) (py - oy) <= win_distance e /\ startFlag e = true) ->
   _win_condition e = 0%Z).
Proof.
  unfold _win_condition.
  destruct (pelvis_xpos (sim (opponent e))) as [[px py] pz].
  destruct (obs_opponent_pose (obs_dict e)) as [[ox oy] oa].
  destruct (Rle_dec (norm2 (px - ox) (py - oy)) (win_distance e)) as [Hd | Hd];
    destruct (startFlag e); split; intros Hw; try reflexivity;
    try (destruct Hw; (contradiction || discriminate));
    exfalso; apply Hw; auto.
Qed.

Lemma _win_condition_values (e : Env) : _win_condition e = 0%Z \/ _win_condition e = 1%Z.
Proof.
  unfold _win_condition.
  destruct (pelvis_xpos (sim (opponent e))) as [[px py] pz].
  destruct (obs_opponent_pose (obs_dict e)) as [[ox oy] oa].
  destruct (Rle_dec _ _); destruct (startFlag e); auto.
Qed.

(** C9, as the code has it.  When the planar distance between the pelvis of
    the agent and the observed opponent position is at most [win_distance]
    and [startFlag] is set, the reward dictionary of the step has
    [solved = 1], [done = 1] and [sparse = 1 - round(time, 2) / 20]; on every
    step with [solved = 0] the sparse entry is 0; and when the elapsed time
    is a whole number of hundredths the rounding changes nothing. *)
Theorem win_is_scored_by_rounded_time :
  (forall (e : Env) (obs : ObsDict),
      _win_condition e = 1%Z ->
      rwd_solved (get_reward_dict e obs) = 1%Z /\
      rwd_done (get_reward_dict e obs) = 1%Z /\
      rwd_sparse (get_reward_dict e obs)
        = 1 - np_round2 (obs_time (obs_dict e)) / 20) /\
  (forall (e : Env),
      let '(px, py, _) := pelvis_xpos (sim (opponent e)) in
      let '(ox, oy, _) := obs_opponent_pose (obs_dict e) in
      norm2 (px - ox) (py - oy) <= win_distance e /\ startFlag e = true ->
      _win_condition e = 1%Z) /\
  (forall (e : Env) (obs : ObsDict),
      rwd_solved (get_reward_dict e obs) <> 1%Z ->
      rwd_solved (get_reward_dict e obs) = 0%Z /\
      rwd_sparse (get_reward_dict e obs) = 0) /\
  (forall (e : Env) (obs : ObsDict) (k : Z),
      _win_condition e = 1%Z ->
      obs_time (obs_dict e) = IZR k / 100 ->
      rwd_sparse (get_reward_dict e obs) = 1 - obs_time (obs_dict e) / 20).
Proof.
  assert (Hwin : forall (e : Env) (obs : ObsDict),
             _win_condition e = 1%Z ->
             rwd_solved (get_reward_dict e obs) = 1%Z /\
             rwd_done (get_reward_dict e obs) = 1%Z /\
             rwd_sparse (get_reward_dict e obs)
               = 1 - np_round2 (obs_time (obs_dict e)) / 20).
  { intros e obs Hw. unfold get_reward_dict, _get_done, _get_score, maxTime.
    rewrite Hw.
    destruct (obs_model_root_pos obs) as [mx my].
    destruct (obs_opponent_pose obs) as [[ox oy] oa]. cbn.
    repeat split. now destruct (_lose_condition e =? 0)%Z. }
  split; [exact Hwin | split; [ | split]].
  - intros e. pose proof (_win_condition_spec e) as Hs.
    destruct (pelvis_xpos (sim (opponent e))) as [[px py] pz].
    destruct (obs_opponent_pose (obs_dict e)) as [[ox oy] oa].
    apply Hs.
  - intros e obs. unfold get_reward_dict.
    destruct (obs_model_root_pos obs) as [mx my].
    destruct (obs_opponent_pose obs) as [[ox oy] oa]. cbn.
    destruct (_win_condition_values e) as [-> | ->]; [auto | congruence].
  - intros e obs k Hw Ht. destruct (Hwin e obs Hw) as (_ & _ & ->).
    now rewrite Ht, np_round2_centi.
Qed.

(** The two places where the environment draws from the module-level
    [np.random] instead of its own generator. *)
Lemma _randomize_position_orientation_global (qpos qvel : list R) (e : Env) :
  _randomize_position_orientation qpos qvel e =
  (Return (assign_first_two (fst (rng_uniform (-6) 6 (np_global e))) qpos, qvel),
   set_np_global (snd (rng_uniform (-6) 6 (np_global e))) e).
Proof.
  unfold _randomize_position_orientation, bind, draw_np_global, ret.
  now destruct (rng_uniform (-6) 6 (np_global e)).
Qed.

Lemma _sample_task_global (e : Env) :
  task_choice e = "random" ->
  _sample_task e =
  (Return tt,
   set_current_task (nth_error ["chase"; "flee"] (fst (rng_choice 2 (np_global e))))
     (set_np_global (snd (rng_choice 2 (np_global e))) e)).
Proof.
  intros Hc. unfold _sample_task, bind, gets, draw_np_global, modify. rewrite Hc.
  cbn [String.eqb Ascii.eqb Bool.eqb].
  now destruct (rng_choice 2 (np_global e)).
Qed.

End EnvProperties.

(** ** The environment on the replayable generator *)

Lemma _win_condition_env_win (t : R) : _win_condition (env_win t true) = 1%Z.
Proof.
  unfold _win_condition. cbn.
  destruct (Rle_dec (norm2 (3 - 3.2) (0 - 0)) 0.5) as [Hd | Hd]; [reflexivity | ].
  exfalso. apply Hd. apply norm2_le; lra.
Qed.

(** C9 as stated fails when the elapsed time is not a whole number of
    hundredths: a win at time 0.004 is scored 1, not [1 - 0.004 / 20]. *)
Lemma sparse_score_rounds_the_time :
  rwd_solved (get_reward_dict (env_win 0.004 true) (obs_dict (env_win 0.004 true))) = 1%Z /\
  rwd_sparse (get_reward_dict (env_win 0.004 true) (obs_dict (env_win 0.004 true))) = 1 /\
  1 <> 1 - obs_time (obs_dict (env_win 0.004 true)) / 20.
Proof.
  pose proof (_win_condition_env_win 0.004) as Hw.
  split; [ | split].
  - unfold get_reward_dict. rewrite Hw. reflexivity.
  - unfold get_reward_dict. rewrite Hw. cbn.
    unfold _get_score, np_round2, maxTime.
    rewrite (np_rint_down (0.004 * 100) 0) by lra. lra.
  - cbn. lra.
Qed.

(** C9 at work: the win scenario at time 1.25, and the same positions before
    the setup has completed. *)
Lemma win_is_scored_by_rounded_time_witness :
  (rwd_solved (get_reward_dict (env_win 1.25 true) (obs_dict (env_win 1.25 true))) = 1%Z /\
   rwd_done (get_reward_dict (env_win 1.25 true) (obs_dict (env_win 1.25 true))) = 1%Z /\
   rwd_sparse (get_reward_dict (env_win 1.25 true) (obs_dict (env_win 1.25 true)))
     = 1 - 1.25 / 20) /\
  (rwd_solved (get_reward_dict (env_win 1.25 false) (obs_dict (env_win 1.25 false))) = 0%Z /\
   rwd_sparse (get_reward_dict (env_win 1.25 false) (obs_dict (env_win 1.25 false))) = 0).
Proof.
  pose proof (win_is_scored_by_rounded_time (G := Tape) (NP := unit))
    as (Hwin & Hcond & Hnone & Hexact).
  assert (Hw : _win_condition (env_win 1.25 true) = 1%Z).
  { pose proof (Hcond (env_win 1.25 true)) as Hc. cbn in Hc.
    apply Hc. split; [apply norm2_le; lra | reflexivity]. }
  split.
  - destruct (Hwin (env_win 1.25 true) (obs_dict (env_win 1.25 true)) Hw) as (H1 & H2 & _).
    split; [exact H1 | split; [exact H2 | ]].
    rewrite (Hexact (env_win 1.25 true) (obs_dict (env_win 1.25 true)) 125%Z Hw).
    + reflexivity.
    + cbn. lra.
  - apply (Hnone (env_win 1.25 false) (obs_dict (env_win 1.25 false))).
    unfold get_reward_dict, _win_condition. cbn.
    destruct (Rle_dec _ _); discriminate.
Defined.

Lemma variate_low : variate (0, 0)%nat = 0.
Proof. unfold variate; cbn. lra. Qed.

Lemma _get_reset_state_env0 (g : Tape) :
  exists (rest : list R) (e' : ChaseTagEnvV0 Tape unit),
    _get_reset_state (env0 g) =
      (Return (scale_unit (-6) 6 (variate (g 0%nat))
                 :: scale_unit (-6) 6 (variate (g 0%nat)) :: rest,
               [0; 0; 0; 0; 0; 0]), e') /\
    np_random e' = tape_drop 7 (tape_drop 1 tape_half) /\
    np_global e' = tape_drop 1 g.
Proof.
  unfold _get_reset_state, bind, gets. cbn [reset_type env0 String.eqb Ascii.eqb Bool.eqb].
  unfold _get_randomized_initial_state, bind, gets, draw_np_random.
  cbn [np_random env0 rng_uniform Tape_random fst snd].
  change (tape_half 0%nat) with (1, 0)%nat. rewrite variate_half.
  destruct (Rlt_dec (scale_unit 0 1 (1 / 2)) 0.5) as [L | L];
    [exfalso; unfold scale_unit in L; lra | ].
  cbn. eexists. eexists. split; [reflexivity | split; reflexivity].
Qed.

Lemma _sample_task_env0 (g : Tape) (i : Z) :
  IZR i <= INR 2 * variate (g 0%nat) < IZR i + 1 ->
  exists e' : ChaseTagEnvV0 Tape unit,
    _sample_task (env0 g) = (Return tt, e') /\
    current_task e' = nth_error ["chase"; "flee"] (Z.to_nat i) /\
    np_random e' = tape_half.
Proof.
  intros Hi. unfold _sample_task, bind, gets, draw_np_global, modify.
  cbn [task_choice env0 String.eqb Ascii.eqb Bool.eqb np_global rng_choice Tape_random].
  rewrite (Zfloor_eq i _ Hi).
  eexists. split; [reflexivity | split; reflexivity].
Qed.

(** C2 on the code: two runs of one environment that differ in nothing but
    the process-wide state of [np.random].  The generator of the environment
    is the same and is advanced alike, and yet the reset states differ in
    their first two coordinates and the sampled tasks differ. *)
Theorem reset_reads_process_wide_random_state :
  np_random (env0 tape_low) = np_random (env0 tape_half) /\
  (exists (q1 v1 q2 v2 : list R) (e1 e2 : ChaseTagEnvV0 Tape unit),
      _get_reset_state (env0 tape_low) = (Return (q1, v1), e1) /\
      _get_reset_state (env0 tape_half) = (Return (q2, v2), e2) /\
      np_random e1 = np_random e2 /\
      firstn 2 q1 = [-6; -6] /\ firstn 2 q2 = [0; 0]) /\
  (exists e1 e2 : ChaseTagEnvV0 Tape unit,
      _sample_task (env0 tape_low) = (Return tt, e1) /\
      _sample_task (env0 tape_half) = (Return tt, e2) /\
      np_random e1 = np_random e2 /\
      current_task e1 = Some "chase" /\ current_task e2 = Some "flee").
Proof.
  split; [reflexivity | split].
  - destruct (_get_reset_state_env0 tape_low) as (r1 & e1 & E1 & N1 & _).
    destruct (_get_reset_state_env0 tape_half) as (r2 & e2 & E2 & N2 & _).
    change (tape_low 0%nat) with (0, 0)%nat in E1.
    change (tape_half 0%nat) with (1, 0)%nat in E2.
    rewrite variate_low in E1. rewrite variate_half in E2.
    do 4 eexists. exists e1, e2.
    split; [exact E1 | split; [exact E2 | split; [congruence | ]]].
    cbn [firstn]. unfold scale_unit. split; repeat f_equal; lra.
  - destruct (_sample_task_env0 tape_low 0) as (e1 & E1 & T1 & N1).
    { change (tape_low 0%nat) with (0, 0)%nat. rewrite variate_low. cbn. lra. }
    destruct (_sample_task_env0 tape_half 1) as (e2 & E2 & T2 & N2).
    { change (tape_half 0%nat) with (1, 0)%nat. rewrite variate_half. cbn. lra. }
    exists e1, e2. repeat split; try assumption; congruence.
Qed.

(** * Further properties of the opponent *)

Section OpponentFrame.

Context {G NP : Type} `{NumpyRandom G} `{QuatMath} `{ColoredNoise G NP}.

Local Abbreviation Opp := (ChallengeOpponent G NP).

Lemma same_scene_refl (o : Opp) : same_scene o o.
Proof. unfold same_scene; tauto. Qed.

Lemma same_scene_trans (o1 o2 o3 : Opp) :
  same_scene o1 o2 -> same_scene o2 o3 -> same_scene o1 o3.
Proof.
  unfold same_scene.
  intros (A1 & A2 & A3 & A4 & A5 & A6) (B1 & B2 & B3 & B4 & B5 & B6).
  repeat split; congruence.
Qed.

Lemma same_config_scene (o o' : Opp) : same_config o o' -> same_scene o o'.
Proof.
  unfold same_config, same_scene. intros (S & _ & _ & P & M).
  rewrite S. repeat split; assumption.
Qed.

Lemma same_world_scene (o o' : Opp) : same_world o o' -> same_scene o o'.
Proof.
  unfold same_world, same_scene. intros (S & P & M).
  rewrite S. repeat split; assumption.
Qed.

Lemma write_pose_scene (q : Pose) (o : Opp) (vel : list R) :
  same_scene o (set_opponent_vel vel (set_sim (write_pose q (sim o)) o)).
Proof.
  unfold same_scene, write_pose. destruct q as [[x y] a].
  destruct (mocap_pos (sim o)) as [[mx my] mz]. cbn. repeat split; reflexivity.
Qed.

Lemma move_opponent_scene (vel : list R) (o o' : Opp) r :
  move_opponent vel o = (r, o') -> same_scene o o'.
Proof.
  destruct (Nat.eq_dec (List.length vel) 2) as [Hlen | Hlen].
  - destruct vel as [ | v0 [ | v1 [ | c t]]]; try discriminate Hlen.
    rewrite move_opponent_two. intros E; inversion E; subst. unfold moved.
    destruct (mocap_pos (sim o)) as [[x y] z] eqn:Hpos.
    destruct (quat2euler (mocap_quat (sim o))) as [[a b] angle].
    unfold same_scene, write_pose. cbn. rewrite Hpos. cbn. repeat split; reflexivity.
  - rewrite (move_opponent_arity _ _ Hlen). intros E; inversion E; subst.
    unfold same_scene. cbn. repeat split; reflexivity.
Qed.

Lemma random_movement_scene (o o' : Opp) r :
  random_movement o = (r, o') -> same_scene o o'.
Proof.
  unfold random_movement, bind, getattr, modify, ret.
  destruct (noise_process o) as [np | ];
    [ | intros E; inversion E; subst; apply same_scene_refl].
  destruct (rng o) as [g | ];
    [ | intros E; inversion E; subst; apply same_scene_refl].
  destruct (pink_sample np g) as [v [np' g']]; cbn.
  intros E; inversion E; subst. unfold same_scene; cbn. repeat split; reflexivity.
Qed.

Lemma update_opponent_state_scene (o o' : Opp) r :
  update_opponent_state o = (r, o') -> same_scene o o'.
Proof.
  unfold update_opponent_state, bind, getattr.
  destruct (opponent_policy o) as [p | ];
    [ | intros E; inversion E; subst; apply same_scene_refl].
  destruct ((p =? "stationary")%string || (p =? "static_stationary")%string).
  - unfold ret; cbv beta iota. apply move_opponent_scene.
  - destruct (p =? "random")%string.
    + destruct (random_movement o) as [[v | e | ] o1] eqn:Hrm;
        apply random_movement_scene in Hrm.
      * intros E. apply move_opponent_scene in E.
        exact (same_scene_trans _ _ _ Hrm E).
      * intros E; inversion E; subst; exact Hrm.
      * intros E; inversion E; subst; exact Hrm.
    + unfold raise; cbv beta iota. intros E; inversion E; subst.
      apply same_scene_refl.
Qed.

Lemma run_ticks_scene (n : nat) : forall (o o' : Opp) r,
  run_ticks n o = (r, o') -> same_scene o o'.
Proof.
  induction n as [ | n IH]; intros o o' r; cbn.
  - intros E; inversion E; subst. apply same_scene_refl.
  - unfold bind.
    destruct (update_opponent_state o) as [[[] | e | ] o1] eqn:Hu;
      apply update_opponent_state_scene in Hu.
    + intros E. apply IH in E. exact (same_scene_trans _ _ _ Hu E).
    + intros E; inversion E; subst; exact Hu.
    + intros E; inversion E; subst; exact Hu.
Qed.

Lemma reset_epilogue_scene (pose : option Pose) (o o' : Opp) r :
  reset_epilogue pose o = (r, o') -> same_scene o o'.
Proof.
  destruct (opponent_policy o) as [p | ] eqn:Hp.
  - destruct pose as [q | ].
    + rewrite (reset_epilogue_places q o p Hp). intros E; inversion E; subst.
      apply write_pose_scene.
    + rewrite (reset_epilogue_unbound o p Hp). intros E; inversion E; subst.
      apply same_scene_refl.
  - rewrite (reset_epilogue_no_policy pose o Hp). intros E; inversion E; subst.
    apply same_scene_refl.
Qed.

Lemma reset_opponent_scene (fuel : nat) (rng_arg : option G) (o o' : Opp) r :
  reset_opponent fuel rng_arg o = (r, o') -> same_scene o o'.
Proof.
  rewrite reset_opponent_split. unfold bind at 1.
  destruct (reset_prologue rng_arg o) as [[[] | e | ] o1] eqn:E1;
    apply reset_prologue_inv in E1 as (W1 & _); apply same_world_scene in W1;
    [ | intros E; inversion E; subst; exact W1
      | intros E; inversion E; subst; exact W1 ].
  unfold bind at 1.
  destruct (spawn_loop fuel 0 None o1) as [[pose | e | ] o2] eqn:E2;
    apply spawn_loop_inv in E2 as (C2 & _); try reflexivity;
    apply same_config_scene in C2;
    pose proof (same_scene_trans _ _ _ W1 C2) as W2;
    [ | intros E; inversion E; subst; exact W2
      | intros E; inversion E; subst; exact W2 ].
  intros E. apply reset_epilogue_scene in E.
  exact (same_scene_trans _ _ _ W2 E).
Qed.

(** X1.  An episode of the opponent, a reset followed by any number of ticks,
    touches nothing of the scene but the opponent's planar position and
    orientation: the root and pelvis positions of the agent, the simulation
    time, the height of the mocap body, the probabilities and
    [min_spawn_distance] are what they were, whether the episode returns,
    raises or is still in its sampling loop. *)
Theorem episode_keeps_the_scene (fuel n : nat) (rng_arg : option G)
    (o o' : Opp) (r : outcome unit) :
  episode fuel rng_arg n o = (r, o') -> same_scene o o'.
Proof.
  unfold episode, bind.
  destruct (reset_opponent fuel rng_arg o) as [[[] | e | ] o1] eqn:E1;
    apply reset_opponent_scene in E1.
  - intros E. apply run_ticks_scene in E. exact (same_scene_trans _ _ _ E1 E).
  - intros E; inversion E; subst; exact E1.
  - intros E; inversion E; subst; exact E1.
Qed.

End OpponentFrame.

Lemma np_clip_near (lo hi x d : R) :
  lo <= x <= hi -> Rabs (np_clip lo hi (x - d) - x) <= Rabs d.
Proof.
  intros Hx. unfold np_clip, Rmin, Rmax.
  destruct (Rle_dec (x - d) lo); destruct (Rle_dec _ hi);
    unfold Rabs; repeat destruct (Rcase_abs _); lra.
Qed.

Lemma np_clip_unit_abs (v : R) : 0 <= np_clip (-1) 1 (Rabs v) <= 1.
Proof.
  pose proof (Rabs_pos v). unfold np_clip, Rmin, Rmax.
  destruct (Rle_dec (Rabs v) (-1)); destruct (Rle_dec _ 1); lra.
Qed.

Section OpponentSteps.

Context {G NP : Type} `{NumpyRandom G} `{QuatMath} `{ColoredNoise G NP}.

Local Abbreviation Opp := (ChallengeOpponent G NP).

(** A tick that returns has integrated one two-component command. *)
Lemma update_opponent_state_returns (o o' : Opp) :
  update_opponent_state o = (Return tt, o') ->
  exists (v0 v1 : R) (o1 : Opp),
    sim o1 = sim o /\ o' = moved v0 v1 o1 /\
    ((exists p, opponent_policy o = Some p /\
                (p = "stationary" \/ p = "static_stationary") /\
                v0 = 0 /\ v1 = 0) \/
     (opponent_policy o = Some "random" /\
      exists np g np' g',
        noise_process o = Some np /\ rng o = Some g /\
        pink_sample np g = ([v0; v1], (np', g')))).
Proof.
  unfold update_opponent_state, bind, getattr.
  destruct (opponent_policy o) as [p | ] eqn:Hp; [ | discriminate].
  destruct ((p =? "stationary")%string || (p =? "static_stationary")%string) eqn:Hs.
  - unfold ret; cbv beta iota. rewrite move_opponent_two.
    intros E; inversion E; subst. exists 0, 0, o.
    split; [reflexivity | split; [reflexivity | left]].
    exists p. apply orb_true_iff in Hs as [Hs | Hs]; apply String.eqb_eq in Hs; auto.
  - destruct (p =? "random")%string eqn:Hr; [ | discriminate].
    apply String.eqb_eq in Hr. subst p.
    unfold random_movement, bind, getattr, modify, ret.
    destruct (noise_process o) as [np | ] eqn:Hn; [ | discriminate].
    destruct (rng o) as [g | ] eqn:Hg; [ | discriminate].
    destruct (pink_sample np g) as [vel [np' g']] eqn:Hsample; cbv beta iota.
    destruct (Nat.eq_dec (List.length vel) 2) as [Hlen | Hlen].
    + destruct vel as [ | v0 [ | v1 [ | c t]]]; try discriminate Hlen.
      rewrite move_opponent_two. intros E; inversion E; subst.
      exists v0, v1, (set_noise_process (Some np') (set_rng (Some g') o)).
      split; [reflexivity | split; [reflexivity | right]].
      split; [reflexivity | ]. now exists np, g, np', g'.
    + rewrite (move_opponent_arity _ _ Hlen). discriminate.
Qed.

Lemma moved_step_length (v0 v1 : R) (o1 o : Opp) :
  sim o1 = sim o -> in_arena o -> step_length o (moved v0 v1 o1) <= 0.01.
Proof.
  intros Hs Ho. unfold step_length, moved, in_arena, write_pose in *. rewrite Hs.
  destruct (mocap_pos (sim o)) as [[x y] z].
  destruct (quat2euler (mocap_quat (sim o))) as [[a b] angle]. cbn.
  destruct Ho as [Hx Hy].
  pose proof (np_clip_unit_abs v0) as Hc. set (c0 := np_clip (-1) 1 (Rabs v0)) in *.
  set (cs := cos (angle + 0.5 * PI)). set (sn := sin (angle + 0.5 * PI)).
  pose proof (np_clip_near (-5.5) 5.5 x (dt * (c0 * cs)) Hx) as Dx.
  pose proof (np_clip_near (-5.5) 5.5 y (dt * (c0 * sn)) Hy) as Dy.
  apply Rsqr_le_abs_1 in Dx. apply Rsqr_le_abs_1 in Dy. unfold Rsqr in Dx, Dy.
  pose proof (sin2_cos2 (angle + 0.5 * PI)) as E. unfold Rsqr in E.
  fold cs sn in E.
  apply norm2_le; [lra | ].
  assert (dt * (c0 * cs) * (dt * (c0 * cs)) + dt * (c0 * sn) * (dt * (c0 * sn))
          = dt * dt * (c0 * c0) * (sn * sn + cs * cs)) as Esum by ring.
  rewrite E in Esum. unfold dt in *. nra.
Qed.

(** X2.  A tick that returns moves an opponent that is inside the arena by at
    most one hundredth of a unit, whatever the policy and however large the
    noise sample is: the command is clipped to unit speed before it is
    integrated over [dt = 0.01], and the clamp never lengthens the step. *)
Theorem tick_moves_at_most_one_step (o o' : Opp) :
  in_arena o ->
  update_opponent_state o = (Return tt, o') ->
  step_length o o' <= 0.01.
Proof.
  intros Ho E.
  apply update_opponent_state_returns in E as (v0 & v1 & o1 & Hs & -> & _).
  now apply moved_step_length.
Qed.

(** X3.  After a tick that returns, [opponent_vel] holds a two-component
    velocity whose linear part is non-negative, and the pose update of that
    tick is the integration of this recorded velocity clipped to [[-1, 1]]:
    the record itself is not clipped. *)
Theorem tick_records_the_velocity_it_integrates (o o' : Opp) :
  update_opponent_state o = (Return tt, o') ->
  exists a b : R,
    opponent_vel o' = [a; b] /\ 0 <= a /\
    integrates_command (np_clip (-1) 1 a) (np_clip (-1) 1 b) o o'.
Proof.
  intros E.
  apply update_opponent_state_returns in E as (v0 & v1 & o1 & Hs & -> & _).
  exists (Rabs v0), v1. split; [ | split].
  - unfold moved. destruct (mocap_pos (sim o1)) as [[x y] z].
    now destruct (quat2euler (mocap_quat (sim o1))) as [[a b] angle].
  - apply Rabs_pos.
  - apply (integrates_command_sim _ _ o1 o _ Hs).
    apply moved_integrates.
Qed.

(** X4.  A reset that returns leaves the recorded velocity at zero, and when
    the policy it returns with is [static_stationary] the opponent stands at
    [(0, -5)] with heading 0, whatever pose the loop sampled, whatever
    [min_spawn_distance] is and wherever the agent is. *)
Theorem reset_returns_at_rest (fuel : nat) (rng_arg : option G) (o o' : Opp) :
  reset_opponent fuel rng_arg o = (Return tt, o') ->
  opponent_vel o' = [0; 0] /\
  (opponent_policy o' = Some "static_stationary" -> placed_at (0, -5, 0) o').
Proof.
  intros E.
  apply reset_opponent_returns in E as (o1 & o2 & pose & _ & _ & E).
  destruct (opponent_policy o2) as [p | ] eqn:Hp.
  - destruct pose as [q | ].
    + rewrite (reset_epilogue_places q o2 p Hp) in E. inversion E; subst.
      split; [reflexivity | ]. cbn [opponent_policy set_opponent_vel set_sim].
      rewrite Hp. intros Hs. inversion Hs; subst p. cbn [String.eqb Ascii.eqb Bool.eqb].
      apply write_pose_placed.
    + rewrite (reset_epilogue_unbound o2 p Hp) in E. discriminate.
  - rewrite (reset_epilogue_no_policy pose o2 Hp) in E. discriminate.
Qed.

End OpponentSteps.

Section OpponentResets.

Context {G NP : Type} `{NumpyRandom G} `{QuatMath} `{ColoredNoise G NP}.

Local Abbreviation Opp := (ChallengeOpponent G NP).

Lemma uniform_keeps_noise (lo hi : R) (o o' : Opp) r :
  uniform lo hi o = (r, o') ->
  noise_process o' = noise_process o /\ (rng o <> None -> rng o' <> None).
Proof.
  destruct (uniform_cases lo hi o) as [[Hg ->] | (g & Hg & ->)];
    intros E; inversion E; subst; cbn; split; auto; discriminate.
Qed.

Lemma draw_pose_keeps_noise (o o' : Opp) r :
  draw_pose o = (r, o') ->
  noise_process o' = noise_process o /\ (rng o <> None -> rng o' <> None).
Proof.
  unfold draw_pose. unfold bind at 1.
  destruct (uniform (-5) 5 o) as [[x | e | ] o1] eqn:E1;
    apply uniform_keeps_noise in E1 as [N1 G1];
    [ | intros E; inversion E; subst; auto | intros E; inversion E; subst; auto ].
  unfold bind at 1.
  destruct (uniform (-5) 5 o1) as [[y | e | ] o2] eqn:E2;
    apply uniform_keeps_noise in E2 as [N2 G2];
    [ | intros E; inversion E; subst; split; [congruence | auto]
      | intros E; inversion E; subst; split; [congruence | auto] ].
  unfold bind at 1.
  destruct (uniform (- 2 * PI) (2 * PI) o2) as [[a | e | ] o3] eqn:E3;
    apply uniform_keeps_noise in E3 as [N3 G3];
    unfold ret; intros E; inversion E; subst; split; solve [congruence | auto].
Qed.

Lemma spawn_loop_keeps_noise (fuel : nat) :
  forall (d : R) (p : option Pose) (o o' : Opp) r,
  spawn_loop fuel d p o = (r, o') ->
  noise_process o' = noise_process o /\ (rng o <> None -> rng o' <> None).
Proof.
  induction fuel as [ | fuel IH]; intros d p o o' r;
    destruct (Rlt_dec d (min_spawn_distance o)) as [Hd | Hd].
  - rewrite (spawn_loop_timeout _ _ _ Hd). intros E; inversion E; subst; auto.
  - rewrite (spawn_loop_done _ _ _ _ Hd). intros E; inversion E; subst; auto.
  - rewrite (spawn_loop_step _ _ _ _ Hd). unfold bind.
    destruct (draw_pose o) as [[q | e | ] o1] eqn:Hq;
      apply draw_pose_keeps_noise in Hq as [N1 G1].
    + intros E. apply IH in E as [N2 G2]. split; [congruence | auto].
    + intros E; inversion E; subst; auto.
    + intros E; inversion E; subst; auto.
  - rewrite (spawn_loop_done _ _ _ _ Hd). intros E; inversion E; subst; auto.
Qed.

(** A tick of an opponent whose policy, noise process and generator are in
    place returns or fails the arity assertion. *)
Lemma update_opponent_state_prepared (o o' : Opp) (r : outcome unit) :
  valid_policy (opponent_policy o) ->
  noise_process o <> None -> rng o <> None ->
  update_opponent_state o = (r, o') -> r = Return tt \/ r = Raise AssertionError.
Proof.
  intros [Hp | [Hp | Hp]] Hn Hg.
  - rewrite (update_opponent_state_stationary _ o Hp (or_intror eq_refl)).
    intros E; inversion E; auto.
  - rewrite (update_opponent_state_stationary _ o Hp (or_introl eq_refl)).
    intros E; inversion E; auto.
  - destruct (noise_process o) as [np | ] eqn:En; [ | congruence].
    destruct (rng o) as [g | ] eqn:Eg; [ | congruence].
    destruct (pink_sample np g) as [vel [np' g']] eqn:Es.
    rewrite (update_opponent_state_random o np np' g g' vel Hp En Eg Es).
    destruct (Nat.eq_dec (List.length vel) 2) as [Hlen | Hlen].
    + destruct vel as [ | v0 [ | v1 [ | c t]]]; try discriminate Hlen.
      rewrite move_opponent_two. intros E; inversion E; auto.
    + rewrite (move_opponent_arity _ _ Hlen). intros E; inversion E; auto.
Qed.

(** X5.  When the reset is handed a generator and the first three
    probabilities sum to at least 1, a reset that returns has drawn one of
    the three policies, and the tick that follows it can fail in one way
    only: on a noise sample that does not have two components.  It never
    fails on a missing or unknown policy, generator or noise process. *)
Theorem reset_prepares_the_tick `{!NumpyRandomSpec G}
    (fuel : nat) (g : G) (o o' : Opp) (p0 p1 p2 : R) (rest : list R) :
  opponent_probabilities o = p0 :: p1 :: p2 :: rest ->
  1 <= p0 + p1 + p2 ->
  reset_opponent fuel (Some g) o = (Return tt, o') ->
  valid_policy (opponent_policy o') /\
  forall (r : outcome unit) (o'' : Opp),
    update_opponent_state o' = (r, o'') -> r = Return tt \/ r = Raise AssertionError.
Proof.
  intros Hprobs Hsum E.
  apply reset_opponent_returns in E as (o1 & o2 & pose & E1 & E2 & E3).
  destruct (pink_new g) as [np g1] eqn:Hpink.
  rewrite (reset_prologue_Some g g1 np o Hpink) in E1.
  set (oi := set_opponent_vel [0; 0]
               (set_noise_process (Some np) (set_rng (Some g1) (set_rng (Some g) o)))) in *.
  destruct (sample_opponent_policy_covers oi g1 p0 p1 p2 rest eq_refl Hprobs Hsum)
    as (o1' & E1' & Hvalid).
  rewrite E1 in E1'. inversion E1'; subst o1'. clear E1'.
  assert (noise_process o1 <> None /\ rng o1 <> None) as [Hn1 Hg1].
  { pose proof (sample_opponent_policy_cases oi g1 p0 p1 p2 rest eq_refl Hprobs) as Ec.
    cbv zeta in Ec. rewrite E1 in Ec. inversion Ec as [Eo]. clear Ec.
    repeat destruct (Rlt_dec _ _); cbn; split; discriminate. }
  pose proof (spawn_loop_keeps_noise _ _ _ _ _ _ E2) as [Hn2 Hg2].
  pose proof (spawn_loop_inv _ _ _ _ _ _ (eq_refl : loop_inv o1 0 None) E2)
    as ((_ & Hp2 & _) & _).
  destruct (opponent_policy o2) as [p | ] eqn:Hp;
    [ | rewrite (reset_epilogue_no_policy pose o2 Hp) in E3; discriminate ].
  destruct pose as [q | ];
    [ | rewrite (reset_epilogue_unbound o2 p Hp) in E3; discriminate ].
  rewrite (reset_epilogue_places q o2 p Hp) in E3. injection E3 as <-.
  assert (Hvalid' : valid_policy (opponent_policy o2)) by (rewrite Hp, Hp2; exact Hvalid).
  split; [exact Hvalid' | ].
  intros r o''. apply update_opponent_state_prepared.
  - exact Hvalid'.
  - cbn. rewrite Hn2. exact Hn1.
  - cbn. auto.
Qed.

Lemma sample_opponent_policy_rng (o o' : Opp) :
  sample_opponent_policy o = (Return tt, o') -> rng o' <> None.
Proof.
  unfold sample_opponent_policy.
  destruct (uniform_cases 0 1 o) as [[Hn E] | (g & Hg & E)].
  - unfold bind. rewrite E. discriminate.
  - rewrite (bind_Return _ _ _ _ _ E).
    unfold bind, gets, getitem, modify, ret, raise.
    cbn [opponent_probabilities set_rng].
    destruct (opponent_probabilities o) as [ | p0 [ | p1 [ | p2 rest]]]; cbn [nth_error];
      repeat match goal with
             | |- context [Rlt_dec ?a ?b] => destruct (Rlt_dec a b)
             end;
      intros E'; inversion E'; subst; cbn; discriminate.
Qed.

Lemma reset_prologue_rng (rng_arg : option G) (o o1 : Opp) :
  reset_prologue rng_arg o = (Return tt, o1) -> rng o1 <> None.
Proof.
  unfold reset_prologue. intros E.
  apply bind_inv in E as ([] & oa & _ & E).
  apply bind_inv in E as ([] & ob & _ & E).
  now apply sample_opponent_policy_rng in E.
Qed.

(** X6.  When [min_spawn_distance] exceeds the distance from the agent's
    root to the farthest corner of the sampling square [[-5, 5]^2], a reset
    whose policy has been sampled never returns, however many poses it
    draws: the loop has no retry bound and no pose can satisfy it. *)
Theorem reset_never_returns_out_of_reach `{!NumpyRandomSpec G}
    (fuel : nat) (rng_arg : option G) (o o1 : Opp) (rx ry rz : R) :
  reset_prologue rng_arg o = (Return tt, o1) ->
  root_xpos (sim o) = (rx, ry, rz) ->
  0 < min_spawn_distance o ->
  (5 + Rabs rx) * (5 + Rabs rx) + (5 + Rabs ry) * (5 + Rabs ry)
    < min_spawn_distance o * min_spawn_distance o ->
  fst (reset_opponent fuel rng_arg o) = OutOfFuel.
Proof.
  intros E1 Hroot Hpos Hfar.
  pose proof (reset_prologue_rng _ _ _ E1) as Hg.
  pose proof (reset_prologue_inv _ _ _ _ E1) as ((S1 & _ & M1) & _).
  rewrite reset_opponent_split. rewrite (bind_Return _ _ _ _ _ E1).
  apply bind_Timeout. apply spawn_loop_unreachable.
  - exact Hg.
  - rewrite M1. exact Hpos.
  - intros [[x y] a] (Hx & Hy & _). unfold spawn_distance.
    rewrite S1, Hroot, M1.
    apply norm2_lt; [lra | ].
    pose proof (Rabs_pos rx). pose proof (Rabs_pos ry).
    assert ((x - rx) * (x - rx) <= (5 + Rabs rx) * (5 + Rabs rx)).
    { unfold Rabs in *. destruct (Rcase_abs rx); nra. }
    assert ((y - ry) * (y - ry) <= (5 + Rabs ry) * (5 + Rabs ry)).
    { unfold Rabs in *. destruct (Rcase_abs ry); nra. }
    lra.
Qed.

Lemma sample_opponent_policy_no_rng (o : Opp) :
  rng o = None -> sample_opponent_policy o = (Raise (AttributeError "rng"), o).
Proof.
  intros Hg. unfold sample_opponent_policy.
  destruct (uniform_cases 0 1 o) as [[_ E] | (g & Hg' & _)]; [ | congruence].
  unfold bind. now rewrite E.
Qed.

Lemma sample_opponent_policy_empty (o : Opp) (g : G) :
  rng o = Some g -> opponent_probabilities o = [] ->
  sample_opponent_policy o =
  (Raise IndexError, set_rng (Some (snd (rng_uniform 0 1 g))) o).
Proof.
  intros Hg Hp. unfold sample_opponent_policy.
  destruct (uniform_cases 0 1 o) as [[Hn _] | (g' & Hg' & E)]; [congruence | ].
  assert (g' = g) by congruence; subst g'.
  rewrite (bind_Return _ _ _ _ _ E).
  unfold bind at 1, gets at 1. cbn [opponent_probabilities set_rng]. rewrite Hp.
  reflexivity.
Qed.

Lemma sample_opponent_policy_single (o : Opp) (g : G) (p0 : R) :
  rng o = Some g -> opponent_probabilities o = [p0] ->
  sample_opponent_policy o =
  if Rlt_dec (fst (rng_uniform 0 1 g)) p0
  then (Return tt,
        set_opponent_policy (Some "static_stationary")
          (set_rng (Some (snd (rng_uniform 0 1 g))) o))
  else (Raise IndexError, set_rng (Some (snd (rng_uniform 0 1 g))) o).
Proof.
  intros Hg Hp. unfold sample_opponent_policy.
  destruct (uniform_cases 0 1 o) as [[Hn _] | (g' & Hg' & E)]; [congruence | ].
  assert (g' = g) by congruence; subst g'.
  rewrite (bind_Return _ _ _ _ _ E).
  unfold bind at 1, gets at 1. cbn [opponent_probabilities set_rng]. rewrite Hp.
  unfold getitem at 1; cbn [nth_error]. unfold bind at 1, ret at 1.
  destruct (Rlt_dec _ p0); reflexivity.
Qed.

(** X7.  The constructor fails before anything is placed when it is given no
    generator ([AttributeError] on [rng]) and when the probability list is
    empty ([IndexError]); a list with a single entry [p0] is accepted as long
    as the first draw falls below [p0], and is only found too short
    ([IndexError]) when the draw reaches the missing second entry. *)
Theorem constructor_fails_on_missing_parts :
  (forall (fuel : nat) (s : Sim) (probabilities : list R) (msd : R),
      exists o : Opp,
        ChallengeOpponent_init fuel s None probabilities msd
          = (Raise (AttributeError "rng"), o) /\ sim o = s) /\
  (forall (fuel : nat) (s : Sim) (g : G) (msd : R),
      exists o : Opp,
        ChallengeOpponent_init fuel s (Some g) [] msd = (Raise IndexError, o) /\
        sim o = s) /\
  (forall (fuel : nat) (s : Sim) (g : G) (p0 msd : R),
      let u := fst (rng_uniform 0 1 (snd (pink_new g))) in
      (u < p0 ->
       fst (ChallengeOpponent_init fuel s (Some g) [p0] msd) <> Raise IndexError) /\
      (~ u < p0 ->
       fst (ChallengeOpponent_init fuel s (Some g) [p0] msd) = Raise IndexError /\
       sim (snd (ChallengeOpponent_init fuel s (Some g) [p0] msd)) = s)).
Proof.
  split; [ | split].
  - intros fuel s probabilities msd. eexists. split.
    + unfold ChallengeOpponent_init. rewrite reset_opponent_split.
      unfold bind at 1. rewrite reset_prologue_None.
      rewrite sample_opponent_policy_no_rng by reflexivity. reflexivity.
    + reflexivity.
  - intros fuel s g msd. destruct (pink_new g) as [np g1] eqn:Hpink.
    eexists. split.
    + unfold ChallengeOpponent_init. rewrite reset_opponent_split.
      unfold bind at 1. rewrite (reset_prologue_Some g g1 np _ Hpink).
      rewrite (sample_opponent_policy_empty _ g1) by reflexivity. reflexivity.
    + reflexivity.
  - intros fuel s g p0 msd. cbv zeta.
    destruct (pink_new g) as [np g1] eqn:Hpink. cbn [snd].
    set (oi := set_opponent_vel [0; 0]
                 (set_noise_process (Some np)
                    (set_rng (Some g1)
                       (set_rng (Some g)
                          {| sim := s; rng := None; noise_process := None;
                             opponent_policy := None; opponent_vel := [];
                             opponent_probabilities := [p0];
                             min_spawn_distance := msd |})))).
    assert (Einit :
              ChallengeOpponent_init fuel s (Some g) [p0] msd =
              if Rlt_dec (fst (rng_uniform 0 1 g1)) p0
              then (pose <- spawn_loop fuel 0 None ;; reset_epilogue pose)
                     (set_opponent_policy (Some "static_stationary")
                        (set_rng (Some (snd (rng_uniform 0 1 g1))) oi))
              else (Raise IndexError, set_rng (Some (snd (rng_uniform 0 1 g1))) oi)).
    { unfold ChallengeOpponent_init. rewrite reset_opponent_split.
      unfold bind at 1. rewrite (reset_prologue_Some g g1 np _ Hpink). fold oi.
      rewrite (sample_opponent_policy_single oi g1 p0) by reflexivity.
      destruct (Rlt_dec (fst (rng_uniform 0 1 g1)) p0); reflexivity. }
    rewrite Einit.
    destruct (Rlt_dec (fst (rng_uniform 0 1 g1)) p0) as [L | L]; split; intros L';
      try contradiction.
    + match goal with
      | |- fst (bind ?m ?k ?s) <> _ =>
          destruct (m s) as [[pose | e | ] o2] eqn:E2
      end.
      * unfold bind. rewrite E2.
        apply spawn_loop_inv in E2 as ((_ & Hp2 & _) & _); [ | reflexivity].
        cbn in Hp2.
        destruct pose as [q | ].
        -- rewrite (reset_epilogue_places q o2 _ Hp2). discriminate.
        -- rewrite (reset_epilogue_unbound o2 _ Hp2). discriminate.
      * unfold bind. rewrite E2. cbn.
        apply spawn_loop_inv in E2 as (_ & R2 & _); [ | reflexivity].
        rewrite (R2 e eq_refl). discriminate.
      * unfold bind. rewrite E2. discriminate.
    + split; reflexivity.
Qed.

End OpponentResets.

(** ** The further properties on the replayable generator *)

Section ReplayMore.

#[local] Existing Instance Euler_store.

Local Abbreviation TOpp := (ChallengeOpponent Tape unit).

Lemma reset_opp_static :
  exists o' : TOpp,
    reset_opponent 1 (Some tape_half) (opp_static 2 tape_half) = (Return tt, o') /\
    opponent_policy o' = Some "static_stationary".
Proof.
  eexists. split.
  - rewrite reset_opponent_split.
    rewrite (bind_Return _ _ _ _ _ (reset_prologue_static 2 tape_half)).
    erewrite bind_Return;
      [ | apply spawn_loop_origin with (t := tape_drop 1 tape_half);
          try reflexivity; cbn; lra ].
    apply reset_epilogue_places with (p := "static_stationary"). reflexivity.
  - reflexivity.
Qed.

(** X1 at work: a reset of the default opponent followed by two ticks. *)
Lemma episode_keeps_the_scene_witness :
  same_scene (opp0 None tape_half)
    (snd (episode 1 (Some tape_half) 2 (opp0 None tape_half))).
Proof.
  apply (episode_keeps_the_scene 1 2 (Some tape_half) (opp0 None tape_half) _
           (fst (episode 1 (Some tape_half) 2 (opp0 None tape_half)))).
  apply surjective_pairing.
Defined.

(** X2 at work: a tick of the random policy on the noise sample [(0, 4)]. *)
Lemma tick_moves_at_most_one_step_witness :
  step_length (opp0 (Some "random") tape_turn)
    (moved 0 4 (set_noise_process (Some tt)
                  (set_rng (Some (tape_drop 2 tape_turn))
                     (opp0 (Some "random") tape_turn)))) <= 0.01.
Proof.
  apply tick_moves_at_most_one_step.
  - apply in_arena_opp0.
  - exact update_opponent_state_turn.
Defined.

(** X3 at work: the same tick records the velocity [(0, 4)]. *)
Lemma tick_records_the_velocity_it_integrates_witness :
  exists a b : R,
    opponent_vel (moved 0 4 (set_noise_process (Some tt)
                               (set_rng (Some (tape_drop 2 tape_turn))
                                  (opp0 (Some "random") tape_turn)))) = [a; b] /\
    0 <= a /\
    integrates_command (np_clip (-1) 1 a) (np_clip (-1) 1 b)
      (opp0 (Some "random") tape_turn)
      (moved 0 4 (set_noise_process (Some tt)
                    (set_rng (Some (tape_drop 2 tape_turn))
                       (opp0 (Some "random") tape_turn)))).
Proof.
  apply tick_records_the_velocity_it_integrates.
  exact update_opponent_state_turn.
Defined.

(** X4 at work: the always-static opponent with the agent three metres from
    the origin. *)
Lemma reset_returns_at_rest_witness :
  exists o' : TOpp,
    reset_opponent 1 (Some tape_half) (opp_static 2 tape_half) = (Return tt, o') /\
    opponent_vel o' = [0; 0] /\ placed_at (0, -5, 0) o'.
Proof.
  destruct reset_opp_static as (o' & E & Hp).
  destruct (reset_returns_at_rest 1 (Some tape_half) (opp_static 2 tape_half) o' E)
    as [Hv Hplace].
  exists o'. split; [exact E | split; [exact Hv | exact (Hplace Hp)]].
Defined.

(** X5 at work: the default probabilities, which sum to 1. *)
Lemma reset_prepares_the_tick_witness :
  exists o' : TOpp,
    reset_opponent 1 (Some tape_half) (opp0 None tape_half) = (Return tt, o') /\
    valid_policy (opponent_policy o') /\
    (fst (update_opponent_state o') = Return tt \/
     fst (update_opponent_state o') = Raise AssertionError).
Proof.
  destruct (reset_opp0 None) as (o' & E & _ & _).
  destruct (reset_prepares_the_tick 1 tape_half (opp0 None tape_half) o'
              0.1 0.45 0.45 [] eq_refl ltac:(lra) E) as [Hvalid Htick].
  exists o'. split; [exact E | split; [exact Hvalid | ]].
  apply (Htick _ (snd (update_opponent_state o'))). apply surjective_pairing.
Defined.

(** X6 at work: [min_spawn_distance = 100] with the agent at [(3, 0)]. *)
Lemma reset_never_returns_out_of_reach_witness :
  fst (reset_opponent 7 (Some tape_half) (opp_static 100 tape_half)) = OutOfFuel.
Proof.
  apply (reset_never_returns_out_of_reach 7 (Some tape_half) (opp_static 100 tape_half)
           _ 3 0 1 (reset_prologue_static 100 tape_half) eq_refl).
  - cbn. lra.
  - cbn. rewrite (Rabs_pos_eq 3), Rabs_R0 by lra. lra.
Defined.

(** X7 at work: a single probability of 1 is always accepted. *)
Lemma constructor_fails_on_missing_parts_witness :
  fst (ChallengeOpponent_init 1 sim0 (Some tape_half) [1] 2) <> Raise IndexError.
Proof.
  pose proof (constructor_fails_on_missing_parts (G := Tape) (NP := unit))
    as (_ & _ & Hsingle).
  apply (Hsingle 1%nat sim0 tape_half 1 2).
  cbn [pink_new Tape_noise snd rng_uniform Tape_random fst].
  pose proof (variate_unit (tape_half 0%nat)). unfold scale_unit. lra.
Defined.

End ReplayMore.

(** * Further properties of the episode logic *)

Lemma np_rint_error (x : R) : Rabs (IZR (np_rint x) - x) <= 1 / 2.
Proof.
  unfold np_rint. pose proof (Zfloor_bound x) as [Hlo Hhi].
  destruct (Rlt_dec (x - IZR (Zfloor x)) (1 / 2)) as [L | L].
  - unfold Rabs. destruct (Rcase_abs _); lra.
  - destruct (Rlt_dec (1 / 2) (x - IZR (Zfloor x))) as [U | U].
    + rewrite plus_IZR. unfold Rabs. destruct (Rcase_abs _); lra.
    + destruct (Z.even (Zfloor x)).
      * unfold Rabs. destruct (Rcase_abs _); lra.
      * rewrite plus_IZR. unfold Rabs. destruct (Rcase_abs _); lra.
Qed.

Lemma np_rint_upper (x : R) (k : Z) : x <= IZR k -> (np_rint x <= k)%Z.
Proof.
  intros Hx. unfold np_rint. pose proof (Zfloor_bound x) as [Hlo Hhi].
  assert (Zfloor x <= k)%Z as Hf by (apply le_IZR; lra).
  assert (Zfloor x = k \/ Zfloor x + 1 <= k)%Z as [Heq | Hlt] by lia.
  - rewrite Heq in *.
    destruct (Rlt_dec (x - IZR k) (1 / 2)); [lia | exfalso; lra].
  - destruct (Rlt_dec _ _); [lia | ].
    destruct (Rlt_dec _ _); [lia | ].
    destruct (Z.even _); lia.
Qed.

Lemma np_rint_lower (x : R) (k : Z) : IZR k <= x -> (k <= np_rint x)%Z.
Proof.
  intros Hx. unfold np_rint.
  assert (k <= Zfloor x)%Z as Hf by (now apply Zfloor_lub).
  destruct (Rlt_dec _ _); [lia | ].
  destruct (Rlt_dec _ _); [lia | ].
  destruct (Z.even _); lia.
Qed.

Lemma _get_score_after_maxTime (time : R) : 20 <= time -> _get_score time <= 0.
Proof.
  intros H20. unfold _get_score, np_round2, maxTime.
  assert (2000 <= np_rint (time * 100))%Z as Hk by (apply np_rint_lower; lra).
  apply IZR_le in Hk. lra.
Qed.

(** X8.  The score [1 - round(time, 2) / 20] differs from [1 - time / 20] by
    at most 0.00025; it lies in [[0, 1]] for every time in [[0, 20]], and it
    is zero or negative once the time has reached [maxTime]. *)
Theorem score_follows_the_clock (time : R) :
  Rabs (_get_score time - (1 - time / 20)) <= 0.00025 /\
  (0 <= time <= 20 -> 0 <= _get_score time <= 1) /\
  (20 <= time -> _get_score time <= 0).
Proof.
  unfold _get_score, np_round2, maxTime.
  pose proof (np_rint_error (time * 100)) as Herr.
  set (k := np_rint (time * 100)) in *.
  split; [ | split].
  - replace (1 - IZR k / 100 / 20 - (1 - time / 20))
      with (- ((IZR k - time * 100) / 2000)) by field.
    rewrite Rabs_Ropp. unfold Rdiv at 1. rewrite Rabs_mult.
    rewrite (Rabs_pos_eq (/ 2000)) by lra. lra.
  - intros [H0 H20].
    assert (0 <= k)%Z as Hk0 by (apply np_rint_lower; simpl; lra).
    assert (k <= 2000)%Z as Hk1 by (apply np_rint_upper; lra).
    apply IZR_le in Hk0, Hk1. lra.
  - intros H20.
    assert (2000 <= k)%Z as Hk by (apply np_rint_lower; lra).
    apply IZR_le in Hk. lra.
Qed.

Section EpisodeFlags.

Context {G NP : Type} `{NumpyRandom G}.

Local Abbreviation Env := (ChaseTagEnvV0 G NP).

Lemma _lose_condition_values (e : Env) :
  _lose_condition e = 0%Z \/ _lose_condition e = 1%Z.
Proof.
  unfold _lose_condition.
  destruct (pelvis_xpos (sim (opponent e))) as [[px py] pz].
  repeat destruct (Rlt_dec _ _); try destruct (Rle_dec _ _); auto.
Qed.

(** X9.  The lose flag is 1 exactly when the pelvis is below 0.5, or the
    observed time has reached 20, or the pelvis is more than 6.5 away from
    the origin along one axis; it does not look at the opponent or at
    [startFlag].  The done flag is 1 exactly when the lose flag or the win
    flag is, and all three flags are 0 or 1. *)
Theorem termination_flags (e : Env) :
  let '(px, py, pz) := pelvis_xpos (sim (opponent e)) in
  (_lose_condition e = 1%Z <->
   pz < 0.5 \/ 20 <= obs_time (obs_dict e) \/ 6.5 < Rabs px \/ 6.5 < Rabs py) /\
  (_get_done e = 1%Z <-> _lose_condition e = 1%Z \/ _win_condition e = 1%Z) /\
  (_lose_condition e = 0%Z \/ _lose_condition e = 1%Z) /\
  (_win_condition e = 0%Z \/ _win_condition e = 1%Z) /\
  (_get_done e = 0%Z \/ _get_done e = 1%Z).
Proof.
  pose proof (_lose_condition_values e) as Hl.
  pose proof (_win_condition_values e) as Hw.
  unfold _get_done. unfold _lose_condition in *. unfold maxTime in *.
  destruct (pelvis_xpos (sim (opponent e))) as [[px py] pz].
  split; [ | split; [ | split; [exact Hl | split; [exact Hw | ]]]].
  - destruct (Rlt_dec pz 0.5); [split; auto | ].
    destruct (Rle_dec 20 (obs_time (obs_dict e))); [split; auto | ].
    destruct (Rlt_dec 6.5 (Rabs px)); [split; auto | ].
    destruct (Rlt_dec 6.5 (Rabs py)); [split; auto | ].
    split; [discriminate | ]. intros [L | [L | [L | L]]]; contradiction.
  - destruct Hl as [-> | ->]; destruct Hw as [-> | ->]; cbn;
      split; auto; intros [L | L]; auto; discriminate.
  - destruct Hl as [-> | ->]; destruct Hw as [-> | ->]; cbn; auto.
Qed.

(** X10.  Until the setup has completed ([startFlag] unset) no step is ever a
    win: [solved] and [sparse] are 0 however close the opponent is, and
    [done] is then exactly the lose flag, which the flag does not gate. *)
Theorem no_win_before_setup (e : Env) (obs : ObsDict) :
  startFlag e = false ->
  rwd_solved (get_reward_dict e obs) = 0%Z /\
  rwd_sparse (get_reward_dict e obs) = 0 /\
  rwd_done (get_reward_dict e obs) = rwd_lose (get_reward_dict e obs).
Proof.
  intros Hflag.
  assert (Hw : _win_condition e = 0%Z).
  { unfold _win_condition. rewrite Hflag.
    destruct (pelvis_xpos (sim (opponent e))) as [[px py] pz].
    destruct (obs_opponent_pose (obs_dict e)) as [[ox oy] oa].
    now destruct (Rle_dec _ _). }
  unfold get_reward_dict, _get_done. rewrite Hw.
  destruct (obs_model_root_pos obs) as [mx my].
  destruct (obs_opponent_pose obs) as [[ox oy] oa]. cbn.
  repeat split.
  destruct (_lose_condition_values e) as [-> | ->]; reflexivity.
Qed.

(** X11.  A win at or after [maxTime] is reported together with the lose
    flag: the step has [solved = 1], [lose = 1] and [done = 1], and its
    sparse score is zero or negative. *)
Theorem late_win_scores_nothing (e : Env) (obs : ObsDict) :
  _win_condition e = 1%Z ->
  20 <= obs_time (obs_dict e) ->
  rwd_solved (get_reward_dict e obs) = 1%Z /\
  rwd_lose (get_reward_dict e obs) = 1%Z /\
  rwd_done (get_reward_dict e obs) = 1%Z /\
  rwd_sparse (get_reward_dict e obs) <= 0.
Proof.
  intros Hw Ht.
  assert (Hl : _lose_condition e = 1%Z).
  { unfold _lose_condition, maxTime.
    destruct (pelvis_xpos (sim (opponent e))) as [[px py] pz].
    destruct (Rlt_dec pz 0.5); [reflexivity | ].
    destruct (Rle_dec 20 (obs_time (obs_dict e))); [reflexivity | contradiction]. }
  unfold get_reward_dict, _get_done. rewrite Hw, Hl.
  destruct (obs_model_root_pos obs) as [mx my].
  destruct (obs_opponent_pose obs) as [[ox oy] oa]. cbn.
  repeat split. now apply _get_score_after_maxTime.
Qed.

End EpisodeFlags.

Lemma add_arrays_length (a : list R) : forall b,
  List.length (add_arrays a b) = Nat.min (List.length a) (List.length b).
Proof.
  induction a as [ | x a IH]; intros [ | y b]; cbn; auto.
Qed.

Lemma add_arrays_nth (a : list R) : forall (b : list R) (i : nat),
  List.length a = List.length b ->
  nth i (add_arrays a b) 0 = nth i a 0 + nth i b 0.
Proof.
  induction a as [ | x a IH]; intros [ | y b] i Hlen; try discriminate Hlen.
  - destruct i; cbn; lra.
  - destruct i as [ | i]; cbn; [reflexivity | ]. apply IH. now inversion Hlen.
Qed.

Lemma assign_third_length (h : R) (l : list R) :
  List.length (assign_third h l) = List.length l.
Proof. destruct l as [ | a [ | b [ | c t]]]; reflexivity. Qed.

Lemma assign_third_nth (h : R) (l : list R) (i : nat) :
  i <> 2%nat -> nth i (assign_third h l) 0 = nth i l 0.
Proof.
  intros Hi. destruct l as [ | a [ | b [ | c t]]]; try reflexivity.
  destruct i as [ | [ | [ | i]]]; try reflexivity. contradiction.
Qed.

Lemma assign_third_third (h : R) (l : list R) :
  (3 <= List.length l)%nat -> nth 2 (assign_third h l) 0 = h.
Proof.
  destruct l as [ | a [ | b [ | c t]]]; cbn; intros Hl; try lia. reflexivity.
Qed.

Lemma assign_first_two_firstn (u : R) (l : list R) :
  (2 <= List.length l)%nat -> firstn 2 (assign_first_two u l) = [u; u].
Proof.
  destruct l as [ | a [ | b t]]; cbn; intros Hl; try lia. reflexivity.
Qed.

Lemma assign_first_two_rest (u : R) (l : list R) :
  List.length (assign_first_two u l) = List.length l /\
  skipn 2 (assign_first_two u l) = skipn 2 l.
Proof. destruct l as [ | a [ | b t]]; split; reflexivity. Qed.

Section ResetState.

Context {G NP : Type} `{NumpyRandom G}.

Local Abbreviation Env := (ChaseTagEnvV0 G NP).

(** What a returning call of [_get_randomized_initial_state] has done. *)
Lemma _get_randomized_initial_state_returns (e e' : Env) (q v : list R) :
  _get_randomized_initial_state e = (Return (q, v), e') ->
  exists (k : nat) (row : list R) (height : R),
    k = (if Rlt_dec (fst (rng_uniform 0 1 (np_random e))) 0.5 then 2 else 3)%nat /\
    nth_error (key_qpos e) k = Some row /\
    nth_error (key_qvel e) k = Some v /\
    nth_error row 2 = Some height /\
    q = assign_third height
          (add_arrays row
             (fst (rng_normal_size 0 0.02 (List.length row)
                     (snd (rng_uniform 0 1 (np_random e)))))) /\
    np_global e' = np_global e /\
    np_random e' = snd (rng_normal_size 0 0.02 (List.length row)
                          (snd (rng_uniform 0 1 (np_random e)))).
Proof.
  unfold _get_randomized_initial_state, bind, draw_np_random, gets, getrow, getitem,
    ret, raise.
  destruct (rng_uniform 0 1 (np_random e)) as [u g1]. cbn -[nth_error].
  destruct (Rlt_dec u 0.5).
  - destruct (nth_error (key_qpos e) 2) as [row | ] eqn:Hq; [ | discriminate].
    destruct (nth_error (key_qvel e) 2) as [vrow | ] eqn:Hv; [ | discriminate].
    destruct (nth_error row 2) as [height | ] eqn:Hh; [ | discriminate].
    cbn -[nth_error].
    destruct (rng_normal_size 0 0.02 (List.length row) g1) as [noise g2] eqn:En.
    cbn. intros E; inversion E; subst. exists 2%nat, row, height.
    rewrite En. repeat split; auto.
  - destruct (nth_error (key_qpos e) 3) as [row | ] eqn:Hq; [ | discriminate].
    destruct (nth_error (key_qvel e) 3) as [vrow | ] eqn:Hv; [ | discriminate].
    destruct (nth_error row 2) as [height | ] eqn:Hh; [ | discriminate].
    cbn -[nth_error].
    destruct (rng_normal_size 0 0.02 (List.length row) g1) as [noise g2] eqn:En.
    cbn. intros E; inversion E; subst. exists 3%nat, row, height.
    rewrite En. repeat split; auto.
Qed.

(** X12.  The randomised initial state is key pose 2 or key pose 3 plus one
    Gaussian draw per coordinate, with the height (coordinate 2) put back to
    its key value and the velocity left as it is.  Every other coordinate
    keeps its noise, the four quaternion coordinates 3 to 6 included: the
    saved [rot_state] is a view of the array that is perturbed in place, so
    writing it back restores nothing. *)
Theorem randomized_state_restores_the_height_only (e e' : Env) (q v : list R) :
  (forall loc scale n g, List.length (fst (rng_normal_size loc scale n g)) = n) ->
  _get_randomized_initial_state e = (Return (q, v), e') ->
  exists (k : nat) (row noise : list R),
    (k = 2%nat \/ k = 3%nat) /\
    nth_error (key_qpos e) k = Some row /\
    nth_error (key_qvel e) k = Some v /\
    noise = fst (rng_normal_size 0 0.02 (List.length row)
                   (snd (rng_uniform 0 1 (np_random e)))) /\
    List.length q = List.length row /\
    nth 2 q 0 = nth 2 row 0 /\
    (forall i, i <> 2%nat -> nth i q 0 = nth i row 0 + nth i noise 0) /\
    np_global e' = np_global e.
Proof.
  intros Hnormal E.
  apply _get_randomized_initial_state_returns in E
    as (k & row & height & Hk & Hq & Hv & Hh & -> & Hglobal & _).
  exists k, row. eexists. split; [ | split; [exact Hq | split; [exact Hv | split;
    [reflexivity | ]]]].
  - destruct (Rlt_dec _ _); auto.
  - pose proof (Hnormal 0 0.02 (List.length row)
                  (snd (rng_uniform 0 1 (np_random e)))) as Hlen.
    set (noise := fst (rng_normal_size 0 0.02 (List.length row)
                         (snd (rng_uniform 0 1 (np_random e))))) in *.
    assert (Hrow : (3 <= List.length row)%nat).
    { apply nth_error_Some. rewrite Hh. discriminate. }
    split; [ | split; [ | split; [ | exact Hglobal]]].
    + rewrite assign_third_length, add_arrays_length, Hlen. apply Nat.min_id.
    + rewrite assign_third_third
        by (rewrite add_arrays_length, Hlen, Nat.min_id; exact Hrow).
      symmetry. now apply nth_error_nth.
    + intros i Hi. rewrite assign_third_nth by exact Hi.
      apply add_arrays_nth. now rewrite Hlen.
Qed.

(** X13.  With [reset_type = 'random'] the first two coordinates of the reset
    state are one and the same draw from [[-6, 6)]: the agent always starts
    on the diagonal [x = y], and the draw comes from the process-wide
    generator; the remaining coordinates and the velocity are those of the
    randomised initial state. *)
Theorem random_reset_starts_on_the_diagonal `{!NumpyRandomSpec G}
    (e e' : Env) (q v : list R) :
  reset_type e = "random" ->
  _get_reset_state e = (Return (q, v), e') ->
  (2 <= List.length q)%nat ->
  exists (u : R) (q0 : list R) (e1 : Env),
    u = fst (rng_uniform (-6) 6 (np_global e)) /\
    -6 <= u < 6 /\
    firstn 2 q = [u; u] /\
    _get_randomized_initial_state e = (Return (q0, v), e1) /\
    skipn 2 q = skipn 2 q0.
Proof.
  intros Hrt E Hlen. unfold _get_reset_state in E.
  unfold bind at 1, gets at 1 in E. rewrite Hrt in E.
  unfold bind at 1, gets at 1 in E. unfold bind at 1, gets at 1 in E.
  cbn [String.eqb Ascii.eqb Bool.eqb] in E.
  apply bind_inv in E as ([q0 v0] & e1 & E1 & E).
  rewrite _randomize_position_orientation_global in E. inversion E; subst. clear E.
  pose proof (_get_randomized_initial_state_returns _ _ _ _ E1)
    as (_ & _ & _ & _ & _ & _ & _ & _ & Hglobal & _).
  rewrite Hglobal in *.
  destruct (assign_first_two_rest (fst (rng_uniform (-6) 6 (np_global e))) q0)
    as [Hl Hrest].
  exists (fst (rng_uniform (-6) 6 (np_global e))), q0, e1.
  split; [reflexivity | split; [apply rng_uniform_range; lra | split; [ | split]]].
  - apply assign_first_two_firstn. now rewrite <- Hl.
  - exact E1.
  - exact Hrest.
Qed.

(** X14.  With any [reset_type] other than ['random'] the reset state is a
    stored key frame, handed out as it is: frame 2 for ['init'] and frame 0
    for every other string, a misspelt one included.  No generator is
    advanced and nothing of the environment changes; a missing frame raises
    [IndexError]. *)
Theorem fixed_reset_hands_out_a_key_frame (e : Env) :
  reset_type e <> "random" ->
  let k := if (reset_type e =? "init")%string then 2%nat else 0%nat in
  match nth_error (key_qpos e) k, nth_error (key_qvel e) k with
  | Some q, Some v => _get_reset_state e = (Return (q, v), e)
  | _, _ => _get_reset_state e = (Raise IndexError, e)
  end.
Proof.
  intros Hrt. apply String.eqb_neq in Hrt. cbv zeta.
  unfold _get_reset_state, bind, gets, getrow, ret, raise. rewrite Hrt.
  destruct (reset_type e =? "init")%string.
  - destruct (nth_error (key_qpos e) 2); [ | reflexivity].
    destruct (nth_error (key_qvel e) 2); reflexivity.
  - destruct (nth_error (key_qpos e) 0); [ | reflexivity].
    destruct (nth_error (key_qvel e) 0); reflexivity.
Qed.

(** X15.  [_sample_task] always returns.  With [task_choice = 'random'] the
    task becomes ['chase'] or ['flee'] and only the process-wide generator is
    advanced; with any other string the task becomes that string, valid task
    or not, and no generator is touched. *)
Theorem sample_task_outcomes `{!NumpyRandomSpec G} (e : Env) :
  exists e' : Env,
    _sample_task e = (Return tt, e') /\
    np_random e' = np_random e /\
    (task_choice e = "random" ->
     current_task e' = Some "chase" \/ current_task e' = Some "flee") /\
    (task_choice e <> "random" ->
     current_task e' = Some (task_choice e) /\ np_global e' = np_global e).
Proof.
  destruct (String.eqb_spec (task_choice e) "random") as [Hc | Hc].
  - rewrite (_sample_task_global e Hc). eexists. split; [reflexivity | ].
    split; [reflexivity | split; [ | contradiction]].
    intros _. cbn [current_task set_current_task].
    pose proof (rng_choice_range 2 (np_global e) ltac:(lia)) as Hi.
    destruct (fst (rng_choice 2 (np_global e))) as [ | [ | i]]; cbn; auto. lia.
  - unfold _sample_task, bind, gets, modify.
    apply String.eqb_neq in Hc. rewrite Hc.
    eexists. split; [reflexivity | ]. cbn.
    split; [reflexivity | split; [ | auto]].
    intros Hr. apply String.eqb_neq in Hc. contradiction.
Qed.

End ResetState.

Section ReplayEpisode.

Local Abbreviation TEnv := (ChaseTagEnvV0 Tape unit).

Lemma tape_normal_length (loc scale : R) (n : nat) (t : Tape) :
  List.length (fst (rng_normal_size loc scale n t)) = n.
Proof. cbn. now rewrite length_map, length_seq. Qed.

Lemma _get_randomized_initial_state_env0 (g : Tape) :
  exists (q : list R) (e' : TEnv),
    _get_randomized_initial_state (env0 g) = (Return (q, [0; 0; 0; 0; 0; 0]), e').
Proof.
  unfold _get_randomized_initial_state, bind, gets, draw_np_random.
  cbn [np_random env0 rng_uniform Tape_random fst snd].
  change (tape_half 0%nat) with (1, 0)%nat. rewrite variate_half.
  destruct (Rlt_dec (scale_unit 0 1 (1 / 2)) 0.5) as [L | L];
    [exfalso; unfold scale_unit in L; lra | ].
  cbn. eexists. eexists. reflexivity.
Qed.

(** X8 at work: half way through the episode. *)
Lemma score_follows_the_clock_witness : 0 <= _get_score 10 <= 1.
Proof.
  pose proof (score_follows_the_clock 10) as (_ & Hin & _).
  apply Hin. lra.
Defined.

(** X10 at work: the win scenario before the setup has completed. *)
Lemma no_win_before_setup_witness :
  rwd_solved (get_reward_dict (env_win 1.25 false) (obs_dict (env_win 1.25 false))) = 0%Z /\
  rwd_sparse (get_reward_dict (env_win 1.25 false) (obs_dict (env_win 1.25 false))) = 0 /\
  rwd_done (get_reward_dict (env_win 1.25 false) (obs_dict (env_win 1.25 false))) =
  rwd_lose (get_reward_dict (env_win 1.25 false) (obs_dict (env_win 1.25 false))).
Proof.
  apply (no_win_before_setup (env_win 1.25 false) (obs_dict (env_win 1.25 false))).
  reflexivity.
Defined.

(** X11 at work: the win scenario observed at time 25. *)
Lemma late_win_scores_nothing_witness :
  rwd_solved (get_reward_dict (env_win 25 true) (obs_dict (env_win 25 true))) = 1%Z /\
  rwd_lose (get_reward_dict (env_win 25 true) (obs_dict (env_win 25 true))) = 1%Z /\
  rwd_done (get_reward_dict (env_win 25 true) (obs_dict (env_win 25 true))) = 1%Z /\
  rwd_sparse (get_reward_dict (env_win 25 true) (obs_dict (env_win 25 true))) <= 0.
Proof.
  apply (late_win_scores_nothing (env_win 25 true) (obs_dict (env_win 25 true))).
  - apply _win_condition_env_win.
  - cbn. lra.
Defined.

(** X12 at work: the randomised state of the default environment. *)
Lemma randomized_state_restores_the_height_only_witness :
  exists (q : list R) (e' : TEnv),
    _get_randomized_initial_state (env0 tape_low) = (Return (q, [0; 0; 0; 0; 0; 0]), e') /\
    exists (k : nat) (row noise : list R),
      (k = 2%nat \/ k = 3%nat) /\
      nth_error (key_qpos (env0 tape_low)) k = Some row /\
      nth_error (key_qvel (env0 tape_low)) k = Some [0; 0; 0; 0; 0; 0] /\
      noise = fst (rng_normal_size 0 0.02 (List.length row)
                     (snd (rng_uniform 0 1 (np_random (env0 tape_low))))) /\
      List.length q = List.length row /\
      nth 2 q 0 = nth 2 row 0 /\
      (forall i, i <> 2%nat -> nth i q 0 = nth i row 0 + nth i noise 0) /\
      np_global e' = np_global (env0 tape_low).
Proof.
  destruct (_get_randomized_initial_state_env0 tape_low) as (q & e' & E).
  exists q, e'. split; [exact E | ].
  exact (randomized_state_restores_the_height_only (env0 tape_low) e' q _
           tape_normal_length E).
Defined.

(** X13 at work: the reset state of the default environment. *)
Lemma random_reset_starts_on_the_diagonal_witness :
  exists (q v : list R) (e' : TEnv),
    _get_reset_state (env0 tape_low) = (Return (q, v), e') /\
    exists (u : R) (q0 : list R) (e1 : TEnv),
      u = fst (rng_uniform (-6) 6 (np_global (env0 tape_low))) /\
      -6 <= u < 6 /\
      firstn 2 q = [u; u] /\
      _get_randomized_initial_state (env0 tape_low) = (Return (q0, v), e1) /\
      skipn 2 q = skipn 2 q0.
Proof.
  destruct (_get_reset_state_env0 tape_low) as (rest & e' & E & _).
  do 2 eexists. exists e'. split; [exact E | ].
  apply (random_reset_starts_on_the_diagonal (env0 tape_low) e' _ _ eq_refl E).
  cbn. lia.
Defined.

(** X14 at work: the default [reset_type = 'none'] hands out key frame 0. *)
Lemma fixed_reset_hands_out_a_key_frame_witness :
  _get_reset_state (env_win 0 true) =
  (Return ([0; 0; 1; 1; 0; 0; 0], [0; 0; 0; 0; 0; 0]), env_win 0 true).
Proof.
  apply (fixed_reset_hands_out_a_key_frame (env_win 0 true)).
  cbn. discriminate.
Defined.

(** X15 at work: the task of the default environment. *)
Lemma sample_task_outcomes_witness :
  exists e' : TEnv,
    _sample_task (env0 tape_low) = (Return tt, e') /\
    np_random e' = np_random (env0 tape_low) /\
    (task_choice (env0 tape_low) = "random" ->
     current_task e' = Some "chase" \/ current_task e' = Some "flee") /\
    (task_choice (env0 tape_low) <> "random" ->
     current_task e' = Some (task_choice (env0 tape_low)) /\
     np_global e' = np_global (env0 tape_low)).
Proof.
  apply (sample_task_outcomes (env0 tape_low)).
Defined.

End ReplayEpisode.

(** * Further properties of the terrain patches *)

Lemma fold_left_Rmin_In (t : list R) : forall x, In (fold_left Rmin t x) (x :: t).
Proof.
  induction t as [ | y t IH]; intros x; cbn [fold_left]; [now left | ].
  destruct (IH (Rmin x y)) as [E | Hin].
  - rewrite <- E. unfold Rmin. destruct (Rle_dec x y); [now left | right; now left].
  - right; right. exact Hin.
Qed.

Lemma fold_left_Rmax_In (t : list R) : forall x, In (fold_left Rmax t x) (x :: t).
Proof.
  induction t as [ | y t IH]; intros x; cbn [fold_left]; [now left | ].
  destruct (IH (Rmax x y)) as [E | Hin].
  - rewrite <- E. unfold Rmax. destruct (Rle_dec x y); [right; now left | now left].
  - right; right. exact Hin.
Qed.

Lemma concat_reshape {A} (cols : nat) : forall (rows : nat) (l : list A),
  List.length l = (rows * cols)%nat -> List.concat (reshape rows cols l) = l.
Proof.
  unfold reshape. induction rows as [ | rows IH]; intros l Hlen.
  - destruct l; [reflexivity | discriminate].
  - cbn [seq map List.concat]. rewrite <- seq_shift, map_map.
    change (skipn (0 * cols) l) with l.
    transitivity ((firstn cols l ++ skipn cols l)%list); [ | apply firstn_skipn].
    f_equal. etransitivity; [ | apply (IH (skipn cols l)); rewrite length_skipn; lia].
    f_equal. apply map_ext. intros i. f_equal.
    rewrite skipn_skipn. f_equal. lia.
Qed.

Lemma In_concat_flip01 {A} (x : A) (m : list (list A)) :
  In x (List.concat m) -> In x (List.concat (flip01 m)).
Proof.
  intros Hx. apply in_concat in Hx as (row & Hrow & Hin).
  apply in_concat. exists (rev row). split.
  - unfold flip01. apply -> in_rev. apply in_map. exact Hrow.
  - apply -> in_rev. exact Hin.
Qed.

Lemma In_concat_zip_cons {A} (x : A) (row : list A) : forall cols,
  List.length row = List.length cols ->
  In x row \/ In x (List.concat cols) -> In x (List.concat (zip_cons row cols)).
Proof.
  induction row as [ | y row IH]; intros [ | c cols] Hlen Hx; try discriminate Hlen.
  - destruct Hx as [[] | []].
  - cbn [zip_cons List.concat]. cbn [List.concat] in Hx. apply in_or_app.
    assert (Hcases : In x (y :: c) \/ (In x row \/ In x (List.concat cols))).
    { destruct Hx as [[<- | Hx] | Hx].
      - left. now left.
      - right. now left.
      - apply in_app_or in Hx as [Hx | Hx]; [left; now right | right; now right]. }
    destruct Hcases as [Hc | Hc]; [now left | right].
    apply IH; [now inversion Hlen | exact Hc].
Qed.

Lemma In_concat_transpose {A} (x : A) (n : nat) (m : list (list A)) :
  Forall (fun row => List.length row = n) m ->
  In x (List.concat m) -> In x (List.concat (transpose n m)).
Proof.
  induction m as [ | row rest IH]; intros Hm Hx; [destruct Hx | ].
  inversion Hm as [ | r rs Hrow Hrest]; subst.
  cbn [transpose]. apply In_concat_zip_cons.
  - now rewrite (proj1 (transpose_shape (List.length row) rest Hrest)).
  - cbn [List.concat] in Hx. apply in_app_or in Hx as [Hx | Hx]; [now left | right].
    now apply IH.
Qed.

Lemma In_concat_rot90 {A} (x : A) (n : nat) (m : list (list A)) :
  Forall (fun row => List.length row = n) m ->
  In x (List.concat m) -> In x (List.concat (rot90 n m)).
Proof.
  intros Hm Hx. unfold rot90. apply In_concat_transpose.
  - unfold flip1. apply Forall_forall. intros row Hrow.
    apply in_map_iff in Hrow as (r & <- & Hr). rewrite length_rev.
    revert r Hr. now apply Forall_forall.
  - apply in_concat in Hx as (row & Hrow & Hin).
    apply in_concat. exists (rev row). split.
    + unfold flip1. now apply in_map.
    + apply -> in_rev. exact Hin.
Qed.

(** The two ends of a min-max normalisation are attained. *)
Lemma normalized_ends (f : R -> R) (x : R) (t : list R) :
  fold_left Rmin t x < fold_left Rmax t x ->
  let l := map (option_map f)
             (map (fun v => np_divide (v - fold_left Rmin t x)
                              (fold_left Rmax t x - fold_left Rmin t x)) (x :: t)) in
  In (Some (f 0)) l /\ In (Some (f 1)) l.
Proof.
  intros Hlt l. subst l. rewrite map_map. split.
  - apply in_map_iff. exists (fold_left Rmin t x). split; [ | apply fold_left_Rmin_In].
    rewrite np_divide_Some by lra. cbn. do 2 f_equal. field. lra.
  - apply in_map_iff. exists (fold_left Rmax t x). split; [ | apply fold_left_Rmax_In].
    rewrite np_divide_Some by lra. cbn. do 2 f_equal. field. lra.
Qed.

Section TerrainMore.

Context {G : Type} `{NumpyRandom G}.

(** The state a terrain computation leaves behind: the generator replaced. *)
Lemma rough_terrain_state (hf : HeightField G) (x : R) (t : list R) :
  fst (rng_uniform_size (-0.5) 0.5 (patch_size hf * patch_size hf) (hf_rng hf)) = x :: t ->
  _compute_rough_terrain hf =
  (Return
     (reshape (patch_size hf) (patch_size hf)
        (map (option_map (fun v => v * 0.08 - 0.02))
           (map (fun v => np_divide (v - fold_left Rmin t x)
                            (fold_left Rmax t x - fold_left Rmin t x)) (x :: t)))),
   {| hf_rng := snd (rng_uniform_size (-0.5) 0.5 (patch_size hf * patch_size hf)
                       (hf_rng hf));
      patch_size := patch_size hf |}).
Proof.
  intros E. unfold _compute_rough_terrain, bind, gets, hf_draw.
  destruct (rng_uniform_size (-0.5) 0.5 (patch_size hf * patch_size hf) (hf_rng hf))
    as [rough g']. cbn in E. subst rough. reflexivity.
Qed.

Lemma hilly_terrain_state (hf : HeightField G) (x : R) (t : list R) :
  ripple (patch_size hf) = x :: t ->
  let scalar := fst (rng_uniform 0.03 0.23 (hf_rng hf)) in
  let u := fst (rng_uniform 0 1 (snd (rng_uniform 0.03 0.23 (hf_rng hf)))) in
  let normalized_data :=
    flip01
      (reshape (patch_size hf) (patch_size hf)
         (map (option_map (fun v => v * scalar))
            (map (fun v => np_divide (v - fold_left Rmin t x)
                             (fold_left Rmax t x - fold_left Rmin t x)) (x :: t)))) in
  _compute_hilly_terrain hf =
  (Return (if Rlt_dec u 0.5 then rot90 (patch_size hf) normalized_data
           else normalized_data),
   {| hf_rng := snd (rng_uniform 0 1 (snd (rng_uniform 0.03 0.23 (hf_rng hf))));
      patch_size := patch_size hf |}).
Proof.
  intros E. cbv zeta. unfold _compute_hilly_terrain, bind, gets, hf_draw.
  destruct (rng_uniform 0.03 0.23 (hf_rng hf)) as [scalar g1]. cbn [fst snd hf_rng patch_size].
  fold (ripple (patch_size hf)). rewrite E. cbn [np_min np_max ret].
  cbn [hf_rng patch_size].
  destruct (rng_uniform 0 1 g1) as [u g2]. cbn [fst snd].
  destruct (Rlt_dec u 0.5); reflexivity.
Qed.

Lemma ripple_nonempty (ps : nat) :
  (1 <= ps)%nat -> exists x t, ripple ps = x :: t.
Proof.
  intros Hps. pose proof (ripple_length ps) as Hlen.
  destruct (ripple ps) as [ | x t]; [cbn in Hlen; nia | eauto].
Qed.

Context `{!NumpyRandomSpec G}.

Lemma rough_samples_nonempty (hf : HeightField G) :
  (1 <= patch_size hf)%nat ->
  exists x t,
    fst (rng_uniform_size (-0.5) 0.5 (patch_size hf * patch_size hf) (hf_rng hf)) = x :: t.
Proof.
  intros Hps.
  pose proof (rng_uniform_size_length (-0.5) 0.5 (patch_size hf * patch_size hf)
                (hf_rng hf)) as Hlen.
  destruct (fst (rng_uniform_size _ _ _ _)) as [ | x t]; [cbn in Hlen; nia | eauto].
Qed.

(** X16.  For a positive [patch_size], [_compute_patch_data] never fails on a
    known terrain type and always hands back a square patch of side
    [patch_size], which it leaves as it is.  ['flat'] consumes no random
    draw, ['rough'] exactly the one array draw, ['hilly'] exactly its two
    scalar draws; every other type raises [NotImplementedError] before
    anything is drawn. *)
Theorem patch_data_outcomes (hf : HeightField G) (terrain_type : string) :
  (1 <= patch_size hf)%nat ->
  let ps := patch_size hf in
  let g := hf_rng hf in
  (terrain_type = "flat" ->
   _compute_patch_data terrain_type hf = (Return (repeat (repeat (Some 0) ps) ps), hf) /\
   square ps (repeat (repeat (Some 0) ps) ps)) /\
  (terrain_type = "rough" ->
   exists patch,
     _compute_patch_data terrain_type hf =
       (Return patch,
        {| hf_rng := snd (rng_uniform_size (-0.5) 0.5 (ps * ps) g); patch_size := ps |}) /\
     square ps patch) /\
  (terrain_type = "hilly" ->
   exists patch,
     _compute_patch_data terrain_type hf =
       (Return patch,
        {| hf_rng := snd (rng_uniform 0 1 (snd (rng_uniform 0.03 0.23 g)));
           patch_size := ps |}) /\
     square ps patch) /\
  (terrain_type <> "flat" -> terrain_type <> "rough" -> terrain_type <> "hilly" ->
   _compute_patch_data terrain_type hf = (Raise (NotImplementedError ""), hf)).
Proof.
  intros Hps ps g. subst ps g. split; [ | split; [ | split]].
  - intros ->. split; [reflexivity | ]. split; [apply repeat_length | ].
    apply Forall_forall. intros row Hrow. apply repeat_spec in Hrow. subst row.
    apply repeat_length.
  - intros ->. destruct (rough_samples_nonempty hf Hps) as (x & t & E).
    eexists. split.
    + unfold _compute_patch_data. cbn [String.eqb Ascii.eqb Bool.eqb].
      apply (rough_terrain_state hf x t E).
    + apply square_reshape. rewrite !length_map, <- E. apply rng_uniform_size_length.
  - intros ->. destruct (ripple_nonempty (patch_size hf) Hps) as (x & t & E).
    pose proof (hilly_terrain_state hf x t E) as Ev. cbv zeta in Ev.
    eexists. split.
    + unfold _compute_patch_data. cbn [String.eqb Ascii.eqb Bool.eqb]. exact Ev.
    + assert (Hsq : square (patch_size hf)
                      (flip01
                         (reshape (patch_size hf) (patch_size hf)
                            (map (option_map
                                    (fun v => v * fst (rng_uniform 0.03 0.23 (hf_rng hf))))
                               (map (fun v => np_divide (v - fold_left Rmin t x)
                                                (fold_left Rmax t x - fold_left Rmin t x))
                                  (x :: t)))))).
      { apply square_flip01, square_reshape.
        rewrite !length_map, <- E. apply ripple_length. }
      destruct (Rlt_dec _ 0.5); [now apply square_rot90 | exact Hsq].
  - intros Hf Hr Hh. unfold _compute_patch_data.
    apply String.eqb_neq in Hf, Hr, Hh. now rewrite Hf, Hr, Hh.
Qed.

(** X17.  With [patch_size = 0] the flat patch is the empty array, while the
    rough and the hilly patch both fail with [ValueError]: the minimum of an
    empty array does not exist. *)
Theorem patch_of_side_zero (hf : HeightField G) :
  patch_size hf = 0%nat ->
  _compute_patch_data "flat" hf = (Return [], hf) /\
  fst (_compute_patch_data "rough" hf) = Raise ValueError /\
  fst (_compute_patch_data "hilly" hf) = Raise ValueError.
Proof.
  intros Hps. split; [ | split].
  - unfold _compute_patch_data, bind, gets, ret. cbn [String.eqb Ascii.eqb Bool.eqb].
    now rewrite Hps.
  - unfold _compute_patch_data. cbn [String.eqb Ascii.eqb Bool.eqb].
    unfold _compute_rough_terrain, bind, gets, hf_draw. rewrite Hps.
    pose proof (rng_uniform_size_length (-0.5) 0.5 (0 * 0) (hf_rng hf)) as Hlen.
    destruct (rng_uniform_size (-0.5) 0.5 (0 * 0) (hf_rng hf)) as [rough g'].
    cbn in Hlen. destruct rough; [reflexivity | discriminate].
  - unfold _compute_patch_data. cbn [String.eqb Ascii.eqb Bool.eqb].
    unfold _compute_hilly_terrain, bind, gets, hf_draw. rewrite Hps.
    destruct (rng_uniform 0.03 0.23 (hf_rng hf)) as [scalar g1]. reflexivity.
Qed.

(** X18.  The normalisation of a rough patch is tight: when its uniform
    samples are not all equal, the patch holds both ends of its range, the
    elevation [-0.02] (at the smallest sample) and the elevation [0.06] (at
    the largest). *)
Theorem rough_terrain_attains_its_bounds (hf : HeightField G) :
  (exists a b,
      In a (fst (rng_uniform_size (-0.5) 0.5 (patch_size hf * patch_size hf)
                   (hf_rng hf))) /\
      In b (fst (rng_uniform_size (-0.5) 0.5 (patch_size hf * patch_size hf)
                   (hf_rng hf))) /\
      a <> b) ->
  exists patch hf',
    _compute_rough_terrain hf = (Return patch, hf') /\
    In (Some (-0.02)) (List.concat patch) /\ In (Some 0.06) (List.concat patch).
Proof.
  intros (a & b & Ha & Hb & Hne).
  pose proof (rng_uniform_size_length (-0.5) 0.5 (patch_size hf * patch_size hf)
                (hf_rng hf)) as Hlen.
  destruct (fst (rng_uniform_size (-0.5) 0.5 (patch_size hf * patch_size hf)
                   (hf_rng hf))) as [ | x t] eqn:E; [contradiction | ].
  pose proof (min_lt_max x t a b Ha Hb Hne) as Hlt.
  do 2 eexists. split; [apply (rough_terrain_state hf x t E) | ].
  rewrite concat_reshape by (now rewrite !length_map).
  destruct (normalized_ends (fun v => v * 0.08 - 0.02) x t Hlt) as [H0 H1].
  replace (0 * 0.08 - 0.02) with (-0.02) in H0 by lra.
  replace (1 * 0.08 - 0.02) with 0.06 in H1 by lra.
  split; assumption.
Qed.

(** X19.  The normalisation of a hilly patch is tight as well: a patch of
    side [patch_size >= 2] holds the elevation [0] and the elevation
    [scalar], the draw of that call, whether or not it is rotated. *)
Theorem hilly_terrain_attains_its_bounds (hf : HeightField G) :
  (2 <= patch_size hf)%nat ->
  exists patch hf',
    _compute_hilly_terrain hf = (Return patch, hf') /\
    In (Some 0) (List.concat patch) /\
    In (Some (fst (rng_uniform 0.03 0.23 (hf_rng hf)))) (List.concat patch).
Proof.
  intros Hps.
  destruct (ripple_not_flat (patch_size hf) Hps) as (a & b & Ha & Hb & Hne).
  pose proof (ripple_length (patch_size hf)) as Hlen.
  destruct (ripple (patch_size hf)) as [ | x t] eqn:E; [contradiction | ].
  pose proof (min_lt_max x t a b Ha Hb Hne) as Hlt.
  pose proof (hilly_terrain_state hf x t E) as Ev. cbv zeta in Ev.
  set (scalar := fst (rng_uniform 0.03 0.23 (hf_rng hf))) in *.
  set (cells := map (option_map (fun v => v * scalar))
                  (map (fun v => np_divide (v - fold_left Rmin t x)
                                   (fold_left Rmax t x - fold_left Rmin t x))
                     (x :: t))) in *.
  assert (Hends : In (Some 0) cells /\ In (Some scalar) cells).
  { destruct (normalized_ends (fun v => v * scalar) x t Hlt) as [H0 H1].
    replace (0 * scalar) with 0 in H0 by lra.
    replace (1 * scalar) with scalar in H1 by lra. split; assumption. }
  assert (Hcells : List.length cells = (patch_size hf * patch_size hf)%nat).
  { unfold cells. now rewrite !length_map. }
  assert (Hflip : forall v, In v cells ->
            In v (List.concat (flip01 (reshape (patch_size hf) (patch_size hf) cells)))).
  { intros v Hv. apply In_concat_flip01. now rewrite concat_reshape. }
  assert (Hsq : square (patch_size hf)
                  (flip01 (reshape (patch_size hf) (patch_size hf) cells))).
  { now apply square_flip01, square_reshape. }
  do 2 eexists. split; [exact Ev | ].
  destruct Hends as [H0 H1].
  destruct (Rlt_dec _ 0.5).
  - split; apply In_concat_rot90; try apply Hsq; now apply Hflip.
  - split; now apply Hflip.
Qed.

(** X20.  A rough patch whose uniform samples are all equal holds no number
    at all: every entry is the non-finite result of [0 / 0].  This is the
    case of every rough patch of side 1. *)
Theorem rough_terrain_of_equal_samples (hf : HeightField G) :
  (1 <= patch_size hf)%nat ->
  (patch_size hf = 1%nat \/
   forall a b,
     In a (fst (rng_uniform_size (-0.5) 0.5 (patch_size hf * patch_size hf)
                  (hf_rng hf))) ->
     In b (fst (rng_uniform_size (-0.5) 0.5 (patch_size hf * patch_size hf)
                  (hf_rng hf))) ->
     a = b) ->
  exists patch hf',
    _compute_rough_terrain hf = (Return patch, hf') /\
    square (patch_size hf) patch /\
    Forall (Forall (fun v => v = None)) patch.
Proof.
  intros Hps Hsame.
  pose proof (rng_uniform_size_length (-0.5) 0.5 (patch_size hf * patch_size hf)
                (hf_rng hf)) as Hlen.
  destruct (rough_samples_nonempty hf Hps) as (x & t & E).
  rewrite E in Hlen.
  assert (Heq : forall a b, In a (x :: t) -> In b (x :: t) -> a = b).
  { destruct Hsame as [H1 | Hall].
    - rewrite H1 in Hlen. destruct t; [ | discriminate].
      intros a b [<- | []] [<- | []]. reflexivity.
    - rewrite E in Hall. exact Hall. }
  assert (Hflat : fold_left Rmax t x - fold_left Rmin t x = 0).
  { rewrite (Heq _ _ (fold_left_Rmax_In t x) (fold_left_Rmin_In t x)). lra. }
  do 2 eexists. split; [apply (rough_terrain_state hf x t E) | split].
  - apply square_reshape. now rewrite !length_map.
  - apply Forall_reshape. rewrite Hflat. apply Forall_forall. intros v Hv.
    apply in_map_iff in Hv as (w & <- & Hw).
    apply in_map_iff in Hw as (z & <- & _).
    now rewrite np_divide_zero.
Qed.

End TerrainMore.

Section ReplayTerrain.

(** X16 at work: a rough patch of side 2 takes the four samples of its one
    array draw. *)
Lemma patch_data_outcomes_witness :
  exists patch : list (list (option R)),
    _compute_patch_data "rough" (hf0 2 tape_half) =
      (Return patch,
       {| hf_rng := snd (rng_uniform_size (-0.5) 0.5 (2 * 2) tape_half);
          patch_size := 2 |}) /\
    square 2 patch.
Proof.
  assert (Hps : (1 <= patch_size (hf0 2 tape_half))%nat) by (cbn; lia).
  destruct (patch_data_outcomes (hf0 2 tape_half) "rough" Hps) as (_ & Hrough & _).
  apply Hrough. reflexivity.
Defined.

(** X17 at work: a height field with more patches per side than rows. *)
Lemma patch_of_side_zero_witness :
  _compute_patch_data "flat" (hf0 0 tape_half) = (Return [], hf0 0 tape_half) /\
  fst (_compute_patch_data "rough" (hf0 0 tape_half)) = Raise ValueError /\
  fst (_compute_patch_data "hilly" (hf0 0 tape_half)) = Raise ValueError.
Proof.
  apply (patch_of_side_zero (hf0 0 tape_half)). reflexivity.
Defined.

(** X18 at work: the samples 0 and 0.4 of a rough patch of side 2. *)
Lemma rough_terrain_attains_its_bounds_witness :
  exists (patch : list (list (option R))) (hf' : HeightField Tape),
    _compute_rough_terrain (hf0 2 tape_turn) = (Return patch, hf') /\
    In (Some (-0.02)) (List.concat patch) /\ In (Some 0.06) (List.concat patch).
Proof.
  apply (rough_terrain_attains_its_bounds (hf0 2 tape_turn)).
  exact rough_samples_differ.
Defined.

(** X19 at work: a hilly patch of side 2. *)
Lemma hilly_terrain_attains_its_bounds_witness :
  exists (patch : list (list (option R))) (hf' : HeightField Tape),
    _compute_hilly_terrain (hf0 2 tape_half) = (Return patch, hf') /\
    In (Some 0) (List.concat patch) /\
    In (Some (fst (rng_uniform 0.03 0.23 tape_half))) (List.concat patch).
Proof.
  apply (hilly_terrain_attains_its_bounds (hf0 2 tape_half)). cbn. lia.
Defined.

(** X20 at work: a rough patch of side 1. *)
Lemma rough_terrain_of_equal_samples_witness :
  exists (patch : list (list (option R))) (hf' : HeightField Tape),
    _compute_rough_terrain (hf0 1 tape_half) = (Return patch, hf') /\
    square 1 patch /\
    Forall (Forall (fun v => v = None)) patch.
Proof.
  apply (rough_terrain_of_equal_samples (hf0 1 tape_half)).
  - cbn. lia.
  - left. reflexivity.
Defined.

End ReplayTerrain.

(** * The height map *)

(** ** Slices and arrays *)

Lemma slice_index_le (n : nat) (i : Z) : (slice_index n i <= n)%nat.
Proof.
  unfold slice_index. destruct (i <? 0)%Z eqn:E.
  - apply Z.ltb_lt in E. lia.
  - apply Z.ltb_ge in E. lia.
Qed.

Lemma slice_index_inside (n : nat) (i : Z) :
  (0 <= i <= Z.of_nat n)%Z -> slice_index n i = Z.to_nat i.
Proof.
  intros Hi. unfold slice_index.
  destruct (i <? 0)%Z eqn:E; [apply Z.ltb_lt in E; lia | ].
  f_equal. lia.
Qed.

Lemma slice_length_inside (n : nat) (a b : Z) :
  (0 <= a <= b)%Z -> (b <= Z.of_nat n)%Z ->
  slice_length n a b = Z.to_nat (b - a).
Proof.
  intros Ha Hb. unfold slice_length.
  rewrite !slice_index_inside by lia. lia.
Qed.

Lemma py_slice_length {A} (n : nat) (a b : Z) (l : list A) :
  List.length l = n -> List.length (py_slice n a b l) = slice_length n a b.
Proof.
  intros Hl. unfold py_slice, slice_length.
  rewrite length_firstn, length_skipn, Hl.
  pose proof (slice_index_le n a). pose proof (slice_index_le n b). lia.
Qed.

Lemma py_slice_nth {A} (n : nat) (a b : Z) (l : list A) (i : nat) (d : A) :
  (i < slice_length n a b)%nat ->
  nth i (py_slice n a b l) d = nth (slice_index n a + i) l d.
Proof.
  intros Hi. unfold py_slice. rewrite nth_firstn.
  apply Nat.ltb_lt in Hi. rewrite Hi. apply nth_skipn.
Qed.


Lemma well_shaped_row (a : ndarray) (i : nat) :
  well_shaped a -> (i < shape0 a)%nat ->
  List.length (nth i (entries a) []) = shape1 a.
Proof.
  intros [Hlen Hrows] Hi.
  assert (Hin : In (nth i (entries a) []) (entries a)) by (apply nth_In; lia).
  revert Hin. generalize (nth i (entries a) []). now apply Forall_forall.
Qed.

Lemma well_shaped_np_zeros (n m : nat) : well_shaped (np_zeros n m).
Proof.
  split; cbn; [apply repeat_length | ].
  apply Forall_forall. intros row Hrow. apply repeat_spec in Hrow. subst row.
  apply repeat_length.
Qed.





Lemma broadcast_to_same (n m : nat) (src : ndarray) :
  shape0 src = n -> shape1 src = m ->
  broadcast_to n m src =
  Some {| shape0 := n; shape1 := m; entries := entries src |}.
Proof.
  intros H0 H1. unfold broadcast_to, broadcastable, stretch.
  rewrite H0, H1, !Nat.eqb_refl. cbn [orb andb]. do 2 f_equal.
  rewrite <- (map_id (entries src)) at 2. apply map_ext. reflexivity.
Qed.

Lemma broadcast_to_mismatch (n m : nat) (src : ndarray) :
  (shape0 src <> n /\ shape0 src <> 1%nat) \/ (shape1 src <> m /\ shape1 src <> 1%nat) ->
  broadcast_to n m src = None.
Proof.
  intros Hne. unfold broadcast_to, broadcastable.
  destruct Hne as [[Ha Hb] | [Ha Hb]];
    apply Nat.eqb_neq in Ha, Hb; rewrite Ha, Hb; cbn [orb andb];
    [reflexivity | now rewrite andb_false_r].
Qed.





(** ** The cell under the agent *)

Lemma py_trunc_nonneg (x : R) : 0 <= x -> py_trunc x = Zfloor x.
Proof. intros Hx. unfold py_trunc. destruct (Rlt_dec x 0); [lra | reflexivity]. Qed.

Lemma INR_half (n : nat) : INR (n / 2) <= INR n / 2.
Proof.
  pose proof (Nat.Div0.mul_div_le n 2) as Hle. apply le_INR in Hle.
  rewrite mult_INR in Hle. cbn [INR] in Hle. lra.
Qed.

(** The map coordinate of a position in the arena, along an axis of [n]
    cells that is [L] long. *)
Lemma map_coordinate_bounds (n : nat) (L x : R) :
  (0 < n)%nat -> 0 < L -> Rabs x <= L / 2 ->
  x / (L / INR n) + INR (2 * n) / 2 = x * INR n / L + INR n /\
  0 <= x * INR n / L + INR n /\
  (Z.of_nat (n / 2) <= Zfloor (x * INR n / L + INR n) <= Z.of_nat (3 * n / 2))%Z.
Proof.
  intros Hn HL Hx.
  assert (Hpos : 0 < INR n) by (apply lt_0_INR; exact Hn).
  assert (Hq : - (1 / 2) <= x / L <= 1 / 2).
  { assert (- ((L / 2)) <= x <= (L / 2)) as [Hlo Hhi].
    { unfold Rabs in Hx. destruct (Rcase_abs x); lra. }
    split.
    - apply Rmult_le_reg_r with L; [exact HL | ]. field_simplify; lra.
    - apply Rmult_le_reg_r with L; [exact HL | ]. field_simplify; lra. }
  assert (Hv : x * INR n / L + INR n = x / L * INR n + INR n) by (field; lra).
  assert (Hlo : INR n / 2 <= x * INR n / L + INR n) by (rewrite Hv; nra).
  assert (Hhi : x * INR n / L + INR n <= 3 * INR n / 2) by (rewrite Hv; nra).
  split; [ | split; [lra | split]].
  - rewrite mult_INR. cbn [INR]. field. split; lra.
  - apply Zfloor_lub. rewrite <- INR_IZR_INZ.
    pose proof (INR_half n). lra.
  - pose proof (Zfloor_bound (x * INR n / L + INR n)) as [Hf _].
    rewrite Nat2Z.inj_div, Nat2Z.inj_mul.
    change (Z.of_nat 3) with 3%Z. change (Z.of_nat 2) with 2%Z.
    apply Z.div_le_lower_bound; [lia | ].
    apply le_IZR. rewrite !mult_IZR, <- INR_IZR_INZ. lra.
Qed.

Section MapProperties.

Context {G : Type}.

Local Abbreviation HMap := (HeightMap G).

Lemma cart2map_finite (s : HMap) (x y : R) (rest : list R) :
  (0 < nrow s)%nat -> (0 < ncol s)%nat -> real_length s <> 0 ->
  cart2map s (x :: y :: rest) =
  inr (py_trunc (x / (real_length s / INR (nrow s)) + INR (shape0 (padded_map s)) / 2),
       py_trunc (y / (real_length s / INR (ncol s)) + INR (shape1 (padded_map s)) / 2)).
Proof.
  intros Hr Hc HL.
  assert (Hnr : INR (nrow s) <> 0) by (apply not_0_INR; lia).
  assert (Hnc : INR (ncol s) <> 0) by (apply not_0_INR; lia).
  assert (Hdx : real_length s / INR (nrow s) <> 0).
  { intros E. apply HL. apply (Rmult_eq_compat_r (INR (nrow s))) in E.
    field_simplify in E; lra. }
  assert (Hdy : real_length s / INR (ncol s) <> 0).
  { intros E. apply HL. apply (Rmult_eq_compat_r (INR (ncol s))) in E.
    field_simplify in E; lra. }
  unfold cart2map, np_true_divide. cbn [nth_error].
  destruct (Req_dec_T (INR (nrow s)) 0); [contradiction | ].
  destruct (Req_dec_T (INR (ncol s)) 0); [contradiction | ].
  destruct (Req_dec_T (real_length s / INR (nrow s)) 0); [contradiction | ].
  destruct (Req_dec_T (real_length s / INR (ncol s)) 0); [contradiction | ].
  reflexivity.
Qed.

(** The cell under an agent in the arena, with the bounds it satisfies. *)
Lemma cart2map_cells (s : HMap) (x y : R) (rest : list R) :
  (0 < nrow s)%nat -> (0 < ncol s)%nat -> 0 < real_length s ->
  shape0 (padded_map s) = (2 * nrow s)%nat ->
  shape1 (padded_map s) = (2 * ncol s)%nat ->
  Rabs x <= real_length s / 2 -> Rabs y <= real_length s / 2 ->
  cart2map s (x :: y :: rest) =
    inr (Zfloor (x * INR (nrow s) / real_length s + INR (nrow s)),
         Zfloor (y * INR (ncol s) / real_length s + INR (ncol s))) /\
  (Z.of_nat (nrow s / 2) <= Zfloor (x * INR (nrow s) / real_length s + INR (nrow s))
   <= Z.of_nat (3 * nrow s / 2))%Z /\
  (Z.of_nat (ncol s / 2) <= Zfloor (y * INR (ncol s) / real_length s + INR (ncol s))
   <= Z.of_nat (3 * ncol s / 2))%Z.
Proof.
  intros Hr Hc HL H0 H1 Hx Hy.
  destruct (map_coordinate_bounds (nrow s) (real_length s) x Hr HL Hx)
    as (Ex & Px & Bx).
  destruct (map_coordinate_bounds (ncol s) (real_length s) y Hc HL Hy)
    as (Ey & Py & By).
  split; [ | split; assumption].
  rewrite cart2map_finite by (try assumption; lra).
  rewrite H0, H1, Ex, Ey. now rewrite !py_trunc_nonneg by assumption.
Qed.


(** X22.  [cart2map] fails where its quotients are not finite or the
    position is too short: on a height field of side length 0 (with at least
    one row) it raises [OverflowError] for an agent off the origin of that
    axis and [ValueError] for an agent on it, and a position with fewer than
    two coordinates raises [IndexError], after the first coordinate has been
    converted. *)
Theorem cart2map_failures (s : HMap) (x y : R) :
  (0 < nrow s)%nat ->
  (real_length s = 0 ->
   (x <> 0 -> cart2map s [x; y] = inl OverflowError) /\
   cart2map s [0; y] = inl (Builtin ValueError)) /\
  cart2map s [] = inl (Builtin IndexError) /\
  (real_length s <> 0 -> cart2map s [x] = inl (Builtin IndexError)).
Proof.
  intros Hr.
  assert (Hnr : INR (nrow s) <> 0) by (apply not_0_INR; lia).
  split; [ | split; [reflexivity | ]].
  - intros HL. unfold cart2map, np_true_divide. cbn [nth_error]. rewrite HL.
    destruct (Req_dec_T (INR (nrow s)) 0); [contradiction | ].
    replace (0 / INR (nrow s)) with 0 by (field; exact Hnr).
    destruct (Req_dec_T 0 0); [ | lra]. split.
    + intros Hx. destruct (Req_dec_T x 0); [contradiction | reflexivity].
    + reflexivity.
  - intros HL. unfold cart2map, np_true_divide. cbn [nth_error].
    destruct (Req_dec_T (INR (nrow s)) 0); [contradiction | ].
    destruct (Req_dec_T (real_length s / INR (nrow s)) 0) as [E | E];
      [ | reflexivity].
    exfalso. apply HL. apply (Rmult_eq_compat_r (INR (nrow s))) in E.
    field_simplify in E; lra.
Qed.

End MapProperties.

(** ** The window around the agent *)

Section WindowProperties.

Context {G : Type}.

Local Abbreviation HMap := (HeightMap G).

(** The first call allocates the window and goes on as every later call. *)
Lemma get_heightmap_obs_alloc (s : HMap) :
  heightmap_window s = None -> (0 <= view_distance s)%Z ->
  get_heightmap_obs s =
  get_heightmap_obs
    (set_heightmap_window
       (np_zeros (Z.to_nat (view_distance s)) (Z.to_nat (view_distance s))) s).
Proof.
  intros Hnone Hvd. unfold get_heightmap_obs at 1. rewrite Hnone.
  destruct (view_distance s <? 0)%Z eqn:E; [apply Z.ltb_lt in E; lia | ].
  reflexivity.
Qed.

(** The slice that [get_heightmap_obs] takes for an agent in the arena, on a
    map that is at least [2 * k] cells wide. *)
Lemma window_slice (s : HMap) (x y : R) (rest : list R) (k : nat) :
  (0 < nrow s)%nat -> (0 < ncol s)%nat -> 0 < real_length s ->
  shape0 (padded_map s) = (2 * nrow s)%nat ->
  shape1 (padded_map s) = (2 * ncol s)%nat ->
  (2 * k <= nrow s)%nat -> (2 * k <= ncol s)%nat ->
  Rabs x <= real_length s / 2 -> Rabs y <= real_length s / 2 ->
  exists mx my : nat,
    cart2map s (x :: y :: rest) = inr (Z.of_nat mx, Z.of_nat my) /\
    (k <= mx)%nat /\ (mx + k <= 2 * nrow s)%nat /\
    (k <= my)%nat /\ (my + k <= 2 * ncol s)%nat /\
    slice_index (shape0 (padded_map s)) (Z.of_nat mx - Z.of_nat k) = (mx - k)%nat /\
    slice_index (shape1 (padded_map s)) (Z.of_nat my - Z.of_nat k) = (my - k)%nat /\
    slice_length (shape0 (padded_map s)) (Z.of_nat mx - Z.of_nat k)
      (Z.of_nat mx + Z.of_nat k) = (2 * k)%nat /\
    slice_length (shape1 (padded_map s)) (Z.of_nat my - Z.of_nat k)
      (Z.of_nat my + Z.of_nat k) = (2 * k)%nat.
Proof.
  intros Hr Hc HL H0 H1 Hkr Hkc Hx Hy.
  destruct (cart2map_cells s x y rest Hr Hc HL H0 H1 Hx Hy) as (E & Bx & By).
  set (fx := Zfloor (x * INR (nrow s) / real_length s + INR (nrow s))) in *.
  set (fy := Zfloor (y * INR (ncol s) / real_length s + INR (ncol s))) in *.
  pose proof (Nat.Div0.mul_div_le (nrow s) 2) as Dr.
  pose proof (Nat.Div0.mul_div_le (ncol s) 2) as Dc.
  pose proof (Nat.Div0.mul_div_le (3 * nrow s) 2) as Dr3.
  pose proof (Nat.Div0.mul_div_le (3 * ncol s) 2) as Dc3.
  assert (Hkr' : (k <= nrow s / 2)%nat) by (apply Nat.div_le_lower_bound; lia).
  assert (Hkc' : (k <= ncol s / 2)%nat) by (apply Nat.div_le_lower_bound; lia).
  exists (Z.to_nat fx), (Z.to_nat fy).
  rewrite !Z2Nat.id by lia.
  split; [exact E | ].
  split; [lia | split; [lia | split; [lia | split; [lia | ]]]].
  rewrite H0, H1.
  split; [rewrite slice_index_inside by lia; lia | ].
  split; [rewrite slice_index_inside by lia; lia | ].
  split; rewrite slice_length_inside by lia; lia.
Qed.




(** A call on an allocated window of odd side [2 * k + 1]. *)
Lemma get_heightmap_obs_odd (s : HMap) (w : ndarray) (x y : R)
    (rest : list R) (k : nat) :
  (0 < nrow s)%nat -> (0 < ncol s)%nat -> 0 < real_length s ->
  shape0 (padded_map s) = (2 * nrow s)%nat ->
  shape1 (padded_map s) = (2 * ncol s)%nat ->
  view_distance s = Z.of_nat (2 * k + 1) ->
  (2 * k <= nrow s)%nat -> (2 * k <= ncol s)%nat ->
  heightmap_window s = Some w -> shape0 w = (2 * k + 1)%nat ->
  qpos s = x :: y :: rest ->
  Rabs x <= real_length s / 2 -> Rabs y <= real_length s / 2 ->
  get_heightmap_obs s = (inl (Builtin ValueError), s).
Proof.
  intros Hr Hc HL H0 H1 Hvd Hkr Hkc Hw Hw0 Hq Hx Hy.
  destruct (window_slice s x y [] k Hr Hc HL H0 H1 Hkr Hkc Hx Hy)
    as (mx & my & E & Bx1 & Bx2 & By1 & By2 & Ix & Iy & Lx & Ly).
  assert (Hspacing : Z.quot (view_distance s) 2 = Z.of_nat k).
  { rewrite Hvd. rewrite Z.quot_div_nonneg by lia.
    symmetry. apply (Z.div_unique _ _ _ 1); lia. }
  unfold get_heightmap_obs. rewrite Hw, Hq. cbn [firstn]. rewrite E, Hspacing.
  rewrite broadcast_to_mismatch; [reflexivity | ].
  left. cbn [getslice2 shape0]. rewrite Lx, Hw0. lia.
Qed.

(** X24.  With an odd [view_distance = 2 * k + 1] the window is one cell
    wider than the slice of [2 * int(view_distance / 2)] cells that is
    copied into it: for an agent inside the arena of a map that holds the
    slice, [get_heightmap_obs] raises [ValueError] on every call, and the
    failed call is not counted in [self.length]. *)
Theorem odd_view_distance_never_observes (s : HMap) (x y : R)
    (rest : list R) (k : nat) :
  (0 < nrow s)%nat -> (0 < ncol s)%nat -> 0 < real_length s ->
  shape0 (padded_map s) = (2 * nrow s)%nat ->
  shape1 (padded_map s) = (2 * ncol s)%nat ->
  view_distance s = Z.of_nat (2 * k + 1) ->
  (2 * k <= nrow s)%nat -> (2 * k <= ncol s)%nat ->
  match heightmap_window s with
  | Some w => shape0 w = (2 * k + 1)%nat
  | None => True
  end ->
  qpos s = x :: y :: rest ->
  Rabs x <= real_length s / 2 -> Rabs y <= real_length s / 2 ->
  fst (get_heightmap_obs s) = inl (Builtin ValueError) /\
  length_ (snd (get_heightmap_obs s)) = length_ s /\
  heightmap_window (snd (get_heightmap_obs s)) <> None.
Proof.
  intros Hr Hc HL H0 H1 Hvd Hkr Hkc Hwin Hq Hx Hy.
  destruct (heightmap_window s) as [w | ] eqn:Hw.
  - rewrite (get_heightmap_obs_odd s w x y rest k) by assumption.
    cbn [fst snd]. rewrite Hw. repeat split. discriminate.
  - rewrite get_heightmap_obs_alloc by (try assumption; lia).
    set (w := np_zeros (Z.to_nat (view_distance s)) (Z.to_nat (view_distance s))).
    assert (Hside : shape0 w = (2 * k + 1)%nat)
      by (unfold w; cbn [np_zeros shape0]; rewrite Hvd; lia).
    rewrite (get_heightmap_obs_odd (set_heightmap_window w s) w x y rest k
               Hr Hc HL H0 H1 Hvd Hkr Hkc eq_refl Hside Hq Hx Hy).
    cbn [fst snd]. repeat split. discriminate.
Qed.

End WindowProperties.

Section ReplayMap.

Local Abbreviation TMap := (HeightMap Tape).

Lemma Rabs_origin_in_arena : Rabs 0 <= 12 / 2.
Proof. rewrite Rabs_R0. lra. Qed.


(** X22 at work: a position with one coordinate. *)
Lemma cart2map_failures_witness :
  cart2map (hmap0 4 2 2 0 0 tape_half) [0] = inl (Builtin IndexError).
Proof.
  assert (Hr : (0 < nrow (hmap0 4 2 2 0 0 tape_half))%nat) by (cbn; lia).
  destruct (cart2map_failures (hmap0 4 2 2 0 0 tape_half) 0 0 Hr)
    as (_ & _ & Hshort).
  apply Hshort. cbn. lra.
Defined.


(** X24 at work: [view_distance = 3]. *)
Lemma odd_view_distance_never_observes_witness :
  fst (get_heightmap_obs (hmap0 4 2 3 0 0 tape_half)) = inl (Builtin ValueError).
Proof.
  apply (odd_view_distance_never_observes (hmap0 4 2 3 0 0 tape_half) 0 0 [1] 1);
    try (cbn; lia); try (cbn; lra); try reflexivity;
    try exact Rabs_origin_in_arena; try exact I.
Defined.

End ReplayMap.

(** * Writing the terrain into the height field *)

(** ** Slice assignment *)

Lemma splice_length {A} (start : nat) (vals l : list A) :
  (start + List.length vals <= List.length l)%nat ->
  List.length (splice start vals l) = List.length l.
Proof.
  intros Hfit. unfold splice.
  rewrite !length_app, length_firstn, length_skipn. lia.
Qed.

Lemma splice_nth {A} (start : nat) (vals l : list A) (i : nat) (d : A) :
  (start + List.length vals <= List.length l)%nat ->
  nth i (splice start vals l) d =
  if ((start <=? i) && (i <? start + List.length vals))%nat
  then nth (i - start) vals d else nth i l d.
Proof.
  intros Hfit. unfold splice.
  assert (Hfirst : List.length (firstn start l) = start)
    by (rewrite length_firstn; lia).
  destruct (start <=? i)%nat eqn:E1; cbn [andb].
  - apply Nat.leb_le in E1.
    rewrite app_nth2 by (rewrite Hfirst; lia). rewrite Hfirst.
    destruct (i <? start + List.length vals)%nat eqn:E2.
    + apply Nat.ltb_lt in E2. apply app_nth1. lia.
    + apply Nat.ltb_ge in E2. rewrite app_nth2 by lia.
      rewrite nth_skipn. f_equal. lia.
  - apply Nat.leb_gt in E1. rewrite app_nth1 by (rewrite Hfirst; lia).
    rewrite nth_firstn. apply Nat.ltb_lt in E1. now rewrite E1.
Qed.

(** Writing a block that fits: the shape is kept, the block holds the source
    and every other cell is what it was. *)
Lemma setslice2_fits (dst src : ndarray) (rs rl cs cl : nat) :
  well_shaped dst -> well_shaped src ->
  shape0 src = rl -> shape1 src = cl ->
  (rs + rl <= shape0 dst)%nat -> (cs + cl <= shape1 dst)%nat ->
  exists d' : ndarray,
    setslice2 dst (Z.of_nat rs) (Z.of_nat (rs + rl)) (Z.of_nat cs) (Z.of_nat (cs + cl)) src
      = Some d' /\
    shape0 d' = shape0 dst /\ shape1 d' = shape1 dst /\
    well_shaped d' /\
    forall i j, (i < shape0 dst)%nat ->
      cell d' i j =
      if ((rs <=? i) && (i <? rs + rl) && ((cs <=? j) && (j <? cs + cl)))%nat
      then cell src (i - rs) (j - cs) else cell dst i j.
Proof.
  intros [Dl Dr] [Sl Sr] H0 H1 Hr Hc.
  assert (Irs : slice_index (shape0 dst) (Z.of_nat rs) = rs)
    by (rewrite slice_index_inside by lia; lia).
  assert (Ics : slice_index (shape1 dst) (Z.of_nat cs) = cs)
    by (rewrite slice_index_inside by lia; lia).
  assert (Lr : slice_length (shape0 dst) (Z.of_nat rs) (Z.of_nat (rs + rl)) = rl)
    by (rewrite slice_length_inside by lia; lia).
  assert (Lc : slice_length (shape1 dst) (Z.of_nat cs) (Z.of_nat (cs + cl)) = cl)
    by (rewrite slice_length_inside by lia; lia).
  unfold setslice2. rewrite Irs, Ics, Lr, Lc.
  rewrite (broadcast_to_same rl cl src H0 H1). cbn [entries].
  set (region := py_slice (shape0 dst) (Z.of_nat rs) (Z.of_nat (rs + rl)) (entries dst)).
  set (f := fun rv : list (option R) * list (option R) =>
              splice cs (snd rv) (fst rv)).
  set (block := map f (combine region (entries src))).
  assert (Hregion : List.length region = rl).
  { unfold region. rewrite (py_slice_length _ _ _ _ Dl). exact Lr. }
  assert (Hblock : List.length block = rl).
  { unfold block. rewrite length_map, length_combine, Hregion, Sl, H0. lia. }
  assert (Hrow : forall i, (i < shape0 dst)%nat ->
            List.length (nth i (entries dst) []) = shape1 dst).
  { intros i Hi. apply well_shaped_row; [split; assumption | exact Hi]. }
  assert (Hsrow : forall a, (a < rl)%nat ->
            List.length (nth a (entries src) []) = cl).
  { intros a Ha. rewrite <- H1. apply well_shaped_row; [split; assumption | lia]. }
  assert (Hbrow : forall a, (a < rl)%nat ->
            nth a block [] =
            splice cs (nth a (entries src) []) (nth (rs + a) (entries dst) [])).
  { intros a Ha. unfold block.
    rewrite (nth_indep _ [] (f ([], [])))
      by (rewrite length_map, length_combine, Hregion, Sl, H0; lia).
    rewrite (map_nth f), combine_nth by (rewrite Hregion, Sl, H0; reflexivity).
    unfold f. cbn [fst snd]. f_equal. unfold region.
    rewrite py_slice_nth by (rewrite Lr; exact Ha). now rewrite Irs. }
  eexists. split; [reflexivity | ]. cbn [shape0 shape1 entries].
  split; [reflexivity | split; [reflexivity | ]].
  assert (Hcells : forall i, (i < shape0 dst)%nat ->
            nth i (splice rs block (entries dst)) [] =
            if ((rs <=? i) && (i <? rs + rl))%nat
            then splice cs (nth (i - rs) (entries src) []) (nth i (entries dst) [])
            else nth i (entries dst) []).
  { intros i Hi. rewrite splice_nth by (rewrite Hblock, Dl; lia). rewrite Hblock.
    destruct ((rs <=? i) && (i <? rs + rl))%nat eqn:E; [ | reflexivity].
    apply andb_prop in E as [E1 E2]. apply Nat.leb_le in E1. apply Nat.ltb_lt in E2.
    rewrite Hbrow by lia. do 2 f_equal. lia. }
  split.
  - split; cbn [entries shape0 shape1].
    + rewrite splice_length by (rewrite Hblock, Dl; lia). exact Dl.
    + apply Forall_forall. intros row Hrow'.
      apply (In_nth _ _ []) in Hrow' as (i & Hi & <-).
      rewrite splice_length in Hi by (rewrite Hblock, Dl; lia). rewrite Dl in Hi.
      rewrite (Hcells i Hi).
      destruct ((rs <=? i) && (i <? rs + rl))%nat eqn:E; [ | now apply Hrow].
      apply andb_prop in E as [E1 E2]. apply Nat.leb_le in E1. apply Nat.ltb_lt in E2.
      rewrite splice_length; [now apply Hrow | ].
      rewrite Hsrow by lia. rewrite Hrow by exact Hi. lia.
  - intros i j Hi. unfold cell. cbn [entries]. rewrite (Hcells i Hi).
    destruct ((rs <=? i) && (i <? rs + rl))%nat eqn:E; cbn [andb]; [ | reflexivity].
    apply andb_prop in E as [E1 E2]. apply Nat.leb_le in E1. apply Nat.ltb_lt in E2.
    rewrite splice_nth by (rewrite Hsrow by lia; rewrite Hrow by exact Hi; lia).
    now rewrite Hsrow by lia.
Qed.

(** ** Patches as they are written *)

Lemma normalized_or_not_finite (f : R -> R) (A B : R) (x : R) (t : list R) :
  (forall q, 0 <= q <= 1 -> A <= f q <= B) ->
  Forall (fun v => match v with Some z => A <= z <= B | None => True end)
    (map (option_map f)
       (map (fun v => np_divide (v - fold_left Rmin t x)
                        (fold_left Rmax t x - fold_left Rmin t x)) (x :: t))).
Proof.
  intros Hf.
  destruct (Rlt_dec (fold_left Rmin t x) (fold_left Rmax t x)) as [Hlt | Hge].
  - eapply Forall_impl; [ | apply (normalized_in f A B _ _ (x :: t) Hlt);
                            [apply min_max_bounds | exact Hf]].
    intros [z | ]; cbn; [tauto | contradiction].
  - pose proof (min_max_bounds x t x (or_introl eq_refl)) as Hb.
    assert (E : fold_left Rmax t x - fold_left Rmin t x = 0) by lra.
    rewrite E. apply Forall_forall. intros v Hv.
    apply in_map_iff in Hv as (w & <- & Hw).
    apply in_map_iff in Hw as (z & <- & _).
    now rewrite np_divide_zero.
Qed.

Lemma terrain_frame_refl {G} (s : HeightMap G) : terrain_frame s s.
Proof. unfold terrain_frame. repeat split. Qed.

Lemma terrain_frame_trans {G} (s1 s2 s3 : HeightMap G) :
  terrain_frame s1 s2 -> terrain_frame s2 s3 -> terrain_frame s1 s3.
Proof.
  unfold terrain_frame.
  intros (A1 & A2 & A3 & A4 & A5 & A6 & A7 & A8 & A9 & A10 & A11 & A12 & A13 & A14)
         (B1 & B2 & B3 & B4 & B5 & B6 & B7 & B8 & B9 & B10 & B11 & B12 & B13 & B14).
  repeat split; congruence.
Qed.

Section PatchesWritten.

Context {G : Type} `{NumpyRandom G} `{!NumpyRandomSpec G}.

Local Abbreviation HMap := (HeightMap G).

(** A patch of a known terrain type and of positive side. *)
Lemma _compute_patch_data_returns (hf : HeightField G) (terrain_type : string) :
  In terrain_type available_terrain_types ->
  (1 <= patch_size hf)%nat ->
  exists (patch : list (list (option R))) (hf' : HeightField G),
    _compute_patch_data terrain_type hf = (Return patch, hf') /\
    patch_size hf' = patch_size hf /\
    square (patch_size hf) patch /\
    Forall (Forall terrain_elevation) patch.
Proof.
  intros Htype Hps.
  destruct Htype as [<- | [<- | [<- | []]]].
  - exists (repeat (repeat (Some 0) (patch_size hf)) (patch_size hf)), hf.
    split; [reflexivity | split; [reflexivity | split]].
    + split; [apply repeat_length | ].
      apply Forall_forall. intros row Hrow. apply repeat_spec in Hrow. subst row.
      apply repeat_length.
    + apply Forall_forall. intros row Hrow. apply repeat_spec in Hrow. subst row.
      apply Forall_forall. intros v Hv. apply repeat_spec in Hv. subst v. cbn. lra.
  - destruct (rough_samples_nonempty hf Hps) as (x & t & E).
    pose proof (rng_uniform_size_length (-0.5) 0.5 (patch_size hf * patch_size hf)
                  (hf_rng hf)) as Hlen.
    rewrite E in Hlen.
    do 2 eexists. split; [ | split; [ | split]].
    + unfold _compute_patch_data. cbn [String.eqb Ascii.eqb Bool.eqb].
      apply (rough_terrain_state hf x t E).
    + reflexivity.
    + apply square_reshape. now rewrite !length_map.
    + apply Forall_reshape.
      eapply Forall_impl;
        [ | apply (normalized_or_not_finite (fun v => v * 0.08 - 0.02) (-0.02) 0.06);
            intros q Hq; lra].
      intros [z | ]; cbn; [lra | tauto].
  - destruct (ripple_nonempty (patch_size hf) Hps) as (x & t & E).
    pose proof (ripple_length (patch_size hf)) as Hlen. rewrite E in Hlen.
    pose proof (hilly_terrain_state hf x t E) as Ev. cbv zeta in Ev.
    pose proof (rng_uniform_range 0.03 0.23 (hf_rng hf) ltac:(lra)) as Hs.
    set (scalar := fst (rng_uniform 0.03 0.23 (hf_rng hf))) in *.
    set (cells := map (option_map (fun v => v * scalar))
                    (map (fun v => np_divide (v - fold_left Rmin t x)
                                     (fold_left Rmax t x - fold_left Rmin t x))
                       (x :: t))) in *.
    assert (Hcells : Forall terrain_elevation cells).
    { eapply Forall_impl;
        [ | apply (normalized_or_not_finite (fun v => v * scalar) 0 scalar);
            intros q Hq; nra].
      intros [z | ]; cbn; [lra | tauto]. }
    assert (Hin : Forall (Forall terrain_elevation)
                    (flip01 (reshape (patch_size hf) (patch_size hf) cells)))
      by (now apply Forall_flip01, Forall_reshape).
    assert (Hsq : square (patch_size hf)
                    (flip01 (reshape (patch_size hf) (patch_size hf) cells))).
    { apply square_flip01, square_reshape. unfold cells. now rewrite !length_map. }
    do 2 eexists. split; [ | split; [ | split]].
    + unfold _compute_patch_data. cbn [String.eqb Ascii.eqb Bool.eqb]. exact Ev.
    + reflexivity.
    + destruct (Rlt_dec _ 0.5); [now apply square_rot90 | exact Hsq].
    + destruct (Rlt_dec _ 0.5); [now apply Forall_rot90 | exact Hin].
Qed.

End PatchesWritten.

Section FillPatch.

Context {G : Type} `{NumpyRandom G} `{!NumpyRandomSpec G}.

Local Abbreviation HMap := (HeightMap G).

Lemma square_well_shaped (n : nat) (patch : list (list (option R))) :
  square n patch ->
  well_shaped {| shape0 := n; shape1 := n; entries := patch |}.
Proof. intros [Hlen Hrows]. split; assumption. Qed.

(** What [_fill_patch] does on a field that holds the block [(i, j)]. *)
Lemma _fill_patch_returns (s : HMap) (i j : nat) (terrain_type : string) :
  In terrain_type available_terrain_types ->
  (1 <= patch_size (patch_gen s))%nat ->
  well_shaped (hfield_data s) ->
  (i * patch_size (patch_gen s) + patch_size (patch_gen s)
   <= shape0 (hfield_data s))%nat ->
  (j * patch_size (patch_gen s) + patch_size (patch_gen s)
   <= shape1 (hfield_data s))%nat ->
  exists (patch : list (list (option R))) (hf' : HeightField G) (d' : ndarray),
    _compute_patch_data terrain_type (patch_gen s) = (Return patch, hf') /\
    patch_size hf' = patch_size (patch_gen s) /\
    Forall (Forall terrain_elevation) patch /\
    _fill_patch i j terrain_type s = (Return tt, set_hfield_data d' (set_field hf' s)) /\
    shape0 d' = shape0 (hfield_data s) /\
    shape1 d' = shape1 (hfield_data s) /\
    well_shaped d' /\
    forall r c, (r < shape0 (hfield_data s))%nat ->
      cell d' r c =
      if ((i * patch_size (patch_gen s) <=? r)
          && (r <? i * patch_size (patch_gen s) + patch_size (patch_gen s))
          && ((j * patch_size (patch_gen s) <=? c)
              && (c <? j * patch_size (patch_gen s) + patch_size (patch_gen s))))%nat
      then nth (c - j * patch_size (patch_gen s))
             (nth (r - i * patch_size (patch_gen s)) patch []) None
      else cell (hfield_data s) r c.
Proof.
  intros Htype Hps Hwf Hr Hc.
  destruct (_compute_patch_data_returns (patch_gen s) terrain_type Htype Hps)
    as (patch & hf' & Ev & Hps' & Hsq & Hok).
  set (ps := patch_size (patch_gen s)) in *.
  destruct (setslice2_fits (hfield_data s)
              {| shape0 := ps; shape1 := ps; entries := patch |}
              (i * ps) ps (j * ps) ps Hwf (square_well_shaped ps patch Hsq)
              eq_refl eq_refl Hr Hc)
    as (d' & Eset & S0 & S1 & Hwf' & Hcells).
  exists patch, hf', d'.
  split; [exact Ev | split; [exact Hps' | split; [exact Hok | ]]].
  split; [ | split; [exact S0 | split; [exact S1 | split; [exact Hwf' | exact Hcells]]]].
  unfold _fill_patch, bind, on_field, gets, modify. rewrite Ev.
  cbn [patch_gen set_field hfield_data]. rewrite Hps'. fold ps.
  now rewrite Eset.
Qed.

(** X25.  [_fill_patch(i, j, t)] with a known terrain type [t], on a height
    field that holds the block, writes one patch and nothing else: the shape
    of the data is kept, the [patch_size] by [patch_size] block at
    [(i * patch_size, j * patch_size)] holds the patch that
    [_compute_patch_data] returns for the generator as it stands, every
    cell outside the block is what it was, and of the object only the
    generator and the data change. *)
Theorem fill_patch_writes_one_block (s : HMap) (i j : nat) (terrain_type : string) :
  In terrain_type available_terrain_types ->
  (1 <= patch_size (patch_gen s))%nat ->
  well_shaped (hfield_data s) ->
  (i * patch_size (patch_gen s) + patch_size (patch_gen s)
   <= shape0 (hfield_data s))%nat ->
  (j * patch_size (patch_gen s) + patch_size (patch_gen s)
   <= shape1 (hfield_data s))%nat ->
  let ps := patch_size (patch_gen s) in
  exists (patch : list (list (option R))) (hf' : HeightField G) (s' : HMap),
    _compute_patch_data terrain_type (patch_gen s) = (Return patch, hf') /\
    _fill_patch i j terrain_type s = (Return tt, s') /\
    patch_gen s' = hf' /\
    terrain_frame s s' /\
    well_shaped (hfield_data s') /\
    shape0 (hfield_data s') = shape0 (hfield_data s) /\
    shape1 (hfield_data s') = shape1 (hfield_data s) /\
    (forall a b, (a < ps)%nat -> (b < ps)%nat ->
       cell (hfield_data s') (i * ps + a) (j * ps + b) = nth b (nth a patch []) None) /\
    (forall r c, (r < shape0 (hfield_data s))%nat ->
       (r < i * ps \/ i * ps + ps <= r \/ c < j * ps \/ j * ps + ps <= c)%nat ->
       cell (hfield_data s') r c = cell (hfield_data s) r c).
Proof.
  intros Htype Hps Hwf Hr Hc ps.
  destruct (_fill_patch_returns s i j terrain_type Htype Hps Hwf Hr Hc)
    as (patch & hf' & d' & Ev & Hps' & _ & Efill & S0 & S1 & Hwf' & Hcells).
  fold ps in Hcells, Hr, Hc.
  exists patch, hf', (set_hfield_data d' (set_field hf' s)).
  split; [exact Ev | split; [exact Efill | split; [reflexivity | ]]].
  split; [unfold terrain_frame; cbn; repeat split; exact Hps' | ].
  cbn [hfield_data set_hfield_data].
  split; [exact Hwf' | split; [exact S0 | split; [exact S1 | split]]].
  - intros a b Ha Hb. rewrite Hcells by lia.
    replace ((i * ps <=? i * ps + a) && (i * ps + a <? i * ps + ps)
             && ((j * ps <=? j * ps + b) && (j * ps + b <? j * ps + ps)))%nat
      with true.
    + do 2 f_equal; lia.
    + symmetry. rewrite !andb_true_iff, !Nat.leb_le, !Nat.ltb_lt. lia.
  - intros r c Hrow Hout. rewrite Hcells by exact Hrow.
    replace ((i * ps <=? r) && (r <? i * ps + ps)
             && ((j * ps <=? c) && (c <? j * ps + ps)))%nat with false;
      [reflexivity | ].
    symmetry. apply not_true_is_false.
    rewrite !andb_true_iff, !Nat.leb_le, !Nat.ltb_lt. lia.
Qed.

End FillPatch.

(** ** The grid of patches *)

Lemma for_each_seq {S} (I : nat -> S -> Prop) (body : nat -> M S unit) (n : nat) :
  forall a,
  (forall k s, (a <= k < a + n)%nat -> I k s ->
     exists s', body k s = (Return tt, s') /\ I (Datatypes.S k) s') ->
  forall s, I a s ->
  exists s', for_each (seq a n) body s = (Return tt, s') /\ I (a + n)%nat s'.
Proof.
  induction n as [ | n IH]; intros a Hstep s Hs.
  - exists s. split; [reflexivity | now rewrite Nat.add_0_r].
  - destruct (Hstep a s ltac:(lia) Hs) as (s1 & E1 & H1).
    destruct (IH (Datatypes.S a)) with (s := s1) as (s2 & E2 & H2).
    + intros k s' Hk. apply Hstep. lia.
    + exact H1.
    + exists s2. split.
      * cbn [seq for_each]. unfold bind. rewrite E1. exact E2.
      * replace (a + Datatypes.S n)%nat with (Datatypes.S a + n)%nat by lia. exact H2.
Qed.

Lemma square_cell {P : option R -> Prop} (n : nat) (patch : list (list (option R)))
    (a b : nat) :
  square n patch -> Forall (Forall P) patch -> (a < n)%nat -> (b < n)%nat ->
  P (nth b (nth a patch []) None).
Proof.
  intros [Hlen Hrows] Hok Ha Hb.
  assert (Hin : In (nth a patch []) patch) by (apply nth_In; lia).
  assert (Hrow : List.length (nth a patch []) = n).
  { revert Hin. generalize (nth a patch []). now apply Forall_forall. }
  assert (Hall : Forall P (nth a patch [])).
  { revert Hin. generalize (nth a patch []). now apply Forall_forall. }
  assert (Hcell : In (nth b (nth a patch []) None) (nth a patch []))
    by (apply nth_In; lia).
  revert Hcell. generalize (nth b (nth a patch []) None). now apply Forall_forall.
Qed.

Section PopulatePatches.

Context {G : Type} `{NumpyRandom G} `{!NumpyRandomSpec G}.

Local Abbreviation HMap := (HeightMap G).

Lemma populate_turn_returns (s : HMap) (i j : nat) :
  (1 <= patch_size (patch_gen s))%nat ->
  well_shaped (hfield_data s) ->
  (i * patch_size (patch_gen s) + patch_size (patch_gen s)
   <= shape0 (hfield_data s))%nat ->
  (j * patch_size (patch_gen s) + patch_size (patch_gen s)
   <= shape1 (hfield_data s))%nat ->
  let ps := patch_size (patch_gen s) in
  exists s' : HMap,
    populate_turn i j s = (Return tt, s') /\
    terrain_frame s s' /\
    well_shaped (hfield_data s') /\
    shape0 (hfield_data s') = shape0 (hfield_data s) /\
    shape1 (hfield_data s') = shape1 (hfield_data s) /\
    (forall r c, (r < shape0 (hfield_data s))%nat ->
       (r < i * ps \/ i * ps + ps <= r \/ c < j * ps \/ j * ps + ps <= c)%nat ->
       cell (hfield_data s') r c = cell (hfield_data s) r c) /\
    (forall r c, (i * ps <= r < i * ps + ps)%nat -> (j * ps <= c < j * ps + ps)%nat ->
       terrain_elevation (cell (hfield_data s') r c)).
Proof.
  intros Hps Hwf Hr Hc ps.
  pose proof (rng_choice_range (List.length available_terrain_types)
                (hf_rng (patch_gen s)) ltac:(cbn; lia)) as Hk.
  destruct (rng_choice (List.length available_terrain_types) (hf_rng (patch_gen s)))
    as [k g'] eqn:Ek.
  cbn [fst] in Hk.
  set (s1 := set_field {| hf_rng := g'; patch_size := patch_size (patch_gen s) |} s).
  assert (Edraw : on_field (hf_draw (rng_choice (List.length available_terrain_types))) s
                  = (Return k, s1)).
  { unfold on_field, hf_draw. now rewrite Ek. }
  destruct (nth_error available_terrain_types k) as [terrain_type | ] eqn:Et;
    [ | apply nth_error_None in Et; lia].
  assert (Htype : In terrain_type available_terrain_types)
    by (eapply nth_error_In; exact Et).
  destruct (_fill_patch_returns s1 i j terrain_type Htype Hps Hwf Hr Hc)
    as (patch & hf' & d' & Ev & Hps' & Hok & Efill & S0 & S1 & Hwf' & Hcells).
  change (patch_size (patch_gen s1)) with ps in *.
  change (hfield_data s1) with (hfield_data s) in *.
  assert (Hsq : square ps patch).
  { destruct (_compute_patch_data_returns (patch_gen s1) terrain_type Htype Hps)
      as (patch2 & hf2 & Ev2 & _ & Hsq2 & _).
    rewrite Ev in Ev2. inversion Ev2; subst. exact Hsq2. }
  exists (set_hfield_data d' (set_field hf' s1)).
  split; [ | split; [ | split; [exact Hwf' | split; [exact S0 | split; [exact S1 | split]]]]].
  - unfold populate_turn, bind. rewrite Edraw, Et. exact Efill.
  - unfold terrain_frame; cbn; repeat split; exact Hps'.
  - intros r c Hrow Hout. cbn [hfield_data set_hfield_data].
    rewrite Hcells by exact Hrow.
    replace ((i * ps <=? r) && (r <? i * ps + ps)
             && ((j * ps <=? c) && (c <? j * ps + ps)))%nat with false;
      [reflexivity | ].
    symmetry. apply not_true_is_false.
    rewrite !andb_true_iff, !Nat.leb_le, !Nat.ltb_lt. lia.
  - intros r c Hrb Hcb. cbn [hfield_data set_hfield_data].
    rewrite Hcells by lia.
    replace ((i * ps <=? r) && (r <? i * ps + ps)
             && ((j * ps <=? c) && (c <? j * ps + ps)))%nat with true.
    + apply (square_cell ps); try assumption; lia.
    + symmetry. rewrite !andb_true_iff, !Nat.leb_le, !Nat.ltb_lt. lia.
Qed.

End PopulatePatches.

Section PopulateGrid.

Context {G : Type} `{NumpyRandom G} `{!NumpyRandomSpec G}.

Local Abbreviation HMap := (HeightMap G).

(** One row of patches: the inner loop. *)
Lemma populate_row (s : HMap) (i pps ps n0 n1 : nat) :
  patch_size (patch_gen s) = ps -> (1 <= ps)%nat ->
  well_shaped (hfield_data s) ->
  shape0 (hfield_data s) = n0 -> shape1 (hfield_data s) = n1 ->
  (pps * ps <= n0)%nat -> (pps * ps <= n1)%nat -> (i < pps)%nat ->
  exists s' : HMap,
    for_each (seq 0 pps) (populate_turn i) s = (Return tt, s') /\
    terrain_frame s s' /\
    well_shaped (hfield_data s') /\
    shape0 (hfield_data s') = n0 /\ shape1 (hfield_data s') = n1 /\
    (forall r c, (r < n0)%nat -> (r < i * ps \/ i * ps + ps <= r \/ pps * ps <= c)%nat ->
       cell (hfield_data s') r c = cell (hfield_data s) r c) /\
    (forall r c, (i * ps <= r < i * ps + ps)%nat -> (c < pps * ps)%nat ->
       terrain_elevation (cell (hfield_data s') r c)).
Proof.
  intros Hps Hpos Hwf H0 H1 Hfit0 Hfit1 Hi.
  set (I := fun (j : nat) (s' : HMap) =>
              terrain_frame s s' /\
              well_shaped (hfield_data s') /\
              shape0 (hfield_data s') = n0 /\ shape1 (hfield_data s') = n1 /\
              (forall r c, (r < n0)%nat ->
                 (r < i * ps \/ i * ps + ps <= r \/ j * ps <= c)%nat ->
                 cell (hfield_data s') r c = cell (hfield_data s) r c) /\
              (forall r c, (i * ps <= r < i * ps + ps)%nat -> (c < j * ps)%nat ->
                 terrain_elevation (cell (hfield_data s') r c))).
  destruct (for_each_seq I (populate_turn i) pps 0) with (s := s)
    as (s' & E & Hfr & Hwf' & S0 & S1 & Hsame & Hok).
  - intros j s1 Hj (Hfr & Hwf1 & S0 & S1 & Hsame & Hok).
    assert (Hps1 : patch_size (patch_gen s1) = ps)
      by (destruct Hfr as (P & _); congruence).
    destruct (populate_turn_returns s1 i j) as (s2 & E2 & Hfr2 & Hwf2 & T0 & T1 & Hout & Hin).
    + rewrite Hps1. exact Hpos.
    + exact Hwf1.
    + rewrite Hps1, S0. nia.
    + rewrite Hps1, S1. nia.
    + rewrite Hps1 in Hout, Hin. rewrite S0 in Hout.
      exists s2. split; [exact E2 | ].
      split; [now apply (terrain_frame_trans s s1 s2) | ].
      split; [exact Hwf2 | split; [congruence | split; [congruence | split]]].
      * intros r c Hr Hcase. rewrite Hout by (try assumption; lia).
        apply Hsame; [exact Hr | lia].
      * intros r c Hr Hc.
        destruct (Nat.lt_ge_cases c (j * ps)) as [Hlt | Hge].
        -- rewrite Hout by (try lia; nia). now apply Hok.
        -- apply Hin; lia.
  - unfold I. split; [apply terrain_frame_refl | ].
    split; [exact Hwf | split; [exact H0 | split; [exact H1 | split]]].
    + reflexivity.
    + intros r c _ Hc. lia.
  - exists s'. split; [exact E | ].
    split; [exact Hfr | split; [exact Hwf' | split; [exact S0 | split; [exact S1 | ]]]].
    split; assumption.
Qed.

(** The whole grid: the outer loop. *)
Lemma _populate_patches_returns (s : HMap) :
  (1 <= patch_size (patch_gen s))%nat ->
  well_shaped (hfield_data s) ->
  (patches_per_side s * patch_size (patch_gen s) <= shape0 (hfield_data s))%nat ->
  (patches_per_side s * patch_size (patch_gen s) <= shape1 (hfield_data s))%nat ->
  let side := (patches_per_side s * patch_size (patch_gen s))%nat in
  exists s' : HMap,
    _populate_patches s = (Return tt, s') /\
    terrain_frame s s' /\
    well_shaped (hfield_data s') /\
    shape0 (hfield_data s') = shape0 (hfield_data s) /\
    shape1 (hfield_data s') = shape1 (hfield_data s) /\
    (forall r c, (r < side)%nat -> (c < side)%nat ->
       terrain_elevation (cell (hfield_data s') r c)) /\
    (forall r c, (r < shape0 (hfield_data s))%nat -> (side <= r \/ side <= c)%nat ->
       cell (hfield_data s') r c = cell (hfield_data s) r c).
Proof.
  intros Hpos Hwf Hfit0 Hfit1 side.
  set (pps := patches_per_side s) in *. set (ps := patch_size (patch_gen s)) in *.
  set (n0 := shape0 (hfield_data s)) in *. set (n1 := shape1 (hfield_data s)) in *.
  set (I := fun (i : nat) (s' : HMap) =>
              terrain_frame s s' /\
              well_shaped (hfield_data s') /\
              shape0 (hfield_data s') = n0 /\ shape1 (hfield_data s') = n1 /\
              (forall r c, (r < n0)%nat -> (i * ps <= r \/ pps * ps <= c)%nat ->
                 cell (hfield_data s') r c = cell (hfield_data s) r c) /\
              (forall r c, (r < i * ps)%nat -> (c < pps * ps)%nat ->
                 terrain_elevation (cell (hfield_data s') r c))).
  destruct (for_each_seq I
              (fun i => pps' <- gets patches_per_side ;;
                        for_each (seq 0 pps') (populate_turn i)) pps 0)
    with (s := s) as (s' & E & Hfr & Hwf' & S0 & S1 & Hsame & Hok).
  - intros i s1 Hi (Hfr & Hwf1 & S0 & S1 & Hsame & Hok).
    assert (Hps1 : patch_size (patch_gen s1) = ps)
      by (destruct Hfr as (P & _); exact P).
    assert (Hpps1 : patches_per_side s1 = pps)
      by (destruct Hfr as (_ & P & _); exact P).
    destruct (populate_row s1 i pps ps n0 n1 Hps1 Hpos Hwf1 S0 S1 Hfit0 Hfit1)
      as (s2 & E2 & Hfr2 & Hwf2 & T0 & T1 & Hout & Hin); [lia | ].
    exists s2. split; [unfold bind, gets; rewrite Hpps1; exact E2 | ].
    split; [now apply (terrain_frame_trans s s1 s2) | ].
    split; [exact Hwf2 | split; [exact T0 | split; [exact T1 | split]]].
    + intros r c Hr Hcase. rewrite Hout by (try assumption; lia).
      apply Hsame; [exact Hr | lia].
    + intros r c Hr Hc.
      destruct (Nat.lt_ge_cases r (i * ps)) as [Hlt | Hge].
      * rewrite Hout by (try lia; apply Nat.lt_le_trans with (pps * ps)%nat; nia).
        now apply Hok.
      * apply Hin; lia.
  - unfold I. split; [apply terrain_frame_refl | ].
    split; [exact Hwf | split; [reflexivity | split; [reflexivity | split]]].
    + reflexivity.
    + intros r c Hr _. lia.
  - exists s'. split; [exact E | ].
    split; [exact Hfr | split; [exact Hwf' | split; [exact S0 | split; [exact S1 | ]]]].
    cbn [Nat.add] in Hsame, Hok. split.
    + intros r c Hr Hc. now apply Hok.
    + intros r c Hr Hcase. apply Hsame; [exact Hr | exact Hcase].
Qed.

(** X26.  On a height field whose data holds [patches_per_side] patches of
    positive side [patch_size] in each direction, [_populate_patches] never
    fails: it returns after [patches_per_side ^ 2] patches, keeps the shape
    of the data and, of the object, changes only the generator and the data.
    Afterwards every cell of the grid of patches is an elevation in
    [[-0.02, 0.23)] or not finite, whatever the data held before, and the
    margin that the grid does not reach (when [nrow] is not a multiple of
    [patches_per_side]) is never written. *)
Theorem populate_patches_fills_the_grid (s : HMap) :
  (1 <= patch_size (patch_gen s))%nat ->
  well_shaped (hfield_data s) ->
  (patches_per_side s * patch_size (patch_gen s) <= shape0 (hfield_data s))%nat ->
  (patches_per_side s * patch_size (patch_gen s) <= shape1 (hfield_data s))%nat ->
  let side := (patches_per_side s * patch_size (patch_gen s))%nat in
  exists s' : HMap,
    _populate_patches s = (Return tt, s') /\
    terrain_frame s s' /\
    well_shaped (hfield_data s') /\
    shape0 (hfield_data s') = shape0 (hfield_data s) /\
    shape1 (hfield_data s') = shape1 (hfield_data s) /\
    (forall r c, (r < side)%nat -> (c < side)%nat ->
       terrain_elevation (cell (hfield_data s') r c)) /\
    (forall r c, (r < shape0 (hfield_data s))%nat -> (side <= r \/ side <= c)%nat ->
       cell (hfield_data s') r c = cell (hfield_data s) r c).
Proof.
  intros Hpos Hwf Hfit0 Hfit1. now apply _populate_patches_returns.
Qed.

End PopulateGrid.

(** ** Sampling a terrain *)

Lemma three_halves (n : nat) : ((n + 2 * n) / 2 = n / 2 + n)%nat.
Proof. replace (n + 2 * n)%nat with (n + n * 2)%nat by lia. now apply Nat.div_add. Qed.

Section SampleTerrain.

Context {G : Type} `{NumpyRandom G} `{!NumpyRandomSpec G}.

Local Abbreviation HMap := (HeightMap G).

(** [sample] once the patches are written. *)
Lemma sample_after_populate (rng : option G) (s s1 : HMap) :
  _populate_patches (with_rng rng s) = (Return tt, s1) ->
  sample rng s =
  match setslice2 (padded_map s1)
          (Z.of_nat (nrow s1 / 2))
          (Z.of_nat ((nrow s1 + shape0 (padded_map s1)) / 2))
          (Z.of_nat (nrow s1 / 2))
          (Z.of_nat ((ncol s1 + shape1 (padded_map s1)) / 2))
          (hfield_data s1) with
  | Some p => (Return tt, update_hfield (set_padded_map p (show_terrain s1)))
  | None => (Raise ValueError, show_terrain s1)
  end.
Proof.
  intros E. unfold sample, bind, modify, ret, gets, raise.
  destruct rng as [g | ]; cbn [with_rng] in E; rewrite E;
    cbn [padded_map nrow ncol hfield_data show_terrain];
    destruct (setslice2 _ _ _ _ _ _); reflexivity.
Qed.

(** The patches that [sample] writes. *)
Lemma sample_populates (rng : option G) (s : HMap) :
  (1 <= patch_size (patch_gen s))%nat ->
  well_shaped (hfield_data s) ->
  shape0 (hfield_data s) = nrow s -> shape1 (hfield_data s) = ncol s ->
  (patches_per_side s * patch_size (patch_gen s) <= nrow s)%nat ->
  (patches_per_side s * patch_size (patch_gen s) <= ncol s)%nat ->
  exists s1 : HMap,
    _populate_patches (with_rng rng s) = (Return tt, s1) /\
    terrain_frame s s1 /\
    well_shaped (hfield_data s1) /\
    shape0 (hfield_data s1) = nrow s /\ shape1 (hfield_data s1) = ncol s /\
    (forall r c,
       (r < patches_per_side s * patch_size (patch_gen s))%nat ->
       (c < patches_per_side s * patch_size (patch_gen s))%nat ->
       terrain_elevation (cell (hfield_data s1) r c)).
Proof.
  intros Hpos Hwf H0 H1 Hfit0 Hfit1.
  assert (Hfr : terrain_frame s (with_rng rng s)).
  { destruct rng; [ | apply terrain_frame_refl].
    unfold terrain_frame; cbn; repeat split. }
  assert (Hdata : hfield_data (with_rng rng s) = hfield_data s)
    by (destruct rng; reflexivity).
  assert (Hps : patch_size (patch_gen (with_rng rng s)) = patch_size (patch_gen s))
    by (destruct rng; reflexivity).
  assert (Hpps : patches_per_side (with_rng rng s) = patches_per_side s)
    by (destruct rng; reflexivity).
  destruct (_populate_patches_returns (with_rng rng s))
    as (s1 & E & Hfr1 & Hwf1 & S0 & S1 & Hok & _).
  - now rewrite Hps.
  - now rewrite Hdata.
  - rewrite Hps, Hpps, Hdata, H0. exact Hfit0.
  - rewrite Hps, Hpps, Hdata, H1. exact Hfit1.
  - rewrite Hps, Hpps in Hok. rewrite Hdata in S0, S1.
    exists s1. split; [exact E | ].
    split; [now apply (terrain_frame_trans s (with_rng rng s) s1) | ].
    split; [exact Hwf1 | split; [congruence | split; [congruence | exact Hok]]].
Qed.

(** What a returning [sample] leaves behind on a field with
    [nrow // 2 = ncol // 2]. *)
Lemma sample_returns (rng : option G) (s : HMap) :
  (1 <= patch_size (patch_gen s))%nat ->
  well_shaped (hfield_data s) -> well_shaped (padded_map s) ->
  shape0 (hfield_data s) = nrow s -> shape1 (hfield_data s) = ncol s ->
  shape0 (padded_map s) = (2 * nrow s)%nat ->
  shape1 (padded_map s) = (2 * ncol s)%nat ->
  (nrow s / 2 = ncol s / 2)%nat ->
  (patches_per_side s * patch_size (patch_gen s) <= nrow s)%nat ->
  (patches_per_side s * patch_size (patch_gen s) <= ncol s)%nat ->
  exists (s1 : HMap) (p : ndarray),
    _populate_patches (with_rng rng s) = (Return tt, s1) /\
    terrain_frame s s1 /\
    sample rng s = (Return tt, update_hfield (set_padded_map p (show_terrain s1))) /\
    well_shaped p /\
    shape0 p = (2 * nrow s)%nat /\ shape1 p = (2 * ncol s)%nat /\
    (forall r c, (r < 2 * nrow s)%nat ->
       cell p r c =
       if ((nrow s / 2 <=? r) && (r <? nrow s / 2 + nrow s)
           && ((nrow s / 2 <=? c) && (c <? nrow s / 2 + ncol s)))%nat
       then cell (hfield_data s1) (r - nrow s / 2) (c - nrow s / 2)
       else cell (padded_map s) r c) /\
    (forall r c,
       (r < patches_per_side s * patch_size (patch_gen s))%nat ->
       (c < patches_per_side s * patch_size (patch_gen s))%nat ->
       terrain_elevation (cell (hfield_data s1) r c)).
Proof.
  intros Hpos Hwf Hwfp H0 H1 P0 P1 Hhalf Hfit0 Hfit1.
  destruct (sample_populates rng s Hpos Hwf H0 H1 Hfit0 Hfit1)
    as (s1 & E & Hfr & Hwf1 & S0 & S1 & Hok).
  pose proof Hfr as (_ & _ & _ & _ & Fr & Fc & Fp & _).
  pose proof (Nat.Div0.mul_div_le (nrow s) 2) as Dr.
  pose proof (Nat.Div0.mul_div_le (ncol s) 2) as Dc.
  destruct (setslice2_fits (padded_map s) (hfield_data s1)
              (nrow s / 2) (nrow s) (nrow s / 2) (ncol s) Hwfp Hwf1 S0 S1)
    as (p & Eset & Q0 & Q1 & Hwfq & Hcells).
  { rewrite P0. lia. }
  { rewrite P1, Hhalf. lia. }
  exists s1, p. split; [exact E | split; [exact Hfr | ]].
  split; [ | split; [exact Hwfq | split; [congruence | split; [congruence | split]]]].
  - rewrite (sample_after_populate rng s s1 E). rewrite Fr, Fc, Fp, P0, P1.
    rewrite !three_halves. rewrite <- Hhalf.
    now rewrite Eset.
  - intros r c Hr. apply Hcells. now rewrite P0.
  - exact Hok.
Qed.

End SampleTerrain.

Section SampleProperties.

Context {G : Type} `{NumpyRandom G} `{!NumpyRandomSpec G}.

Local Abbreviation HMap := (HeightMap G).

(** X27.  On a height field with [nrow // 2 = ncol // 2] (a square one, as
    the class assumes) whose data holds the grid of patches, [sample]
    returns: it takes the generator it is handed, writes the patches, makes
    the terrain geom visible and solid at the origin, and copies the new
    height field data into the padded map, at offset [nrow // 2] in both
    directions.  Every cell of the padded map outside that copy is what it
    was, and a renderer window, if there is one, gets one upload. *)
Theorem sample_embeds_the_height_field (rng : option G) (s : HMap) :
  (1 <= patch_size (patch_gen s))%nat ->
  well_shaped (hfield_data s) -> well_shaped (padded_map s) ->
  shape0 (hfield_data s) = nrow s -> shape1 (hfield_data s) = ncol s ->
  shape0 (padded_map s) = (2 * nrow s)%nat ->
  shape1 (padded_map s) = (2 * ncol s)%nat ->
  (nrow s / 2 = ncol s / 2)%nat ->
  (patches_per_side s * patch_size (patch_gen s) <= nrow s)%nat ->
  (patches_per_side s * patch_size (patch_gen s) <= ncol s)%nat ->
  exists s1 s' : HMap,
    _populate_patches (with_rng rng s) = (Return tt, s1) /\
    sample rng s = (Return tt, s') /\
    hfield_data s' = hfield_data s1 /\ patch_gen s' = patch_gen s1 /\
    terrain_alpha s' = 1 /\ terrain_pos s' = (0, 0, 0) /\ terrain_contype s' = 1%Z /\
    hfield_uploads s' = option_map S (hfield_uploads s) /\
    well_shaped (padded_map s') /\
    shape0 (padded_map s') = (2 * nrow s)%nat /\
    shape1 (padded_map s') = (2 * ncol s)%nat /\
    (forall r c, (r < nrow s)%nat -> (c < ncol s)%nat ->
       cell (padded_map s') (nrow s / 2 + r) (nrow s / 2 + c) =
       cell (hfield_data s') r c) /\
    (forall r c, (r < 2 * nrow s)%nat ->
       (r < nrow s / 2 \/ nrow s / 2 + nrow s <= r \/
        c < nrow s / 2 \/ nrow s / 2 + ncol s <= c)%nat ->
       cell (padded_map s') r c = cell (padded_map s) r c).
Proof.
  intros Hpos Hwf Hwfp H0 H1 P0 P1 Hhalf Hfit0 Hfit1.
  destruct (sample_returns rng s Hpos Hwf Hwfp H0 H1 P0 P1 Hhalf Hfit0 Hfit1)
    as (s1 & p & E & Hfr & Es & Hwfq & Q0 & Q1 & Hcells & _).
  pose proof Hfr as (_ & _ & _ & _ & _ & _ & _ & _ & _ & _ & _ & _ & _ & Fu).
  pose proof (Nat.Div0.mul_div_le (nrow s) 2) as Dr.
  exists s1, (update_hfield (set_padded_map p (show_terrain s1))).
  split; [exact E | split; [exact Es | ]].
  cbn [hfield_data patch_gen terrain_alpha terrain_pos terrain_contype hfield_uploads
       padded_map update_hfield set_padded_map show_terrain].
  repeat (split; [reflexivity | ]).
  split; [now rewrite Fu | ].
  split; [exact Hwfq | split; [exact Q0 | split; [exact Q1 | split]]].
  - intros r c Hr Hc. rewrite Hcells by lia.
    replace ((nrow s / 2 <=? nrow s / 2 + r) && (nrow s / 2 + r <? nrow s / 2 + nrow s)
             && ((nrow s / 2 <=? nrow s / 2 + c)
                 && (nrow s / 2 + c <? nrow s / 2 + ncol s)))%nat with true.
    + f_equal; lia.
    + symmetry. rewrite !andb_true_iff, !Nat.leb_le, !Nat.ltb_lt. lia.
  - intros r c Hr Hout. rewrite Hcells by exact Hr.
    replace ((nrow s / 2 <=? r) && (r <? nrow s / 2 + nrow s)
             && ((nrow s / 2 <=? c) && (c <? nrow s / 2 + ncol s)))%nat with false;
      [reflexivity | ].
    symmetry. apply not_true_is_false.
    rewrite !andb_true_iff, !Nat.leb_le, !Nat.ltb_lt. lia.
Qed.

(** X28.  The copy into the padded map starts at [nrow // 2] in both
    directions.  On a height field with [nrow // 2 <> ncol // 2] and more
    than one column, [sample] therefore fails with [ValueError], and it does
    so after the patches have been rewritten and the terrain geom has been
    made visible; the padded map is left as it was. *)
Theorem sample_fails_on_unequal_halves (rng : option G) (s : HMap) :
  (1 <= patch_size (patch_gen s))%nat ->
  well_shaped (hfield_data s) ->
  shape0 (hfield_data s) = nrow s -> shape1 (hfield_data s) = ncol s ->
  shape0 (padded_map s) = (2 * nrow s)%nat ->
  shape1 (padded_map s) = (2 * ncol s)%nat ->
  (nrow s / 2 <> ncol s / 2)%nat -> (1 < ncol s)%nat ->
  (patches_per_side s * patch_size (patch_gen s) <= nrow s)%nat ->
  (patches_per_side s * patch_size (patch_gen s) <= ncol s)%nat ->
  exists s1 : HMap,
    _populate_patches (with_rng rng s) = (Return tt, s1) /\
    sample rng s = (Raise ValueError, show_terrain s1) /\
    padded_map (show_terrain s1) = padded_map s /\
    terrain_alpha (show_terrain s1) = 1.
Proof.
  intros Hpos Hwf H0 H1 P0 P1 Hhalf Hcol Hfit0 Hfit1.
  destruct (sample_populates rng s Hpos Hwf H0 H1 Hfit0 Hfit1)
    as (s1 & E & Hfr & Hwf1 & S0 & S1 & _).
  pose proof Hfr as (_ & _ & _ & _ & Fr & Fc & Fp & _).
  exists s1. split; [exact E | split; [ | split; [exact Fp | reflexivity]]].
  rewrite (sample_after_populate rng s s1 E). rewrite Fr, Fc, Fp, P0, P1.
  unfold setslice2. rewrite broadcast_to_mismatch; [reflexivity | ].
  right. rewrite S1, P1, three_halves. split; [ | lia].
  pose proof (Nat.Div0.mul_div_le (ncol s) 2) as Dc.
  unfold slice_length, slice_index.
  destruct (Z.of_nat (ncol s / 2 + ncol s) <? 0)%Z eqn:E1;
    [apply Z.ltb_lt in E1; lia | ].
  destruct (Z.of_nat (nrow s / 2) <? 0)%Z eqn:E2;
    [apply Z.ltb_lt in E2; lia | ].
  lia.
Qed.


End SampleProperties.

Section ReplayTerrainMap.

Local Abbreviation TMap := (HeightMap Tape).

Local Abbreviation h0 := (hmap0 4 2 2 0 0 tape_half).

(** X25 at work: a rough patch in the lower right block of a field of 4 by 4
    cells leaves the upper left cell as it is. *)
Lemma fill_patch_writes_one_block_witness :
  exists s' : TMap,
    _fill_patch 1 1 "rough" h0 = (Return tt, s') /\
    shape0 (hfield_data s') = 4%nat /\
    cell (hfield_data s') 0 0 = Some 0.
Proof.
  destruct (fill_patch_writes_one_block h0 1 1 "rough")
    as (patch & hf' & s' & _ & E & _ & _ & _ & S0 & _ & _ & Hout);
    try (cbn; lia); try apply well_shaped_np_zeros.
  { cbn. auto. }
  exists s'. split; [exact E | split; [exact S0 | ]].
  rewrite Hout by (cbn; lia). reflexivity.
Defined.

(** X26 at work: the four patches of that field. *)
Lemma populate_patches_fills_the_grid_witness :
  exists s' : TMap,
    _populate_patches h0 = (Return tt, s') /\
    terrain_elevation (cell (hfield_data s') 3 3) /\
    padded_map s' = padded_map h0.
Proof.
  destruct (populate_patches_fills_the_grid h0)
    as (s' & E & Hfr & _ & _ & _ & Hok & _);
    try (cbn; lia); try apply well_shaped_np_zeros.
  exists s'. split; [exact E | split].
  - apply Hok; cbn; lia.
  - destruct Hfr as (_ & _ & _ & _ & _ & _ & Fp & _). exact Fp.
Defined.

(** X27 at work: the corner of the padded map stays at zero. *)
Lemma sample_embeds_the_height_field_witness :
  exists s' : TMap,
    sample None h0 = (Return tt, s') /\
    terrain_alpha s' = 1 /\
    cell (padded_map s') 0 0 = Some 0.
Proof.
  destruct (sample_embeds_the_height_field None h0)
    as (s1 & s' & _ & E & _ & _ & Ha & _ & _ & _ & _ & _ & _ & _ & Hout);
    try (cbn; lia); try apply well_shaped_np_zeros; try reflexivity.
  exists s'. split; [exact E | split; [exact Ha | ]].
  rewrite Hout by (cbn; lia). reflexivity.
Defined.

(** X28 at work: a field of 4 rows and 6 columns. *)
Lemma sample_fails_on_unequal_halves_witness :
  fst (sample None (hmap_rect 4 6 2 tape_half)) = Raise ValueError.
Proof.
  destruct (sample_fails_on_unequal_halves None (hmap_rect 4 6 2 tape_half))
    as (s1 & _ & E & _);
    try (cbn; lia); try apply well_shaped_np_zeros; try reflexivity.
  now rewrite E.
Defined.


End ReplayTerrainMap.

(** * The constructor of the height field *)

Lemma Zfloor_nat_div (n d : nat) :
  (1 <= d)%nat -> Zfloor (INR n / INR d) = Z.of_nat (n / d).
Proof.
  intros Hd.
  assert (Hpos : 0 < INR d) by (apply lt_0_INR; lia).
  pose proof (Nat.div_mod_eq n d) as Hdiv.
  pose proof (Nat.mod_upper_bound n d ltac:(lia)) as Hmod.
  assert (Hn : INR n = INR d * INR (n / d) + INR (n mod d)).
  { rewrite <- mult_INR, <- plus_INR. now rewrite <- Hdiv. }
  assert (Hr : 0 <= INR (n mod d) < INR d)
    by (split; [apply pos_INR | now apply lt_INR]).
  apply Zfloor_eq. rewrite <- INR_IZR_INZ. split.
  - apply Rmult_le_reg_r with (INR d); [exact Hpos | ].
    replace (INR n / INR d * INR d) with (INR n) by (field; lra). nra.
  - apply Rmult_lt_reg_r with (INR d); [exact Hpos | ].
    replace (INR n / INR d * INR d) with (INR n) by (field; lra). nra.
Qed.

Section ConstructorProperties.

Context {G : Type} `{NumpyRandom G} `{!NumpyRandomSpec G}.

Local Abbreviation HMap := (HeightMap G).

(** X30.  The constructor on a simulation whose height field has [nrow]
    rows and at least as many columns, with [1 <= patches_per_side <= nrow]:
    it returns an object with [patch_size = nrow // patches_per_side], a
    padded map of zeros of shape [(2 * nrow, 2 * ncol)], no window and no
    call count yet, and with the patches already written into the height
    field data of the simulation, whose shape is kept and whose grid cells
    are elevations in [[-0.02, 0.23)] or not finite.  With
    [patches_per_side = 0] it fails on the conversion of the patch size: with
    [OverflowError] when there are rows, with [ValueError] when there are
    none. *)
Theorem constructor_builds_a_populated_field (rng : G) (pps : nat) (length : R)
    (distance : Z) (s : HMap) :
  well_shaped (hfield_data s) ->
  shape0 (hfield_data s) = nrow s -> shape1 (hfield_data s) = ncol s ->
  (nrow s <= ncol s)%nat ->
  ((1 <= pps <= nrow s)%nat ->
   exists s' : HMap,
     HeightField_init rng pps length distance s = inr (Return tt, s') /\
     patch_size (patch_gen s') = (nrow s / pps)%nat /\
     (1 <= patch_size (patch_gen s'))%nat /\
     patches_per_side s' = pps /\ real_length s' = length /\
     view_distance s' = distance /\
     nrow s' = nrow s /\ ncol s' = ncol s /\ qpos s' = qpos s /\
     padded_map s' = np_zeros (2 * nrow s) (2 * ncol s) /\
     heightmap_window s' = None /\ length_ s' = None /\
     well_shaped (hfield_data s') /\
     shape0 (hfield_data s') = nrow s /\ shape1 (hfield_data s') = ncol s /\
     (forall r c, (r < pps * (nrow s / pps))%nat -> (c < pps * (nrow s / pps))%nat ->
        terrain_elevation (cell (hfield_data s') r c))) /\
  (pps = 0%nat ->
   HeightField_init rng pps length distance s =
   inl (if Nat.eqb (nrow s) 0 then Builtin ValueError else OverflowError)).
Proof.
  intros Hwf H0 H1 Hcols. split.
  - intros [Hp1 Hp2].
    assert (Hps : (1 <= nrow s / pps)%nat) by (apply Nat.div_le_lower_bound; lia).
    pose proof (Nat.Div0.mul_div_le (nrow s) pps) as Hgrid.
    assert (Hd : INR pps <> 0) by (apply not_0_INR; lia).
    unfold HeightField_init, np_true_divide.
    destruct (Req_dec_T (INR pps) 0); [contradiction | ]. cbn [py_int].
    rewrite py_trunc_nonneg
      by (apply Rmult_le_pos; [apply pos_INR | left; apply Rinv_0_lt_compat;
                               apply lt_0_INR; lia]).
    rewrite Zfloor_nat_div by exact Hp1. rewrite Nat2Z.id.
    match goal with
    | |- context [_populate_patches ?s0] => set (s0' := s0)
    end.
    destruct (_populate_patches_returns s0')
      as (s' & E & Hfr & Hwf' & S0 & S1 & Hok & _).
    + exact Hps.
    + exact Hwf.
    + cbn [s0' patches_per_side patch_gen patch_size hfield_data]. rewrite H0. exact Hgrid.
    + cbn [s0' patches_per_side patch_gen patch_size hfield_data]. rewrite H1. lia.
    + destruct Hfr as (F1 & F2 & F3 & F4 & F5 & F6 & F7 & F8 & F9 & F10 & _).
      exists s'. rewrite E. split; [reflexivity | ].
      split; [exact F1 | split; [rewrite F1; exact Hps | ]].
      split; [exact F2 | split; [exact F3 | split; [exact F4 | ]]].
      split; [exact F5 | split; [exact F6 | split; [exact F10 | ]]].
      split; [rewrite F7; cbn [s0' padded_map]; f_equal; lia | ].
      split; [exact F8 | split; [exact F9 | ]].
      split; [exact Hwf' | split; [now rewrite S0 | split; [now rewrite S1 | ]]].
      exact Hok.
  - intros ->. unfold HeightField_init, np_true_divide. cbn [INR].
    destruct (Req_dec_T 0 0); [ | lra].
    destruct (Nat.eqb_spec (nrow s) 0) as [E | E].
    + rewrite E. cbn [INR]. destruct (Req_dec_T 0 0); [reflexivity | lra].
    + destruct (Req_dec_T (INR (nrow s)) 0) as [E0 | E0]; [ | reflexivity].
      exfalso. revert E0. apply not_0_INR. exact E.
Qed.

End ConstructorProperties.

Section ReplayConstructor.

(** X30 at work: two patches per side on a field of 4 by 4 cells. *)
Lemma constructor_builds_a_populated_field_witness :
  exists s' : HeightMap Tape,
    HeightField_init tape_half 2 12 20 (hmap0 4 2 2 0 0 tape_low) = inr (Return tt, s') /\
    patch_size (patch_gen s') = 2%nat /\
    padded_map s' = np_zeros 8 8.
Proof.
  destruct (constructor_builds_a_populated_field tape_half 2 12 20
              (hmap0 4 2 2 0 0 tape_low)) as [Hbuild _];
    try (cbn; lia); try apply well_shaped_np_zeros; try reflexivity.
  destruct Hbuild as (s' & E & Hps & _ & _ & _ & _ & _ & _ & _ & Hpad & _);
    [cbn; lia | ].
  exists s'. split; [exact E | split; [exact Hps | exact Hpad]].
Defined.

End ReplayConstructor.
